(** * ATLAS: the telemetry fan-out and derived-state engine

    A shallow embedding of the server core of the ATLAS reactor dashboard:
    the storage layer ([DatabaseStorage]), the sample generator and its
    threshold rule ([generateSensorData]), the derived-insight scheduler
    ([performAiAnalysis]), the observer hand-shake ([sendLatestData],
    [broadcast]) and the scenario manager ([ReactorScenarioManager]).

    JavaScript numbers that carry measurements are binary64 floats
    ([PrimFloat.float]); identifiers, timestamps and confidence percentages,
    which the code only ever handles as small integers, are in [Z].
    Asynchronous functions are coroutines: a value of a task type records
    the [await] at which the function is suspended together with its live
    locals, and a scheduler label resumes one task for one atomic segment. *)

From Stdlib Require Import ZArith List Ascii String DecimalString Bool Lia Floats.
From Stdlib Require Import Sorting.Permutation Sorting.Sorted.
Import ListNotations.

Set Warnings "-inexact-float".

#[local] Open Scope string_scope.
#[local] Open Scope Z_scope.

(** ** JavaScript numbers *)

Module JS.

(** [a > b] on numbers: false as soon as one side is NaN. *)
Definition gt (a b : float) : bool := PrimFloat.ltb b a.

Definition ge (a b : float) : bool := PrimFloat.leb b a.

(** ToBoolean on a number: [0], [-0] and [NaN] are falsy. *)
Definition truthy (a : float) : bool :=
  negb (PrimFloat.eqb a 0%float) && PrimFloat.eqb a a.

(** [a > b] where [b] is read from a property that may be absent:
    [undefined] converts to NaN, so the comparison is false. *)
Definition gt_opt (a : float) (b : option float) : bool :=
  match b with
  | Some b => gt a b
  | None => false
  end.

(** The integer [z] as a number (exact below 2^53). *)
Definition of_Z (z : Z) : float :=
  SF2Prim (binary_normalize prec emax z 0 false).

(** The nearest number to the decimal [n / 10]: what [parseFloat] returns
    on the digits of [n] with a point before the last one. *)
Definition of_tenths (neg : bool) (n : Z) : float :=
  match n with
  | Zpos p =>
      SF2Prim (SFdiv prec emax (S754_finite neg p 0) (S754_finite false 10 0))
  | _ => if neg then (-0)%float else 0%float
  end.

(** The integer nearest to [10 * m * 2^e], the larger one on a tie:
    the digits [Number.prototype.toFixed(1)] prints for [m * 2^e]. *)
Definition tenths (m : positive) (e : Z) : Z :=
  match e with
  | Zneg k => (20 * Zpos m + 2 ^ Zpos k) / 2 ^ (Zpos k + 1)
  | _ => 10 * Zpos m * 2 ^ e
  end.

(** [parseFloat(x.toFixed(1))].  [toFixed] prints NaN and the infinities
    by name and a magnitude of 1e21 or more in exponent form; [parseFloat]
    reads each of them back as [x].  Zero prints as "0.0" whatever its
    sign; a negative [x] keeps its sign even when it rounds to "-0.0". *)
Definition parseFloat_toFixed1 (x : float) : float :=
  match Prim2SF x with
  | S754_nan => x
  | S754_infinity _ => x
  | S754_zero _ => 0%float
  | S754_finite s m e =>
      if ge (PrimFloat.abs x) 1e21%float then x
      else of_tenths s (tenths m e)
  end.

(** [Math.floor] of a finite number, as an integer. *)
Definition floorZ (x : float) : option Z :=
  match Prim2SF x with
  | S754_zero _ => Some 0
  | S754_finite s m e =>
      let z := if s then Zneg m else Zpos m in
      Some (match e with
            | Zneg k => z / 2 ^ Zpos k
            | _ => z * 2 ^ e
            end)
  | _ => None
  end.

(** The range of [Math.random()]. *)
Definition unit_interval (r : float) : bool :=
  PrimFloat.leb 0%float r && PrimFloat.ltb r 1%float.

End JS.

(** ** shared/schema.ts *)

Module Schema.

(** [status] column of [sensor_data]: normal, warning, critical. *)
Inductive Status := normal | warning | critical.

Definition Status_eqb (a b : Status) : bool :=
  match a, b with
  | normal, normal | warning, warning | critical, critical => true
  | _, _ => false
  end.

Definition Status_text (s : Status) : string :=
  match s with
  | normal => "normal"
  | warning => "warning"
  | critical => "critical"
  end.

(** A row of [sensor_data]. *)
Record SensorData := {
  sd_id : Z;
  sd_nodeId : string;
  sd_sensorType : string;
  sd_value : float;
  sd_unit : string;
  sd_status : Status;
  sd_threshold : option float;
  sd_maxValue : option float;
  sd_timestamp : Z
}.

(** [InsertSensorData]: the row without [id] and [timestamp]; a nullish
    [threshold] or [maxValue] is [None]. *)
Record InsertSensorData := {
  isd_nodeId : string;
  isd_sensorType : string;
  isd_value : float;
  isd_unit : string;
  isd_status : Status;
  isd_threshold : option float;
  isd_maxValue : option float
}.

(** A row of [alerts].  [al_sensorNodeId] and [al_alertType] are [None]
    when the caller's object had no such property. *)
Record Alert := {
  al_id : Z;
  al_sensorNodeId : option string;
  al_alertType : option string;
  al_message : string;
  al_isActive : bool;
  al_timestamp : Z
}.

(** What [createAlert] reads from its argument. *)
Record InsertAlert := {
  ial_sensorNodeId : option string;
  ial_alertType : option string;
  ial_message : string;
  ial_isActive : option bool
}.

Record AiRecommendation := {
  rec_id : Z;
  rec_title : string;
  rec_description : string;
  rec_priority : string;
  rec_confidence : Z;
  rec_category : option string;
  rec_timestamp : Z
}.

Record InsertAiRecommendation := {
  irec_title : string;
  irec_description : string;
  irec_priority : string;
  irec_confidence : Z;
  irec_category : option string
}.

Record SystemLog := {
  log_id : Z;
  log_timestamp : Z;
  log_level : string;
  log_message : string;
  log_source : string
}.

Record InsertSystemLog := {
  ilog_level : string;
  ilog_message : string;
  ilog_source : string
}.

Record ServerConnection := {
  conn_id : Z;
  conn_serverType : string;
  conn_status : string;
  conn_lastPing : Z
}.

End Schema.
Import Schema.

(** ** The database behind [db]

    Modelled from the spec: the storage engine ([./db], a drizzle handle on
    Postgres) is not part of the sources.  The spec makes it responsible for
    assigning identifiers and default timestamps; a table is the list of its
    rows in insertion order, [serial] columns count from 1, and [defaultNow()]
    is the time [now] at which the statement runs. *)

Module Database.

Record Db := {
  sensorData : list SensorData;
  sensorData_seq : Z;
  alerts : list Alert;
  alerts_seq : Z;
  aiRecommendations : list AiRecommendation;
  aiRecommendations_seq : Z;
  systemLogs : list SystemLog;
  systemLogs_seq : Z;
  serverConnections : list ServerConnection
}.

(** The two rows [initializeServerConnections] inserts into an empty table. *)
Definition empty (now : Z) : Db :=
  {| sensorData := []; sensorData_seq := 1;
     alerts := []; alerts_seq := 1;
     aiRecommendations := []; aiRecommendations_seq := 1;
     systemLogs := []; systemLogs_seq := 1;
     serverConnections :=
       [ {| conn_id := 1; conn_serverType := "aws";
            conn_status := "connected"; conn_lastPing := now |};
         {| conn_id := 2; conn_serverType := "ubuntu";
            conn_status := "connected"; conn_lastPing := now |} ] |}.

Definition with_sensorData (d : Db) (rows : list SensorData) (seq : Z) : Db :=
  {| sensorData := rows; sensorData_seq := seq;
     alerts := alerts d; alerts_seq := alerts_seq d;
     aiRecommendations := aiRecommendations d;
     aiRecommendations_seq := aiRecommendations_seq d;
     systemLogs := systemLogs d; systemLogs_seq := systemLogs_seq d;
     serverConnections := serverConnections d |}.

Definition with_alerts (d : Db) (rows : list Alert) (seq : Z) : Db :=
  {| sensorData := sensorData d; sensorData_seq := sensorData_seq d;
     alerts := rows; alerts_seq := seq;
     aiRecommendations := aiRecommendations d;
     aiRecommendations_seq := aiRecommendations_seq d;
     systemLogs := systemLogs d; systemLogs_seq := systemLogs_seq d;
     serverConnections := serverConnections d |}.

Definition with_aiRecommendations (d : Db) (rows : list AiRecommendation)
    (seq : Z) : Db :=
  {| sensorData := sensorData d; sensorData_seq := sensorData_seq d;
     alerts := alerts d; alerts_seq := alerts_seq d;
     aiRecommendations := rows; aiRecommendations_seq := seq;
     systemLogs := systemLogs d; systemLogs_seq := systemLogs_seq d;
     serverConnections := serverConnections d |}.

Definition with_systemLogs (d : Db) (rows : list SystemLog) (seq : Z) : Db :=
  {| sensorData := sensorData d; sensorData_seq := sensorData_seq d;
     alerts := alerts d; alerts_seq := alerts_seq d;
     aiRecommendations := aiRecommendations d;
     aiRecommendations_seq := aiRecommendations_seq d;
     systemLogs := rows; systemLogs_seq := seq;
     serverConnections := serverConnections d |}.

(** [orderBy(desc(key))]: largest key first, rows with equal keys in
    insertion order. *)
Fixpoint insert_desc {A} (key : A -> Z) (x : A) (l : list A) : list A :=
  match l with
  | [] => [x]
  | y :: l' => if key y <=? key x then x :: l else y :: insert_desc key x l'
  end.

Definition orderBy_desc {A} (key : A -> Z) (l : list A) : list A :=
  fold_right (insert_desc key) [] l.

End Database.
Import Database.

(** ** server/storage.ts: [DatabaseStorage] *)

Module Storage.

(** [createSensorData]: insert, then [returning()] the stored row. *)
Definition createSensorData (now : Z) (data : InsertSensorData) (d : Db)
    : SensorData * Db :=
  let result :=
    {| sd_id := sensorData_seq d;
       sd_nodeId := isd_nodeId data;
       sd_sensorType := isd_sensorType data;
       sd_value := isd_value data;
       sd_unit := isd_unit data;
       sd_status := isd_status data;
       sd_threshold := isd_threshold data;
       sd_maxValue := isd_maxValue data;
       sd_timestamp := now |} in
  (result, with_sensorData d (sensorData d ++ [result]) (sensorData_seq d + 1)).

Definition getAllSensorData (d : Db) : list SensorData :=
  orderBy_desc sd_timestamp (sensorData d).

(** The [Map<string, SensorData>] of [getLatestSensorData], in insertion
    order of its keys as a JavaScript [Map] keeps them. *)
Definition Grouped := list (string * SensorData).

Fixpoint grouped_get (g : Grouped) (k : string) : option SensorData :=
  match g with
  | [] => None
  | (k', v) :: g' => if String.eqb k' k then Some v else grouped_get g' k
  end.

(** [Map.prototype.set]: an existing key keeps its place. *)
Fixpoint grouped_set (g : Grouped) (k : string) (v : SensorData) : Grouped :=
  match g with
  | [] => [(k, v)]
  | (k', v') :: g' =>
      if String.eqb k' k then (k', v) :: g' else (k', v') :: grouped_set g' k v
  end.

(** One turn of the [forEach] callback. *)
Definition latest_step (grouped : Grouped) (data : SensorData) : Grouped :=
  match grouped_get grouped (sd_nodeId data) with
  | None => grouped_set grouped (sd_nodeId data) data
  | Some existing =>
      if sd_timestamp existing <? sd_timestamp data
      then grouped_set grouped (sd_nodeId data) data
      else grouped
  end.

Definition latest_of (result : list SensorData) : list SensorData :=
  map snd (fold_left latest_step result []).

Definition getLatestSensorData (d : Db) : list SensorData :=
  latest_of (sensorData d).

Definition getSensorDataByType (sensorType : string) (d : Db) : list SensorData :=
  orderBy_desc sd_timestamp
    (filter (fun r => String.eqb (sd_sensorType r) sensorType) (sensorData d)).

(** [createAlert]: [isActive] defaults to [true]. *)
Definition createAlert (now : Z) (alert : InsertAlert) (d : Db) : Alert * Db :=
  let result :=
    {| al_id := alerts_seq d;
       al_sensorNodeId := ial_sensorNodeId alert;
       al_alertType := ial_alertType alert;
       al_message := ial_message alert;
       al_isActive := match ial_isActive alert with Some b => b | None => true end;
       al_timestamp := now |} in
  (result, with_alerts d (alerts d ++ [result]) (alerts_seq d + 1)).

Definition getAllAlerts (d : Db) : list Alert :=
  orderBy_desc al_timestamp (alerts d).

Definition getActiveAlerts (d : Db) : list Alert :=
  orderBy_desc al_timestamp (filter al_isActive (alerts d)).

(** [deactivateAlert]: an UPDATE on the rows whose [id] matches; it
    resolves to nothing, whether a row matched or not. *)
Definition deactivate_row (id : Z) (a : Alert) : Alert :=
  if al_id a =? id
  then {| al_id := al_id a; al_sensorNodeId := al_sensorNodeId a;
          al_alertType := al_alertType a; al_message := al_message a;
          al_isActive := false; al_timestamp := al_timestamp a |}
  else a.

Definition deactivateAlert (id : Z) (d : Db) : Db :=
  with_alerts d (map (deactivate_row id) (alerts d)) (alerts_seq d).

Definition createAiRecommendation (now : Z) (r : InsertAiRecommendation)
    (d : Db) : AiRecommendation * Db :=
  let result :=
    {| rec_id := aiRecommendations_seq d;
       rec_title := irec_title r;
       rec_description := irec_description r;
       rec_priority := irec_priority r;
       rec_confidence := irec_confidence r;
       rec_category := irec_category r;
       rec_timestamp := now |} in
  (result, with_aiRecommendations d (aiRecommendations d ++ [result])
             (aiRecommendations_seq d + 1)).

Definition getRecentAiRecommendations (limit : nat) (d : Db)
    : list AiRecommendation :=
  firstn limit (orderBy_desc rec_timestamp (aiRecommendations d)).

Definition createSystemLog (now : Z) (l : InsertSystemLog) (d : Db)
    : SystemLog * Db :=
  let result :=
    {| log_id := systemLogs_seq d;
       log_timestamp := now;
       log_level := ilog_level l;
       log_message := ilog_message l;
       log_source := ilog_source l |} in
  (result, with_systemLogs d (systemLogs d ++ [result]) (systemLogs_seq d + 1)).

Definition getRecentSystemLogs (limit : nat) (d : Db) : list SystemLog :=
  firstn limit (orderBy_desc log_timestamp (systemLogs d)).

Definition getAllServerConnections (d : Db) : list ServerConnection :=
  serverConnections d.

End Storage.

(** ** server/routes.ts: the sample generator *)

Module Generator.

Record SensorConfig := {
  cfg_nodeId : string;
  cfg_sensorType : string;
  cfg_unit : string;
  cfg_baseValue : float;
  cfg_variance : float;
  cfg_threshold : option float;   (* [None]: the property is absent *)
  cfg_maxValue : option float;    (* [None]: the property is absent *)
  cfg_location : string
}.

Definition config (nodeId sensorType unit_ : string)
    (baseValue variance threshold maxValue : float) (location : string)
    : SensorConfig :=
  {| cfg_nodeId := nodeId; cfg_sensorType := sensorType; cfg_unit := unit_;
     cfg_baseValue := baseValue; cfg_variance := variance;
     cfg_threshold := Some threshold; cfg_maxValue := Some maxValue;
     cfg_location := location |}.

Definition SENSOR_CONFIGS : list SensorConfig :=
  [ config "CORE-TEMP-01" "temperature" "°C" 580 8 590 620 "AWS";
    config "CORE-TEMP-02" "temperature" "°C" 575 10 590 620 "Ubuntu";
    config "PRES-PRI-01" "pressure" "MPa" 15.5 0.3 16.2 17.5 "AWS";
    config "PRES-SEC-01" "pressure" "MPa" 7.0 0.2 7.8 8.5 "Ubuntu";
    config "RAD-CORE-01" "radiation" "mSv/h" 2.1 0.2 4.5 8.0 "AWS";
    config "RAD-CONT-01" "radiation" "mSv/h" 0.8 0.1 2.0 5.0 "Ubuntu";
    config "COOL-PRI-01" "coolant_flow" "L/s" 1247 30 1180 1400 "AWS";
    config "COOL-SEC-01" "coolant_flow" "L/s" 890 25 850 950 "Ubuntu";
    config "NEUT-FLUX-01" "neutron_flux" "n/cm²s" 2.8e14 0.15e14 3.2e14 3.8e14 "AWS";
    config "NEUT-FLUX-02" "neutron_flux" "n/cm²s" 2.9e14 0.18e14 3.2e14 3.8e14 "Ubuntu";
    config "CTRL-ROD-01" "control_rods" "%" 68 2 72 100 "AWS";
    config "CTRL-ROD-02" "control_rods" "%" 65 3 72 100 "Ubuntu" ]%float.

(** [config.baseValue + (Math.random() - 0.5) * config.variance], with
    [random] the value [Math.random()] returned. *)
Definition generatedValue (config : SensorConfig) (random : float) : float :=
  (cfg_baseValue config + (random - 0.5) * cfg_variance config)%float.

(** [config.maxValue && value > config.maxValue * 0.9] as a condition. *)
Definition nearMax (value : float) (maxValue : option float) : bool :=
  match maxValue with
  | Some m => JS.truthy m && JS.gt value (m * 0.9)%float
  | None => false
  end.

(** "Determine status based on thresholds". *)
Definition deriveStatus (value : float) (config : SensorConfig) : Status :=
  if JS.gt_opt value (cfg_threshold config)
  then if nearMax value (cfg_maxValue config) then critical else warning
  else normal.

(** "Special handling for neutron flux display". *)
Definition displayValue (config : SensorConfig) (value : float) : float :=
  if String.eqb (cfg_sensorType config) "neutron_flux"
  then (JS.parseFloat_toFixed1 (value / 1e14) * 1e14)%float
  else value.

(** The object handed to [storage.createSensorData]: the status is fixed
    before the value is rounded for display. *)
Definition reading (config : SensorConfig) (random : float) : InsertSensorData :=
  let value := generatedValue config random in
  let status := deriveStatus value config in
  let value := displayValue config value in
  {| isd_nodeId := cfg_nodeId config;
     isd_sensorType := cfg_sensorType config;
     isd_value := value;
     isd_unit := cfg_unit config;
     isd_status := status;
     isd_threshold := cfg_threshold config;
     isd_maxValue := cfg_maxValue config |}.

(** [s.replace('_', ' ')]: the first underscore only. *)
Fixpoint replace_underscore (s : string) : string :=
  match s with
  | EmptyString => EmptyString
  | String c s' =>
      if Ascii.eqb c "_"%char then String " "%char s'
      else String c (replace_underscore s')
  end.

Definition alertMessage (config : SensorConfig) (status : Status) : string :=
  replace_underscore (cfg_sensorType config) ++ " sensor " ++ cfg_nodeId config
    ++ " " ++ (if Status_eqb status critical then "critically" else "")
    ++ " exceeded threshold".

(** [existingAlerts.some(alert => alert.sensorNodeId === config.nodeId
    && alert.isActive)]. *)
Definition isActiveAlertOf (nodeId : string) (alert : Alert) : bool :=
  match al_sensorNodeId alert with
  | Some n => String.eqb n nodeId && al_isActive alert
  | None => false
  end.

Definition hasActiveAlert (existingAlerts : list Alert) (nodeId : string) : bool :=
  existsb (isActiveAlertOf nodeId) existingAlerts.

Definition newAlert (config : SensorConfig) (status : Status) : InsertAlert :=
  {| ial_sensorNodeId := Some (cfg_nodeId config);
     ial_alertType := Some (Status_text status);
     ial_message := alertMessage config status;
     ial_isActive := Some true |}.

Definition breached (status : Status) : bool :=
  Status_eqb status warning || Status_eqb status critical.

(** "Create alerts for warning/critical conditions", with the two storage
    calls running back to back: the read of the active alerts and the
    insert it guards. *)
Definition raiseAlert (now : Z) (config : SensorConfig) (status : Status)
    (d : Db) : Db :=
  if breached status then
    let existingAlerts := Storage.getActiveAlerts d in
    if hasActiveAlert existingAlerts (cfg_nodeId config) then d
    else snd (Storage.createAlert now (newAlert config status) d)
  else d.

End Generator.

(** ** server/routes.ts: the derived-insight scheduler *)

Module Insight.

Record AnalysisPattern := {
  title : string;
  description : string;
  priority : string;
  confidence : Z;
  category : string
}.

Definition nuclearAnalysisPatterns : list AnalysisPattern :=
  [ {| title := "Core Temperature Trend Analysis";
       description := "Primary loop temperature approaching technical specification limits. Recommend reducing reactor power by 5% and monitoring neutron flux distribution.";
       priority := "high"; confidence := 91; category := "anomaly" |};
    {| title := "Thermal Hydraulic Optimization";
       description := "Secondary coolant flow pattern shows potential for 2.1% efficiency improvement. Consider adjusting steam generator feedwater flow rate.";
       priority := "medium"; confidence := 88; category := "optimization" |};
    {| title := "Neutron Flux Distribution Alert";
       description := "In-core neutron detectors show asymmetric flux pattern. Control rod bank D position may require adjustment to maintain axial power distribution.";
       priority := "high"; confidence := 93; category := "anomaly" |};
    {| title := "Reactor Physics Optimization";
       description := "Current control rod configuration allows for 1.8% burnup optimization while maintaining safety margins within technical specifications.";
       priority := "medium"; confidence := 85; category := "optimization" |};
    {| title := "Primary Pressure System Performance";
       description := "Pressurizer level and pressure trending nominally. All safety injection system pumps available. RCS integrity maintained.";
       priority := "info"; confidence := 97; category := "performance" |};
    {| title := "Steam Generator Performance";
       description := "Secondary side pressure differential indicates potential for steam generator tube inspection during next scheduled outage.";
       priority := "medium"; confidence := 82; category := "optimization" |};
    {| title := "Radiation Protection Analysis";
       description := "Containment radiation monitors within normal operating envelope. No indication of fuel cladding degradation or primary-to-secondary leakage.";
       priority := "info"; confidence := 94; category := "performance" |};
    {| title := "Environmental Monitoring Alert";
       description := "Slight increase in containment particulate activity. Recommend enhanced radiological surveillance and primary coolant sampling.";
       priority := "medium"; confidence := 79; category := "anomaly" |};
    {| title := "Control Rod Drive System Status";
       description := "All control rod drive mechanisms responding normally. Rod drop times within technical specification requirements.";
       priority := "info"; confidence := 98; category := "performance" |};
    {| title := "Reactor Trip System Readiness";
       description := "All reactor protection system channels operational. Diverse actuation system armed and ready. Safety systems demonstrate high reliability.";
       priority := "info"; confidence := 96; category := "performance" |} ].

(** [Math.floor(Math.random() * 8) - 4]. *)
Definition confidenceVariation (random : float) : option Z :=
  option_map (fun k => k - 4) (JS.floorZ (random * 8)%float).

(** [Math.max(75, Math.min(99, analysis.confidence + confidenceVariation))]:
    every operand is an integer far below 2^53. *)
Definition finalConfidence (analysis : AnalysisPattern) (variation : Z) : Z :=
  Z.max 75 (Z.min 99 (confidence analysis + variation)).

(** [nuclearAnalysisPatterns[Math.floor(Math.random() * length)]]. *)
Definition pick (random : float) : option AnalysisPattern :=
  match JS.floorZ (random * JS.of_Z (Z.of_nat (List.length nuclearAnalysisPatterns)))%float with
  | Some i => if i <? 0 then None else nth_error nuclearAnalysisPatterns (Z.to_nat i)
  | None => None
  end.

(** One tick of [performAiAnalysis] up to the call of
    [storage.createAiRecommendation]: the template picked and the object
    passed, or [None] when the tick produces nothing.  [r1], [r2], [r3]
    are the three values [Math.random()] returns, in program order. *)
Definition performAiAnalysis (r1 r2 r3 : float)
    : option (AnalysisPattern * InsertAiRecommendation) :=
  let shouldGenerateAnalysis := PrimFloat.ltb r1 0.25%float in
  if shouldGenerateAnalysis then
    match pick r2, confidenceVariation r3 with
    | Some analysis, Some variation =>
        Some (analysis,
              {| irec_title := title analysis;
                 irec_description := description analysis;
                 irec_priority := priority analysis;
                 irec_confidence := finalConfidence analysis variation;
                 irec_category := Some (category analysis) |})
    | _, _ => None
    end
  else None.

End Insight.

(** ** server/reactor-scenarios.ts: the scenario table *)

Module Scenario.

Record SensorModification := {
  mod_nodeId : string;
  mod_valueChange : Z;
  mod_statusChange : option string;
  mod_reason : string
}.

Record AlertCondition := {
  ac_severity : string;
  ac_message : string;
  ac_nodeId : option string;
  ac_triggerCondition : string
}.

Record ScenarioPhase := {
  ph_name : string;
  ph_duration : Z;
  ph_sensorModifications : list SensorModification;
  ph_alertConditions : list AlertCondition;
  ph_procedureSteps : list string
}.

Record ReactorScenario := {
  sc_id : string;
  sc_name : string;
  sc_description : string;
  sc_duration : Z;
  sc_phases : list ScenarioPhase;
  sc_safeguards : list string;
  sc_procedures : list string
}.

(** The manager's fields.  [phaseTimer] is the handle of the last
    [setTimeout]; the timers themselves live in the event loop. *)
Record Manager := {
  scenarios : list ReactorScenario;
  activeScenario : option ReactorScenario;
  currentPhase : nat;
  scenarioStartTime : option Z;
  phaseTimer : option nat
}.

Definition manager (all : list ReactorScenario) : Manager :=
  {| scenarios := all; activeScenario := None; currentPhase := 0%nat;
     scenarioStartTime := None; phaseTimer := None |}.

Definition string_of_nat (n : nat) : string :=
  NilEmpty.string_of_uint (Nat.to_uint n).

Definition string_of_Z (z : Z) : string :=
  NilZero.string_of_int (Z.to_int z).

Definition log (level message source : string) : InsertSystemLog :=
  {| ilog_level := level; ilog_message := message; ilog_source := source |}.

(** The object literals the manager passes to [storage.createAlert] have
    the keys [nodeId], [message], [severity], [isActive] and
    [acknowledgedAt]; [createAlert] reads [sensorNodeId], [alertType],
    [message] and [isActive], so the first two are undefined. *)
Definition scenarioAlert (nodeId message severity : string) : InsertAlert :=
  {| ial_sensorNodeId := None; ial_alertType := None;
     ial_message := message; ial_isActive := Some true |}.

Definition startedLog (scenario : ReactorScenario) : InsertSystemLog :=
  log "info" ("Nuclear Scenario Started: " ++ sc_name scenario) "scenario-manager".

Definition startedAlert (scenario : ReactorScenario) : InsertAlert :=
  scenarioAlert "SCENARIO-CONTROL"
    ("SCENARIO ACTIVE: " ++ sc_name scenario ++ " - " ++ sc_description scenario)
    "info".

Definition stoppedLog (scenario : ReactorScenario) (phase : nat) : InsertSystemLog :=
  log "warning"
    ("Nuclear Scenario Stopped: " ++ sc_name scenario ++ " (Phase "
       ++ string_of_nat (phase + 1) ++ ")")
    "scenario-manager".

Definition phaseLog (phase : nat) (p : ScenarioPhase) : InsertSystemLog :=
  log "info"
    ("Scenario Phase " ++ string_of_nat (phase + 1) ++ ": " ++ ph_name p)
    "scenario-manager".

Definition modificationLog (m : SensorModification) : InsertSystemLog :=
  log "info"
    ("Sensor " ++ mod_nodeId m ++ ": " ++ mod_reason m ++ " (Value change: "
       ++ (if 0 <? mod_valueChange m then "+" else "")
       ++ string_of_Z (mod_valueChange m) ++ ")")
    "scenario-modification".

Definition phaseAlert (a : AlertCondition) : InsertAlert :=
  scenarioAlert (match ac_nodeId a with Some n => n | None => "SCENARIO-EVENT" end)
    (ac_message a) (ac_severity a).

(** The recommendation of a phase; the object has no [category] key. *)
Definition phaseRecommendation (scenario : ReactorScenario) (phase : nat)
    (p : ScenarioPhase) : InsertAiRecommendation :=
  {| irec_title := sc_name scenario ++ " - Phase " ++ string_of_nat (phase + 1);
     irec_description :=
       "Current phase: " ++ ph_name p ++ ". Recommended actions: "
         ++ String.concat "; " (ph_procedureSteps p);
     irec_priority := "high";
     irec_confidence := 95;
     irec_category := None |}.

Definition completedLog (scenario : ReactorScenario) : InsertSystemLog :=
  log "info" ("Nuclear Scenario Completed: " ++ sc_name scenario) "scenario-manager".

Definition completedAlert (scenario : ReactorScenario) : InsertAlert :=
  scenarioAlert "SCENARIO-CONTROL"
    ("SCENARIO COMPLETED: " ++ sc_name scenario
       ++ " - All phases executed successfully")
    "info".

Definition modification (nodeId : string) (valueChange : Z)
    (statusChange : option string) (reason : string) : SensorModification :=
  {| mod_nodeId := nodeId; mod_valueChange := valueChange;
     mod_statusChange := statusChange; mod_reason := reason |}.

Definition condition (severity message triggerCondition : string) : AlertCondition :=
  {| ac_severity := severity; ac_message := message; ac_nodeId := None;
     ac_triggerCondition := triggerCondition |}.

Definition refueling_outage : ReactorScenario :=
  {| sc_id := "refueling-outage";
     sc_name := "Planned Refueling Outage";
     sc_description := "Complete reactor shutdown and refueling operation following NRC procedures";
     sc_duration := 2160;
     sc_phases :=
     [ {| ph_name := "Mode 1 to Mode 2 Transition"; ph_duration := 15;
          ph_sensorModifications :=
            [ modification "NEUTRON-01" (-50) None "Control rod insertion beginning";
              modification "CORE-TEMP-01" (-20) None "Reactor power reduction";
              modification "CONTROL-ROD-01" 25 None "Rod insertion sequence initiated" ];
          ph_alertConditions :=
            [ condition "info" "Reactor shutdown sequence initiated - Mode 1 to Mode 2" "power_reduction" ];
          ph_procedureSteps :=
            [ "Verify all control rods fully operational";
              "Begin controlled power reduction at 3%/minute";
              "Monitor neutron flux and temperature response";
              "Confirm reactor subcritical conditions" ] |};
       {| ph_name := "Mode 3 - Hot Shutdown"; ph_duration := 20;
          ph_sensorModifications :=
            [ modification "NEUTRON-01" (-80) None "Reactor subcritical";
              modification "CORE-TEMP-01" (-50) None "Natural cooldown beginning";
              modification "CONTROL-ROD-01" 50 None "All rods inserted";
              modification "PRIMARY-PRESS-01" (-5) None "Pressure reduction" ];
          ph_alertConditions :=
            [ condition "info" "Reactor in Mode 3 - Hot Shutdown achieved" "subcritical";
              condition "warning" "Monitor decay heat removal systems" "temperature_monitoring" ];
          ph_procedureSteps :=
            [ "Verify reactor subcritical by at least 1% delta-k";
              "Monitor decay heat removal capability";
              "Begin cooldown at rate not exceeding 50°C/hour";
              "Maintain RCS inventory and pressure" ] |};
       {| ph_name := "Mode 4 - Hot Standby"; ph_duration := 25;
          ph_sensorModifications :=
            [ modification "CORE-TEMP-01" (-100) None "Continued cooldown";
              modification "PRIMARY-PRESS-01" (-15) None "Depressurization sequence";
              modification "COOLANT-FLOW-01" (-30) None "Reduced flow requirements" ];
          ph_alertConditions :=
            [ condition "info" "Mode 4 - Hot Standby conditions established" "temperature_pressure" ];
          ph_procedureSteps :=
            [ "RCS temperature below 200°C (392°F)";
              "Maintain adequate shutdown margin";
              "Verify residual heat removal system operation";
              "Prepare for Mode 5 transition" ] |};
       {| ph_name := "Mode 5 - Cold Shutdown"; ph_duration := 30;
          ph_sensorModifications :=
            [ modification "CORE-TEMP-01" (-200) None "Cold shutdown temperature achieved";
              modification "PRIMARY-PRESS-01" (-25) None "Near atmospheric pressure";
              modification "COOLANT-FLOW-01" (-50) None "Minimum flow for decay heat removal" ];
          ph_alertConditions :=
            [ condition "info" "Mode 5 - Cold Shutdown achieved - Ready for refueling" "cold_shutdown" ];
          ph_procedureSteps :=
            [ "RCS temperature below 93°C (200°F)";
              "Verify all safety systems operable";
              "Begin fuel pool preparation";
              "Coordinate refueling crew readiness" ] |};
       {| ph_name := "Mode 6 - Refueling Operations"; ph_duration := 45;
          ph_sensorModifications :=
            [ modification "CORE-TEMP-01" (-250) None "Reactor vessel head removed";
              modification "RAD-MONITOR-01" 15 None "Fuel handling operations";
              modification "COOLANT-FLOW-01" (-70) None "Cavity flooding complete" ];
          ph_alertConditions :=
            [ condition "info" "Mode 6 - Refueling operations in progress" "refueling_mode";
              condition "warning" "Enhanced radiation monitoring during fuel moves" "fuel_handling" ];
          ph_procedureSteps :=
            [ "Reactor vessel head removed and stored";
              "Fuel transfer canal flooded";
              "Begin spent fuel removal sequence";
              "Install fresh fuel assemblies per core loading map";
              "Verify proper fuel assembly seating" ] |} ];
     sc_safeguards :=
       [ "Shutdown margin maintained > 1% delta-k at all times";
         "Decay heat removal systems continuously monitored";
         "Radiation protection controls for refueling operations";
         "Fuel handling crane interlocks active";
         "Boron concentration maintained per technical specifications" ];
     sc_procedures :=
       [ "GOP-003: Reactor Shutdown from Power Operation";
         "SOP-012: Residual Heat Removal System Operation";
         "FHP-001: Fuel Handling Procedures";
         "RPP-005: Radiation Protection During Outage" ] |}.

Definition steam_line_break : ReactorScenario :=
  {| sc_id := "steam-line-break";
     sc_name := "Steam Line Break Accident";
     sc_description := "Main steam line rupture simulation with automatic safety system response";
     sc_duration := 45;
     sc_phases :=
     [ {| ph_name := "Initial Break Event"; ph_duration := 2;
          ph_sensorModifications :=
            [ modification "STEAM-PRESS-01" (-40) (Some "critical") "Steam line rupture";
              modification "STEAM-TEMP-01" (-30) None "Steam blowdown cooling";
              modification "CORE-TEMP-01" 15 None "Increased reactor power from cooldown" ];
          ph_alertConditions :=
            [ condition "critical" "STEAM LINE BREAK DETECTED - Main Steam Isolation Signal" "pressure_drop";
              condition "critical" "Reactor Trip Signal Generated" "safety_system" ];
          ph_procedureSteps :=
            [ "Reactor trip automatically initiated";
              "Main steam isolation valves close";
              "Safety injection signal generated";
              "Emergency diesel generators start" ] |};
       {| ph_name := "Emergency Core Cooling Response"; ph_duration := 8;
          ph_sensorModifications :=
            [ modification "NEUTRON-01" (-90) None "Reactor trip successful";
              modification "PRIMARY-PRESS-01" 20 None "Safety injection flow";
              modification "COOLANT-FLOW-01" 40 None "Emergency core cooling activation" ];
          ph_alertConditions :=
            [ condition "warning" "Emergency Core Cooling System activated" "eccs_actuation";
              condition "info" "Core cooling restored and maintained" "cooling_adequate" ];
          ph_procedureSteps :=
            [ "Verify reactor trip and safety injection";
              "Monitor emergency core cooling flow";
              "Assess steam generator levels";
              "Begin emergency operating procedures" ] |};
       {| ph_name := "Stabilization and Recovery"; ph_duration := 35;
          ph_sensorModifications :=
            [ modification "CORE-TEMP-01" (-30) None "Emergency cooling effectiveness";
              modification "STEAM-PRESS-01" 10 None "Isolation effective, pressure stabilizing";
              modification "RAD-MONITOR-01" 5 None "Minor containment radiation increase" ];
          ph_alertConditions :=
            [ condition "info" "Plant conditions stabilized" "stable_conditions";
              condition "warning" "Continue monitoring for radiation release" "rad_monitoring" ];
          ph_procedureSteps :=
            [ "Establish long-term core cooling";
              "Monitor containment integrity";
              "Assess need for emergency plan activation";
              "Prepare for plant recovery operations" ] |} ];
     sc_safeguards :=
       [ "Automatic reactor trip on steam line break signal";
         "Main steam isolation valve closure";
         "Emergency core cooling system activation";
         "Containment isolation systems";
         "Emergency diesel generator automatic start" ];
     sc_procedures :=
       [ "EOP-001: Reactor Trip Response";
         "EOP-003: Steam Line Break";
         "SAG-001: Severe Accident Guidelines";
         "EPP-001: Emergency Plan Implementation" ] |}.

Definition station_blackout : ReactorScenario :=
  {| sc_id := "station-blackout";
     sc_name := "Station Blackout Event";
     sc_description := "Loss of all AC power with emergency diesel generator failure";
     sc_duration := 60;
     sc_phases :=
     [ {| ph_name := "AC Power Loss"; ph_duration := 1;
          ph_sensorModifications :=
            [ modification "PRIMARY-PRESS-01" (-10) (Some "warning") "Reactor coolant pump coastdown";
              modification "COOLANT-FLOW-01" (-80) None "Pumps tripping on power loss";
              modification "NEUTRON-01" (-85) None "Automatic reactor trip" ];
          ph_alertConditions :=
            [ condition "critical" "STATION BLACKOUT - All AC power lost" "power_loss";
              condition "critical" "Emergency diesel generators failed to start" "backup_power_failure" ];
          ph_procedureSteps :=
            [ "Reactor automatically trips on loss of power";
              "Verify emergency diesel generator status";
              "Assess DC power availability";
              "Implement FLEX strategies if available" ] |};
       {| ph_name := "Battery Power Phase"; ph_duration := 15;
          ph_sensorModifications :=
            [ modification "CORE-TEMP-01" 25 None "Loss of normal cooling, decay heat buildup";
              modification "PRIMARY-PRESS-01" 15 None "Steam generator dryout beginning";
              modification "STEAM-TEMP-01" 20 None "Natural circulation effects" ];
          ph_alertConditions :=
            [ condition "warning" "Operating on battery power - Limited time available" "battery_operation";
              condition "warning" "Steam generator inventory decreasing" "sg_level_low" ];
          ph_procedureSteps :=
            [ "Monitor battery voltage and load";
              "Secure non-essential DC loads";
              "Monitor steam generator levels";
              "Prepare for potential core damage" ] |};
       {| ph_name := "Extended Blackout"; ph_duration := 44;
          ph_sensorModifications :=
            [ modification "CORE-TEMP-01" 80 (Some "critical") "Core heat up continues";
              modification "RAD-MONITOR-01" 25 None "Potential fuel damage indicators";
              modification "PRIMARY-PRESS-01" 30 None "Steam formation in vessel" ];
          ph_alertConditions :=
            [ condition "critical" "Core temperature approaching damage limits" "core_damage_threat";
              condition "critical" "Implement severe accident management guidelines" "emergency_response" ];
          ph_procedureSteps :=
            [ "Monitor core exit thermocouples";
              "Assess containment conditions";
              "Implement SAMG procedures";
              "Consider emergency plan escalation" ] |} ];
     sc_safeguards :=
       [ "Battery power for critical instrumentation";
         "Natural circulation cooling capability";
         "FLEX equipment deployment";
         "Severe accident management guidelines";
         "Emergency response organization activation" ];
     sc_procedures :=
       [ "EOP-008: Loss of All AC Power";
         "SAMG-001: Severe Accident Management";
         "FLEX-001: Diverse and Flexible Coping";
         "EPP-002: Site Area Emergency Declaration" ] |}.

(** The manager's [scenarios] field. *)
Definition table : list ReactorScenario :=
  [ refueling_outage; steam_line_break; station_blackout ].

End Scenario.

(** ** The server process: event loop, observers, routes

    The process is single-threaded.  Between two [await]s a function runs
    without interruption; at an [await] of a storage call it is parked as a
    task, the pair of the pending call and of the continuation that takes
    its result.  A label of the scheduler is one turn of the event loop. *)

Module Server.
Import Generator Scenario.

(** *** Messages to observers and HTTP responses *)

Inductive Message :=
| initial_data (sensorData : list SensorData) (alerts : list Alert)
    (recommendations : list AiRecommendation) (logs : list SystemLog)
    (serverConnections : list ServerConnection)
| sensor_update (data : SensorData)
| ai_recommendation (data : AiRecommendation)
| system_log (data : SystemLog).

Definition is_initial_data (m : Message) : bool :=
  match m with
  | initial_data _ _ _ _ _ => true
  | _ => false
  end.

(** A [WebSocket]: [ws_open] is [readyState === WebSocket.OPEN], and
    [ws_received] the messages sent to it, oldest first. *)
Record Socket := { ws_open : bool; ws_received : list Message }.

Inductive Body :=
| success                                (* {success: true} *)
| success_message (message : string)     (* {success: true, message} *)
| error (error : string).                (* {error} *)

Record Response := { res_status : Z; res_body : Body }.

(** *** Storage calls and what they resolve to *)

Inductive Call :=
| createSensorData (data : InsertSensorData)
| getLatestSensorData
| createAlert (alert : InsertAlert)
| getActiveAlerts
| deactivateAlert (id : Z)
| createAiRecommendation (recommendation : InsertAiRecommendation)
| getRecentAiRecommendations (limit : nat)
| createSystemLog (log : InsertSystemLog)
| getRecentSystemLogs (limit : nat)
| getAllServerConnections.

Inductive Reply :=
| sensorDataRow (row : SensorData)
| sensorDataRows (rows : list SensorData)
| alertRow (row : Alert)
| alertRows (rows : list Alert)
| recommendationRow (row : AiRecommendation)
| recommendationRows (rows : list AiRecommendation)
| logRow (row : SystemLog)
| logRows (rows : list SystemLog)
| connectionRows (rows : list ServerConnection)
| void.

Definition perform (now : Z) (c : Call) (d : Db) : Reply * Db :=
  match c with
  | createSensorData data =>
      let (row, d') := Storage.createSensorData now data d in (sensorDataRow row, d')
  | getLatestSensorData => (sensorDataRows (Storage.getLatestSensorData d), d)
  | createAlert alert =>
      let (row, d') := Storage.createAlert now alert d in (alertRow row, d')
  | getActiveAlerts => (alertRows (Storage.getActiveAlerts d), d)
  | deactivateAlert id => (void, Storage.deactivateAlert id d)
  | createAiRecommendation r =>
      let (row, d') := Storage.createAiRecommendation now r d in
      (recommendationRow row, d')
  | getRecentAiRecommendations limit =>
      (recommendationRows (Storage.getRecentAiRecommendations limit d), d)
  | createSystemLog l =>
      let (row, d') := Storage.createSystemLog now l d in (logRow row, d')
  | getRecentSystemLogs limit =>
      (logRows (Storage.getRecentSystemLogs limit d), d)
  | getAllServerConnections =>
      (connectionRows (Storage.getAllServerConnections d), d)
  end.

(** *** Continuations: the program point after each [await] *)

Inductive Kont :=
(* sendLatestData(ws) *)
| send_sensorData (ws : nat)
| send_alerts (ws : nat) (sensorData : list SensorData)
| send_recommendations (ws : nat) (sensorData : list SensorData)
    (alerts : list Alert)
| send_logs (ws : nat) (sensorData : list SensorData) (alerts : list Alert)
    (recommendations : list AiRecommendation)
| send_serverConnections (ws : nat) (sensorData : list SensorData)
    (alerts : list Alert) (recommendations : list AiRecommendation)
    (logs : list SystemLog)
(* the callback of generateSensorData *)
| gen_created (config : SensorConfig) (status : Status)
| gen_checked (config : SensorConfig) (status : Status) (sensorData : SensorData)
| gen_alerted (sensorData : SensorData)
(* performAiAnalysis and createSystemLog *)
| ai_created (analysis : Insight.AnalysisPattern)
| log_created
(* app.delete('/api/alerts/:id') *)
| alert_deactivated
(* startScenario, called by its route *)
| start_logged (scenario : ReactorScenario)
| start_alerted (scenario : ReactorScenario)
(* stopScenario; [awaited] when called by its route *)
| stop_logged (awaited : bool)
(* executeCurrentPhase *)
| exec_logged (phase : ScenarioPhase)
| exec_modified (phase : ScenarioPhase) (rest : list SensorModification)
| exec_alerted (phase : ScenarioPhase) (rest : list AlertCondition)
| exec_recommended (phase : ScenarioPhase)
(* completeScenario *)
| complete_logged
| complete_alerted.

Definition Task : Type := Call * Kont.

(** *** The state of the process *)

Record World := {
  db : Db;
  sockets : list Socket;       (* every connection so far, by number *)
  clients : list nat;          (* the [Set<WebSocket>] of [registerRoutes] *)
  tasks : list Task;           (* functions parked at an [await] *)
  mgr : Manager;               (* the [scenarioManager] singleton *)
  timers : list (nat * Z);     (* pending [setTimeout]s: handle, delay *)
  timer_seq : nat;
  responses : list Response;   (* HTTP responses sent, oldest first *)
  faults : list string         (* errors nobody catches, oldest first *)
}.

Definition initial (now : Z) : World :=
  {| db := Database.empty now; sockets := []; clients := []; tasks := [];
     mgr := manager Scenario.table; timers := []; timer_seq := 0%nat;
     responses := []; faults := [] |}.

Definition set_db (d : Db) (w : World) : World :=
  {| db := d; sockets := sockets w; clients := clients w; tasks := tasks w;
     mgr := mgr w; timers := timers w; timer_seq := timer_seq w;
     responses := responses w; faults := faults w |}.

Definition set_sockets (s : list Socket) (c : list nat) (w : World) : World :=
  {| db := db w; sockets := s; clients := c; tasks := tasks w;
     mgr := mgr w; timers := timers w; timer_seq := timer_seq w;
     responses := responses w; faults := faults w |}.

Definition set_tasks (t : list Task) (w : World) : World :=
  {| db := db w; sockets := sockets w; clients := clients w; tasks := t;
     mgr := mgr w; timers := timers w; timer_seq := timer_seq w;
     responses := responses w; faults := faults w |}.

Definition set_mgr (m : Manager) (w : World) : World :=
  {| db := db w; sockets := sockets w; clients := clients w; tasks := tasks w;
     mgr := m; timers := timers w; timer_seq := timer_seq w;
     responses := responses w; faults := faults w |}.

Definition set_timers (t : list (nat * Z)) (n : nat) (w : World) : World :=
  {| db := db w; sockets := sockets w; clients := clients w; tasks := tasks w;
     mgr := mgr w; timers := t; timer_seq := n;
     responses := responses w; faults := faults w |}.

Definition respond (status : Z) (body : Body) (w : World) : World :=
  {| db := db w; sockets := sockets w; clients := clients w; tasks := tasks w;
     mgr := mgr w; timers := timers w; timer_seq := timer_seq w;
     responses := responses w ++ [{| res_status := status; res_body := body |}];
     faults := faults w |}.

Definition fault (what : string) (w : World) : World :=
  {| db := db w; sockets := sockets w; clients := clients w; tasks := tasks w;
     mgr := mgr w; timers := timers w; timer_seq := timer_seq w;
     responses := responses w; faults := faults w ++ [what] |}.

(** Park a function at the [await] of call [c]. *)
Definition await (c : Call) (k : Kont) (w : World) : World :=
  set_tasks (tasks w ++ [(c, k)]) w.

(** *** Observers *)

Fixpoint update_nth {A} (n : nat) (f : A -> A) (l : list A) : list A :=
  match l, n with
  | [], _ => []
  | x :: l', O => f x :: l'
  | x :: l', S n' => x :: update_nth n' f l'
  end.

(** [ws.send(JSON.stringify(m))] guarded by [readyState === OPEN]. *)
Definition send_if_open (m : Message) (s : Socket) : Socket :=
  if ws_open s
  then {| ws_open := true; ws_received := ws_received s ++ [m] |}
  else s.

(** [broadcast(data)]: to every member of [clients] that is open. *)
Definition broadcast (m : Message) (w : World) : World :=
  set_sockets
    (fold_left (fun s ws => update_nth ws (send_if_open m) s) (clients w) (sockets w))
    (clients w) w.

(** [wss.on('connection')]: the socket joins [clients], then
    [sendLatestData(ws)] starts and parks at its first read. *)
Definition connection (w : World) : World :=
  let ws := List.length (sockets w) in
  let w := set_sockets (sockets w ++ [{| ws_open := true; ws_received := [] |}])
                       (clients w ++ [ws]) w in
  await getLatestSensorData (send_sensorData ws) w.

(** The socket closes; its ['close'] handler leaves [clients]. *)
Definition close (ws : nat) (w : World) : option World :=
  match nth_error (sockets w) ws with
  | Some s =>
      if ws_open s
      then Some (set_sockets
                   (update_nth ws (fun s => {| ws_open := false;
                                               ws_received := ws_received s |})
                               (sockets w))
                   (filter (fun c => negb (Nat.eqb c ws)) (clients w)) w)
      else None
  | None => None
  end.

(** *** The scenario manager *)

Definition reset (m : Manager) : Manager :=
  {| scenarios := scenarios m; activeScenario := None; currentPhase := 0%nat;
     scenarioStartTime := None; phaseTimer := phaseTimer m |}.

(** [stopScenario] up to its [await]: the timer is cleared and the log
    row is on its way; the fields are reset after the [await]. *)
Definition stopScenario (awaited : bool) (w : World) : World :=
  match activeScenario (mgr w) with
  | None => if awaited then respond 200 (success_message "Scenario stopped") w else w
  | Some active =>
      let w :=
        match phaseTimer (mgr w) with
        | Some t =>
            set_mgr {| scenarios := scenarios (mgr w);
                       activeScenario := activeScenario (mgr w);
                       currentPhase := currentPhase (mgr w);
                       scenarioStartTime := scenarioStartTime (mgr w);
                       phaseTimer := None |}
              (set_timers (filter (fun x => negb (Nat.eqb (fst x) t)) (timers w))
                          (timer_seq w) w)
        | None => w
        end in
      await (createSystemLog (stoppedLog active (currentPhase (mgr w))))
            (stop_logged awaited) w
  end.

(** [completeScenario] up to its first [await]. *)
Definition completeScenario (w : World) : World :=
  match activeScenario (mgr w) with
  | None => w
  | Some active => await (createSystemLog (completedLog active)) complete_logged w
  end.

(** [executeCurrentPhase] up to its first [await]. *)
Definition executeCurrentPhase (w : World) : World :=
  match activeScenario (mgr w) with
  | None => completeScenario w
  | Some active =>
      match nth_error (sc_phases active) (currentPhase (mgr w)) with
      | None => completeScenario w
      | Some phase =>
          await (createSystemLog (phaseLog (currentPhase (mgr w)) phase))
                (exec_logged phase) w
      end
  end.

(** The rest of [executeCurrentPhase], loop by loop.  The title of the
    recommendation reads [this.activeScenario.name] when the call is
    made: a [TypeError] if the field is [null] by then. *)
Definition exec_recommend (phase : ScenarioPhase) (w : World) : World :=
  match activeScenario (mgr w) with
  | Some active =>
      await (createAiRecommendation
               (phaseRecommendation active (currentPhase (mgr w)) phase))
            (exec_recommended phase) w
  | None => fault "TypeError: executeCurrentPhase reads name of null" w
  end.

Definition exec_alerts (phase : ScenarioPhase) (rest : list AlertCondition)
    (w : World) : World :=
  match rest with
  | alert :: rest' => await (createAlert (phaseAlert alert)) (exec_alerted phase rest') w
  | [] => exec_recommend phase w
  end.

Definition exec_modifications (phase : ScenarioPhase)
    (rest : list SensorModification) (w : World) : World :=
  match rest with
  | m :: rest' => await (createSystemLog (modificationLog m)) (exec_modified phase rest') w
  | [] => exec_alerts phase (ph_alertConditions phase) w
  end.

(** [this.phaseTimer = setTimeout(..., phase.duration * 1000)]. *)
Definition setPhaseTimer (phase : ScenarioPhase) (w : World) : World :=
  let t := timer_seq w in
  set_mgr {| scenarios := scenarios (mgr w);
             activeScenario := activeScenario (mgr w);
             currentPhase := currentPhase (mgr w);
             scenarioStartTime := scenarioStartTime (mgr w);
             phaseTimer := Some t |}
    (set_timers (timers w ++ [(t, ph_duration phase * 1000)]) (S t) w).

(** The callback of the phase timer. *)
Definition phaseTimerFires (w : World) : World :=
  executeCurrentPhase
    (set_mgr {| scenarios := scenarios (mgr w);
                activeScenario := activeScenario (mgr w);
                currentPhase := S (currentPhase (mgr w));
                scenarioStartTime := scenarioStartTime (mgr w);
                phaseTimer := phaseTimer (mgr w) |} w).

(** [startScenario] up to its first [await]; [stopScenario()] is called
    without [await], so only its first segment runs here. *)
Definition startScenario (scenarioId : string) (now : Z) (w : World) : World :=
  match find (fun s => String.eqb (sc_id s) scenarioId) (scenarios (mgr w)) with
  | None => respond 404 (error "Scenario not found") w
  | Some scenario =>
      let w := match activeScenario (mgr w) with
               | Some _ => stopScenario false w
               | None => w
               end in
      let w := set_mgr {| scenarios := scenarios (mgr w);
                          activeScenario := Some scenario;
                          currentPhase := 0%nat;
                          scenarioStartTime := Some now;
                          phaseTimer := phaseTimer (mgr w) |} w in
      await (createSystemLog (startedLog scenario)) (start_logged scenario) w
  end.

(** *** Resuming a task *)

(** The awaited call resolved with [r]. *)
Definition resolve (k : Kont) (r : Reply) (w : World) : World :=
  match k, r with
  | send_sensorData ws, sensorDataRows sd => await getActiveAlerts (send_alerts ws sd) w
  | send_alerts ws sd, alertRows al =>
      await (getRecentAiRecommendations 3) (send_recommendations ws sd al) w
  | send_recommendations ws sd al, recommendationRows rc =>
      await (getRecentSystemLogs 5) (send_logs ws sd al rc) w
  | send_logs ws sd al rc, logRows lg =>
      await getAllServerConnections (send_serverConnections ws sd al rc lg) w
  | send_serverConnections ws sd al rc lg, connectionRows cn =>
      set_sockets (update_nth ws (send_if_open (initial_data sd al rc lg cn)) (sockets w))
                  (clients w) w
  | gen_created config status, sensorDataRow sensorData =>
      if breached status
      then await getActiveAlerts (gen_checked config status sensorData) w
      else broadcast (sensor_update sensorData) w
  | gen_checked config status sensorData, alertRows existingAlerts =>
      if hasActiveAlert existingAlerts (cfg_nodeId config)
      then broadcast (sensor_update sensorData) w
      else await (createAlert (newAlert config status)) (gen_alerted sensorData) w
  | gen_alerted sensorData, alertRow _ => broadcast (sensor_update sensorData) w
  | ai_created analysis, recommendationRow recommendation =>
      await (createSystemLog
               (log "info" ("AI analysis completed: " ++ Insight.title analysis)
                    "ai-system"))
            log_created
            (broadcast (ai_recommendation recommendation) w)
  | log_created, logRow l => broadcast (system_log l) w
  | alert_deactivated, void => respond 200 success w
  | start_logged scenario, logRow _ =>
      await (createAlert (startedAlert scenario)) (start_alerted scenario) w
  | start_alerted scenario, alertRow _ =>
      respond 200 (success_message "Scenario started successfully")
              (executeCurrentPhase w)
  | stop_logged awaited, logRow _ =>
      let w := set_mgr (reset (mgr w)) w in
      if awaited then respond 200 (success_message "Scenario stopped") w else w
  | exec_logged phase, logRow _ =>
      exec_modifications phase (ph_sensorModifications phase) w
  | exec_modified phase rest, logRow _ => exec_modifications phase rest w
  | exec_alerted phase rest, alertRow _ => exec_alerts phase rest w
  | exec_recommended phase, recommendationRow _ => setPhaseTimer phase w
  | complete_logged, logRow _ =>
      match activeScenario (mgr w) with
      | Some active => await (createAlert (completedAlert active)) complete_alerted w
      | None => fault "TypeError: completeScenario reads name of null" w
      end
  | complete_alerted, alertRow _ => set_mgr (reset (mgr w)) w
  | _, _ => w
  end.

(** The awaited call rejected: the nearest [catch], if there is one. *)
Definition reject (k : Kont) (w : World) : World :=
  match k with
  | send_sensorData _ | send_alerts _ _ | send_recommendations _ _ _
  | send_logs _ _ _ _ | send_serverConnections _ _ _ _ _ => w
  | gen_created _ _ | gen_checked _ _ _ | gen_alerted _ => w
  | ai_created _ => w
  | log_created => fault "unhandled rejection: createSystemLog" w
  | alert_deactivated => respond 500 (error "Failed to deactivate alert") w
  | start_logged _ | start_alerted _ => respond 500 (error "Failed to start scenario") w
  | stop_logged true => respond 500 (error "Failed to stop scenario") w
  | stop_logged false => fault "unhandled rejection: stopScenario" w
  | exec_logged _ | exec_modified _ _ | exec_alerted _ _ | exec_recommended _ =>
      fault "unhandled rejection: executeCurrentPhase" w
  | complete_logged | complete_alerted =>
      fault "unhandled rejection: completeScenario" w
  end.

Inductive Outcome := Resolved | Rejected.

Fixpoint remove_nth {A} (n : nat) (l : list A) : list A :=
  match l, n with
  | [], _ => []
  | _ :: l', O => l'
  | x :: l', S n' => x :: remove_nth n' l'
  end.

(** *** One turn of the event loop *)

Inductive Label :=
| Connection                                   (* an observer connects *)
| Close (ws : nat)                             (* an observer goes away *)
| GenerateSensorData (random : nat -> float)   (* the 2 s interval: the value
                                                  of [Math.random()] for the
                                                  i-th configuration *)
| PerformAiAnalysis (r1 r2 r3 : float)         (* the 30 s interval *)
| DeleteAlert (id : Z)                         (* DELETE /api/alerts/:id, with
                                                  [parseInt] of the parameter *)
| StartScenario (id : string) (now : Z)        (* POST /api/scenarios/:id/start *)
| StopScenario                                 (* POST /api/scenarios/stop *)
| TimerFires (t : nat)                         (* a pending [setTimeout] *)
| Settle (task : nat) (now : Z) (o : Outcome). (* the call task [task] awaits
                                                  settles, at time [now] *)

(** [SENSOR_CONFIGS.forEach(async (config) => ...)]: each callback runs
    to its first [await]. *)
Fixpoint spawn_generators (random : nat -> float) (i : nat)
    (configs : list SensorConfig) (w : World) : World :=
  match configs with
  | [] => w
  | config :: rest =>
      let data := reading config (random i) in
      spawn_generators random (S i) rest
        (await (createSensorData data) (gen_created config (isd_status data)) w)
  end.

Definition step (l : Label) (w : World) : option World :=
  match l with
  | Connection => Some (connection w)
  | Close ws => close ws w
  | GenerateSensorData random => Some (spawn_generators random 0 SENSOR_CONFIGS w)
  | PerformAiAnalysis r1 r2 r3 =>
      match Insight.performAiAnalysis r1 r2 r3 with
      | Some (analysis, recommendation) =>
          Some (await (createAiRecommendation recommendation) (ai_created analysis) w)
      | None => Some w
      end
  | DeleteAlert id => Some (await (deactivateAlert id) alert_deactivated w)
  | StartScenario id now => Some (startScenario id now w)
  | StopScenario => Some (stopScenario true w)
  | TimerFires t =>
      if existsb (fun x => Nat.eqb (fst x) t) (timers w)
      then Some (phaseTimerFires
                   (set_timers (filter (fun x => negb (Nat.eqb (fst x) t)) (timers w))
                               (timer_seq w) w))
      else None
  | Settle i now o =>
      match nth_error (tasks w) i with
      | Some (c, k) =>
          let w := set_tasks (remove_nth i (tasks w)) w in
          match o with
          | Resolved =>
              let (r, d) := perform now c (db w) in Some (resolve k r (set_db d w))
          | Rejected => Some (reject k w)
          end
      | None => None
      end
  end.

Fixpoint run (ls : list Label) (w : World) : option World :=
  match ls with
  | [] => Some w
  | l :: ls' =>
      match step l w with
      | Some w' => run ls' w'
      | None => None
      end
  end.

End Server.

(** ** server/ai-engine.ts: [NuclearAIEngine] *)

Module Engine.

(** The [Map<string, SensorData[]>] of [groupSensorData], in insertion
    order of its keys. *)
Definition Groups := list (string * list SensorData).

(** [grouped.has(k)]. *)
Fixpoint has (grouped : Groups) (k : string) : bool :=
  match grouped with
  | [] => false
  | (k', _) :: g => String.eqb k' k || has g k
  end.

(** [grouped.get(k)]. *)
Fixpoint get (grouped : Groups) (k : string) : option (list SensorData) :=
  match grouped with
  | [] => None
  | (k', v) :: g => if String.eqb k' k then Some v else get g k
  end.

(** [grouped.set(k, v)]: an existing key keeps its place. *)
Fixpoint set (grouped : Groups) (k : string) (v : list SensorData) : Groups :=
  match grouped with
  | [] => [(k, v)]
  | (k', v') :: g => if String.eqb k' k then (k', v) :: g else (k', v') :: set g k v
  end.

(** [grouped.get(k)!.push(reading)]: the array stored under [k] grows in
    place; [None] is the [TypeError] of calling [push] on [undefined]. *)
Fixpoint push (grouped : Groups) (k : string) (reading : SensorData) : option Groups :=
  match grouped with
  | [] => None
  | (k', v) :: g =>
      if String.eqb k' k then Some ((k', (v ++ [reading])%list) :: g)
      else option_map (cons (k', v)) (push g k reading)
  end.

(** One turn of the [forEach] callback. *)
Definition group_step (grouped : Groups) (reading : SensorData) : option Groups :=
  let grouped :=
    if negb (has grouped (sd_nodeId reading))
    then set grouped (sd_nodeId reading) []
    else grouped in
  push grouped (sd_nodeId reading) reading.

Definition groupSensorData (data : list SensorData) : option Groups :=
  fold_left (fun acc reading =>
               match acc with
               | Some grouped => group_step grouped reading
               | None => None
               end)
            data (Some []).

(** [Math.max(a, b)]: NaN as soon as one argument is; [+0] is larger
    than [-0]. *)
Definition Math_max (a b : float) : float :=
  if PrimFloat.is_nan a || PrimFloat.is_nan b then PrimFloat.nan
  else match PrimFloat.classify a, PrimFloat.classify b with
       | NZero, PZero => b
       | _, _ => if PrimFloat.ltb a b then b else a
       end.

(** [Math.min(a, b)]: NaN as soon as one argument is; [-0] is smaller
    than [+0]. *)
Definition Math_min (a b : float) : float :=
  if PrimFloat.is_nan a || PrimFloat.is_nan b then PrimFloat.nan
  else match PrimFloat.classify a, PrimFloat.classify b with
       | PZero, NZero => b
       | _, _ => if PrimFloat.ltb b a then b else a
       end.

(** The score [getAIAnalysis] keeps of the number [x] the model answered:
    [Math.max(0, Math.min(100, x))]. *)
Definition clampScore (x : float) : float := Math_max 0 (Math_min 100 x).

(** [updatePatterns], for one sensor with a pattern: the new anomaly score
    from the pattern's baseline and score and the latest reading. *)
Definition updateAnomalyScore (baseline anomalyScore latestValue : float) : float :=
  let deviation := (PrimFloat.abs (latestValue - baseline) / baseline)%float in
  if JS.gt deviation 0.1
  then Math_min 100 (anomalyScore + deviation * 20)%float
  else Math_max 0 (anomalyScore - 1)%float.

End Engine.

(** ** server/routes.ts: the periodic health check *)

Module Routes.
Import Scenario Server.

Definition healthMessages : list InsertSystemLog :=
  [ log "info" "Periodic safety system surveillance completed - All systems nominal"
        "safety-system";
    log "info" "Primary coolant chemistry within specifications" "chemistry";
    log "info" "Containment integrity verified - No abnormal conditions" "containment";
    log "info" "Emergency diesel generators - Weekly test completed successfully"
        "emergency-power";
    log "info" "Fire protection system - All zones monitored and operational"
        "fire-protection" ].

(** [healthMessages[Math.floor(Math.random() * healthMessages.length)]]. *)
Definition pickHealth (random : float) : option InsertSystemLog :=
  match JS.floorZ (random * JS.of_Z (Z.of_nat (List.length healthMessages)))%float with
  | Some i => if i <? 0 then None else nth_error healthMessages (Z.to_nat i)
  | None => None
  end.

(** The callback of the 30 s health interval, up to the storage call of
    [createSystemLog]; [None] is the [TypeError] of reading [level] of
    [undefined].  [r1] and [r2] are the values of [Math.random()]. *)
Definition healthCheck (r1 r2 : float) (w : World) : option World :=
  if PrimFloat.ltb r1 0.15%float then
    match pickHealth r2 with
    | Some healthMsg =>
        Some (await (createSystemLog
                       (log (ilog_level healthMsg) (ilog_message healthMsg)
                            (ilog_source healthMsg)))
                    log_created w)
    | None => None
    end
  else Some w.

End Routes.

(** * Properties *)

(** ** Bounds on binary64 arithmetic *)

Definition fexp64 : Z -> Z := SpecFloat.fexp prec emax.

Lemma fexp64_eq (e : Z) : fexp64 e = Z.max (e - 53) (-1074).
Proof. reflexivity. Qed.

Lemma fexp64_mono (a b : Z) : a <= b -> fexp64 a <= fexp64 b.
Proof. rewrite !fexp64_eq. lia. Qed.

Lemma digits2_pos_size (p : positive) : digits2_pos p = Pos.size p.
Proof. induction p; cbn; congruence. Qed.

Lemma Zdigits2_log2 (m : Z) : 0 < m -> Zdigits2 m = Z.log2 m + 1.
Proof.
  destruct m as [|p|p]; try lia. intros _. cbn [Zdigits2].
  rewrite digits2_pos_size. destruct p; cbn; lia.
Qed.

Lemma Zdigits2_bounds (m : Z) :
  0 < m -> 2 ^ (Zdigits2 m - 1) <= m < 2 ^ Zdigits2 m.
Proof.
  intros Hm. rewrite (Zdigits2_log2 m Hm).
  replace (Z.log2 m + 1 - 1) with (Z.log2 m) by lia.
  replace (Z.log2 m + 1) with (Z.succ (Z.log2 m)) by lia.
  now apply Z.log2_spec.
Qed.

Lemma Zdigits2_nonneg (m : Z) : 0 <= m -> 0 <= Zdigits2 m.
Proof. destruct m; cbn; lia. Qed.

Lemma Zdigits2_pos (m : Z) : 0 < m -> 0 < Zdigits2 m.
Proof. destruct m; cbn; lia. Qed.

Lemma Zdigits2_unique (m k : Z) : 2 ^ (k - 1) <= m < 2 ^ k -> 0 < k -> Zdigits2 m = k.
Proof.
  intros H Hk. assert (0 < m) by (pose proof (Z.pow_pos_nonneg 2 (k - 1)); lia).
  rewrite Zdigits2_log2 by assumption.
  rewrite (Z.log2_unique m (k - 1)); [lia|lia|].
  now replace (Z.succ (k - 1)) with k by lia.
Qed.

(** A lower bound of the digits from a lower bound of the number. *)
Lemma Zdigits2_ge (m k : Z) : 0 <= k -> 2 ^ k <= m -> k + 1 <= Zdigits2 m.
Proof.
  intros Hk H. assert (0 < m) by (pose proof (Z.pow_pos_nonneg 2 k); lia).
  destruct (Zdigits2_bounds m) as [_ Hu]; [assumption|].
  destruct (Z.le_gt_cases (k + 1) (Zdigits2 m)) as [|Hlt]; [assumption|].
  exfalso. assert (2 ^ Zdigits2 m <= 2 ^ k).
  { apply Z.pow_le_mono_r; lia. }
  lia.
Qed.

Lemma Zdigits2_le (m k : Z) : 0 <= k -> 0 <= m < 2 ^ k -> Zdigits2 m <= k.
Proof.
  intros Hk [H0 H]. destruct (Z.eq_dec m 0) as [->|Hne]; [cbn; lia|].
  destruct (Zdigits2_bounds m) as [Hl _]; [lia|].
  destruct (Z.le_gt_cases (Zdigits2 m) k) as [|Hlt]; [assumption|].
  exfalso. assert (2 ^ k <= 2 ^ (Zdigits2 m - 1)).
  { apply Z.pow_le_mono_r; lia. }
  lia.
Qed.

(** *** Shifting right *)

Lemma iter_shift {A} (f : A -> A) (n : nat) (x : A) :
  Nat.iter n f (f x) = f (Nat.iter n f x).
Proof.
  induction n as [|n IH]; [reflexivity|].
  change (f (Nat.iter n f (f x)) = f (f (Nat.iter n f x))). now rewrite IH.
Qed.

Lemma iter_pos_nat {A} (f : A -> A) (p : positive) (x : A) :
  iter_pos f p x = Nat.iter (Pos.to_nat p) f x.
Proof.
  revert x. induction p as [p IH|p IH|]; intros x; cbn [iter_pos].
  - rewrite !IH, Pos2Nat.inj_xI.
    replace (S (2 * Pos.to_nat p)) with (S (Pos.to_nat p + Pos.to_nat p)) by lia.
    change (Nat.iter (S (Pos.to_nat p + Pos.to_nat p)) f x)
      with (f (Nat.iter (Pos.to_nat p + Pos.to_nat p) f x)).
    now rewrite Nat.iter_add, !iter_shift.
  - rewrite !IH, Pos2Nat.inj_xO.
    replace (2 * Pos.to_nat p)%nat with (Pos.to_nat p + Pos.to_nat p)%nat by lia.
    now rewrite Nat.iter_add.
  - reflexivity.
Qed.

Definition inexact (mrs : shr_record) : bool := shr_r mrs || shr_s mrs.

Lemma shr_1_m (mrs : shr_record) :
  0 <= shr_m mrs -> shr_m (shr_1 mrs) = shr_m mrs / 2.
Proof.
  destruct mrs as [m r s]. cbn [shr_m]. intros Hm.
  destruct m as [|[p|p|]|p]; try lia; cbn [shr_1 shr_m].
  - reflexivity.
  - rewrite Pos2Z.inj_xI. apply Z.div_unique with 1; lia.
  - rewrite Pos2Z.inj_xO. apply Z.div_unique with 0; lia.
  - reflexivity.
Qed.

Lemma shr_1_exact (mrs : shr_record) :
  0 <= shr_m mrs -> inexact mrs = false -> Z.even (shr_m mrs) = true ->
  inexact (shr_1 mrs) = false.
Proof.
  destruct mrs as [m r s]. unfold inexact. cbn [shr_m shr_r shr_s]. intros Hm Hi He.
  destruct m as [|[p|p|]|p]; try lia; try discriminate He; cbn; now rewrite Hi.
Qed.

Lemma shr_iter (n : nat) (mrs : shr_record) :
  0 <= shr_m mrs ->
  shr_m (Nat.iter n shr_1 mrs) = shr_m mrs / 2 ^ Z.of_nat n
  /\ (inexact mrs = false -> shr_m mrs mod 2 ^ Z.of_nat n = 0 ->
      inexact (Nat.iter n shr_1 mrs) = false).
Proof.
  intros Hm. induction n as [|n [IHm IHe]].
  - cbn. split; [now rewrite Z.div_1_r|trivial].
  - assert (Hpos : 0 < 2 ^ Z.of_nat n) by (apply Z.pow_pos_nonneg; lia).
    assert (H0 : 0 <= shr_m (Nat.iter n shr_1 mrs)).
    { rewrite IHm. apply Z.div_pos; lia. }
    rewrite Nat2Z.inj_succ, Z.pow_succ_r by lia.
    change (Nat.iter (S n) shr_1 mrs) with (shr_1 (Nat.iter n shr_1 mrs)). split.
    + rewrite shr_1_m, IHm by assumption.
      rewrite Z.div_div by lia. f_equal. lia.
    + intros Hi Hmod.
      assert (Hd : shr_m mrs = 2 ^ Z.of_nat n * (2 * (shr_m mrs / (2 * 2 ^ Z.of_nat n)))).
      { pose proof (Z.div_mod (shr_m mrs) (2 * 2 ^ Z.of_nat n)). lia. }
      apply shr_1_exact; [assumption| |].
      * apply IHe; [assumption|]. rewrite Hd, Z.mul_comm. apply Z.mod_mul. lia.
      * rewrite IHm. rewrite Hd at 1.
        rewrite Z.mul_comm, Z.div_mul by lia. now rewrite Z.even_mul.
Qed.

Lemma shr_record_of_loc_m (m : Z) (l : location) : shr_m (shr_record_of_loc m l) = m.
Proof. destruct l as [|[| |]]; reflexivity. Qed.

Lemma loc_of_shr_record_of_loc (m : Z) (l : location) :
  loc_of_shr_record (shr_record_of_loc m l) = l.
Proof. destruct l as [|[| |]]; reflexivity. Qed.

Lemma loc_exact_inexact (mrs : shr_record) :
  inexact mrs = false -> loc_of_shr_record mrs = loc_Exact.
Proof. destruct mrs as [m [|] [|]]; cbn; congruence. Qed.

(** [shr] by [n] places: the mantissa is divided by [2^n], rounding down;
    if nothing is lost the location stays exact. *)
Lemma shr_spec (M E n : Z) (l : location) :
  0 <= M ->
  exists mrs,
    shr (shr_record_of_loc M l) E n = (mrs, E + Z.max 0 n)
    /\ shr_m mrs = M / 2 ^ Z.max 0 n
    /\ (l = loc_Exact -> M mod 2 ^ Z.max 0 n = 0 -> loc_of_shr_record mrs = loc_Exact)
    /\ (n <= 0 -> loc_of_shr_record mrs = l).
Proof.
  intros HM. destruct n as [|p|p]; cbn [shr Z.max Z.compare].
  - exists (shr_record_of_loc M l). rewrite Z.add_0_r, Z.div_1_r, shr_record_of_loc_m.
    repeat split. + intros. subst. reflexivity. + intros. apply loc_of_shr_record_of_loc.
  - replace (Z.max 0 (Z.pos p)) with (Z.pos p) by lia.
    exists (iter_pos shr_1 p (shr_record_of_loc M l)). rewrite iter_pos_nat.
    destruct (shr_iter (Pos.to_nat p) (shr_record_of_loc M l)) as [Hm He];
      [rewrite shr_record_of_loc_m; lia|].
    rewrite positive_nat_Z, shr_record_of_loc_m in *.
    repeat split; [exact Hm| |intros Hn; exfalso; lia].
    intros -> Hmod. apply loc_exact_inexact. now apply He.
  - replace (Z.max 0 (Z.neg p)) with 0 by lia.
    exists (shr_record_of_loc M l). rewrite Z.add_0_r, Z.div_1_r, shr_record_of_loc_m.
    repeat split. + intros. subst. reflexivity. + intros. apply loc_of_shr_record_of_loc.
Qed.

Lemma round_nearest_even_bounds (m : Z) (l : location) :
  m <= round_nearest_even m l <= m + 1
  /\ (l = loc_Exact -> round_nearest_even m l = m).
Proof.
  destruct l as [|[| |]]; cbn; try (split; [lia|congruence]).
  destruct (Z.even m); split; try lia; congruence.
Qed.

(** *** Values *)

(** The value [m * 2^e], scaled by [2^3000] so as to be an integer for every
    exponent that binary64 arithmetic meets. *)
Definition V (m e : Z) : Z := m * 2 ^ (e + 3000).

Lemma V_shift (m e n : Z) : 0 <= n -> -3000 <= e -> V (m * 2 ^ n) e = V m (e + n).
Proof.
  intros Hn He. unfold V. replace (e + n + 3000) with (n + (e + 3000)) by lia.
  rewrite (Z.pow_add_r 2 n (e + 3000)) by lia. ring.
Qed.

Lemma V_pos (m e : Z) : 0 < m -> -3000 <= e -> 0 < V m e.
Proof. intros. unfold V. apply Z.mul_pos_pos; [lia|apply Z.pow_pos_nonneg; lia]. Qed.

Lemma V_le (m m' e : Z) : -3000 <= e -> V m e <= V m' e <-> m <= m'.
Proof.
  intros He. unfold V. assert (0 < 2 ^ (e + 3000)) by (apply Z.pow_pos_nonneg; lia).
  split; intros; nia.
Qed.

Lemma V_lt (m m' e : Z) : -3000 <= e -> V m e < V m' e <-> m < m'.
Proof.
  intros He. unfold V. assert (0 < 2 ^ (e + 3000)) by (apply Z.pow_pos_nonneg; lia).
  split; intros; nia.
Qed.

Lemma pow2_lt_inv (a b : Z) : 0 <= b -> 2 ^ a < 2 ^ b -> a < b.
Proof. intros Hb H. apply (Z.pow_lt_mono_r_iff 2); lia. Qed.

Lemma bounded_spec (m : positive) (e : Z) :
  bounded prec emax m e = true
  <-> fexp64 (Zdigits2 (Z.pos m) + e) = e /\ e <= 971.
Proof.
  unfold bounded, canonical_mantissa. rewrite andb_true_iff, Z.eqb_eq, Z.leb_le.
  reflexivity.
Qed.

(** A canonical mantissa has at most 53 digits and an exponent of at least
    -1074. *)
Lemma bounded_range (m : positive) (e : Z) :
  bounded prec emax m e = true ->
  -1074 <= e <= 971 /\ Zdigits2 (Z.pos m) <= 53 /\ Z.pos m < 2 ^ 53
  /\ (-1074 < e -> Zdigits2 (Z.pos m) = 53 /\ 2 ^ 52 <= Z.pos m).
Proof.
  intros [Hc He]%bounded_spec. rewrite fexp64_eq in Hc.
  pose proof (Zdigits2_bounds (Z.pos m) eq_refl) as [Hl Hu].
  set (d := Zdigits2 (Z.pos m)) in *.
  assert (Hd : d <= 53) by lia.
  split; [lia|]. split; [exact Hd|]. split.
  - eapply Z.lt_le_trans; [exact Hu|]. apply Z.pow_le_mono_r; lia.
  - intros Hn. assert (E : d = 53) by lia. split; [exact E|].
    rewrite E in Hl. exact Hl.
Qed.

(** *** Rounding never passes a representable bound *)

(** [x] is zero or finite of sign [sx], canonical, of magnitude at most [c]. *)
Definition at_most (sx : bool) (c : Z) (x : spec_float) : Prop :=
  x = S754_zero sx
  \/ exists m e, x = S754_finite sx m e /\ bounded prec emax m e = true
                 /\ V (Z.pos m) e <= c.

Lemma V_mono_e (m e e' : Z) : 0 <= m -> -3000 <= e -> e <= e' -> V m e <= V m e'.
Proof.
  intros Hm He Hee. unfold V. apply Z.mul_le_mono_nonneg_l; [exact Hm|].
  apply Z.pow_le_mono_r; lia.
Qed.

Lemma V_pow2 (k e : Z) : 0 <= k -> -3000 <= e -> V (2 ^ k) e = 2 ^ (k + e + 3000).
Proof.
  intros Hk He. unfold V. rewrite <- Z.pow_add_r by lia. f_equal. lia.
Qed.

Lemma binary_round_aux_le (sx : bool) (M E : Z) (l : location) (mc : positive) (ec : Z) :
  0 <= M -> -3000 <= E -> E <= fexp64 (Zdigits2 M + E) ->
  bounded prec emax mc ec = true ->
  V M E < V (Z.pos mc) ec \/ (V M E = V (Z.pos mc) ec /\ l = loc_Exact) ->
  at_most sx (V (Z.pos mc) ec) (binary_round_aux prec emax sx M E l).
Proof.
  intros HM HE Hpre Hc Hle.
  pose proof (bounded_range mc ec Hc) as (Hec & Hdc & Hmc & _).
  apply bounded_spec in Hc as [Hcan _].
  set (d := Zdigits2 M) in *. set (e1 := fexp64 (d + E)) in *.
  assert (He1lo : -1074 <= e1) by (unfold e1; rewrite fexp64_eq; lia).
  assert (Hd0 : 0 <= d) by now apply Zdigits2_nonneg.
  assert (Hp : forall k, 0 <= k -> 0 < 2 ^ k) by (intros; apply Z.pow_pos_nonneg; lia).
  (* the exponent of the result is at most that of the bound *)
  assert (He1 : e1 <= ec).
  { destruct (Z.eq_dec M 0) as [HM0|HM0].
    - unfold e1, d in *. rewrite HM0 in *. cbn [Zdigits2] in *.
      rewrite fexp64_eq in *. lia.
    - destruct (Zdigits2_bounds M) as [Hl _]; [lia|]. fold d in Hl.
      assert (0 < d) by (apply Zdigits2_pos; lia).
      assert (0 < Zdigits2 (Z.pos mc)) by now apply Zdigits2_pos.
      assert (HVM : V (2 ^ (d - 1)) E <= V M E) by (apply V_le; lia).
      assert (HVc : V (Z.pos mc) ec < V (2 ^ Zdigits2 (Z.pos mc)) ec).
      { apply V_lt; [lia|]. now apply Zdigits2_bounds. }
      rewrite V_pow2 in HVM, HVc by lia.
      assert (Hlt : 2 ^ (d - 1 + E + 3000) < 2 ^ (Zdigits2 (Z.pos mc) + ec + 3000)) by lia.
      apply pow2_lt_inv in Hlt; [|lia].
      rewrite <- Hcan. unfold e1. apply fexp64_mono. lia. }
  set (n := e1 - E). assert (Hn : 0 <= n) by (unfold n; lia).
  (* the first shift *)
  unfold binary_round_aux, shr_fexp.
  change (SpecFloat.fexp prec emax) with fexp64. fold d. fold e1. fold n.
  destruct (shr_spec M E n l HM) as (mrs1 & Hs1 & Hm1 & Hx1 & _).
  replace (Z.max 0 n) with n in * by lia. replace (E + n) with e1 in * by (unfold n; lia).
  rewrite Hs1.
  set (m1 := shr_m mrs1) in *. clearbody m1.
  destruct (round_nearest_even_bounds m1 (loc_of_shr_record mrs1)) as [[Hr1 Hr2] Hr3].
  set (m2 := round_nearest_even m1 (loc_of_shr_record mrs1)) in *. clearbody m2.
  assert (Hm1nn : 0 <= m1) by (rewrite Hm1; apply Z.div_pos; auto).
  (* the bound on the grid of the result *)
  set (C := Z.pos mc * 2 ^ (ec - e1)).
  assert (HC : V C e1 = V (Z.pos mc) ec).
  { unfold C. rewrite V_shift by lia. f_equal. lia. }
  assert (HC0 : 0 < C) by (unfold C; specialize (Hp (ec - e1)); nia).
  clearbody C.
  assert (HME : V M E = V m1 e1 + V (M mod 2 ^ n) E).
  { rewrite Hm1. replace e1 with (E + n) by (unfold n; lia).
    rewrite <- V_shift by lia. unfold V. rewrite <- Z.mul_add_distr_r. f_equal.
    pose proof (Z.div_mod M (2 ^ n)). specialize (Hp n Hn). lia. }
  assert (Hmod : 0 <= M mod 2 ^ n < 2 ^ n) by (apply Z.mod_pos_bound; auto).
  assert (HMC : M <= C * 2 ^ n).
  { apply (V_le _ _ E HE). rewrite V_shift by lia.
    replace (E + n) with e1 by (unfold n; lia). rewrite HC. lia. }
  assert (Hm2C : m2 <= C).
  { assert (m1 <= C) by (rewrite Hm1; apply Z.div_le_upper_bound; auto; lia).
    destruct (Z.eq_dec m1 C) as [Heq|]; [|lia].
    assert (HMeq : M = C * 2 ^ n).
    { pose proof (Z.mul_div_le M (2 ^ n) (Hp n Hn)). rewrite <- Hm1 in *. lia. }
    rewrite Hr3; [lia|]. apply Hx1.
    - destruct Hle as [Hlt|[_ Hl]]; [|exact Hl]. exfalso.
      assert (V M E = V (Z.pos mc) ec); [|lia].
      rewrite <- HC, HMeq, V_shift by lia. f_equal. unfold n. lia.
    - rewrite HMeq. apply Z.mod_mul. specialize (Hp n Hn). lia. }
  assert (Hm1hi : m1 < 2 ^ 53).
  { rewrite Hm1. apply Z.div_lt_upper_bound; auto.
    destruct (Z.eq_dec M 0) as [->|HM0]; [specialize (Hp n Hn); lia|].
    destruct (Zdigits2_bounds M) as [_ Hu]; [lia|]. fold d in Hu.
    eapply Z.lt_le_trans; [exact Hu|]. rewrite <- Z.pow_add_r by lia.
    apply Z.pow_le_mono_r; [lia|]. unfold n, e1. rewrite fexp64_eq. lia. }
  assert (Hm1lo : -1074 < e1 -> 2 ^ 52 <= m1).
  { intros Hnorm. rewrite Hm1. apply Z.div_le_lower_bound; auto.
    assert (He1eq : e1 = d + E - 53) by (unfold e1 in *; rewrite fexp64_eq in *; lia).
    assert (HM0 : 0 < M).
    { destruct (Z.eq_dec M 0) as [HM0|]; [|lia]. exfalso.
      unfold e1, d in *. rewrite HM0 in *. cbn [Zdigits2] in *.
      rewrite fexp64_eq in *. lia. }
    destruct (Zdigits2_bounds M HM0) as [Hl _]. fold d in Hl.
    rewrite <- Z.pow_add_r by lia. replace (n + 52) with (d - 1) by (unfold n; lia).
    exact Hl. }
  (* the second shift *)
  set (n2 := fexp64 (Zdigits2 m2 + e1) - e1).
  destruct (shr_spec m2 e1 n2 loc_Exact) as (mrs2 & Hs2 & Hm2 & _ & _); [lia|].
  rewrite Hs2.
  assert (Hcases : m2 = 0 \/ 0 < m2 < 2 ^ 53 \/ m2 = 2 ^ 53) by lia.
  destruct Hcases as [H0|[Hmid|Htop]].
  - left. rewrite Hm2, H0, Z.div_0_l by (specialize (Hp (Z.max 0 n2)); lia). reflexivity.
  - assert (Hd2 : Zdigits2 m2 <= 53) by (apply Zdigits2_le; lia).
    assert (Hn2 : n2 <= 0) by (unfold n2; rewrite fexp64_eq; lia).
    replace (Z.max 0 n2) with 0 in * by lia.
    rewrite Z.div_1_r in Hm2. rewrite Hm2, Z.add_0_r.
    destruct m2 as [|p|p] eqn:Ep; try lia.
    replace (e1 <=? emax - prec) with true by (symmetry; apply Z.leb_le; cbn; lia).
    right. exists p, e1. split; [reflexivity|]. split.
    + apply bounded_spec. split; [|lia]. rewrite fexp64_eq.
      destruct (Z.eq_dec e1 (-1074)) as [->|]; [lia|].
      assert (53 <= Zdigits2 (Z.pos p)); [|lia].
      apply (Zdigits2_ge _ 52); [lia|]. specialize (Hm1lo ltac:(lia)). lia.
    + rewrite <- HC. apply V_le; lia.
  - assert (Hd2 : Zdigits2 m2 = 54) by (rewrite Htop; reflexivity).
    assert (Hn2 : n2 = 1) by (unfold n2; rewrite Hd2, fexp64_eq; lia).
    rewrite Hn2 in *. cbn [Z.max Z.compare] in *.
    rewrite Hm2, Htop.
    change (2 ^ 53 / 2 ^ 1) with (Z.pos 4503599627370496). cbv iota.
    assert (He1lt : e1 < ec).
    { destruct (Z.lt_ge_cases e1 ec) as [|Hge]; [assumption|]. exfalso.
      assert (V (Z.pos mc) ec <= V (Z.pos mc) e1) by (apply V_mono_e; lia).
      assert (V (Z.pos mc) e1 < V m2 e1) by (apply V_lt; lia).
      assert (V m2 e1 <= V C e1) by (apply V_le; lia). lia. }
    replace (e1 + 1 <=? emax - prec) with true by (symmetry; apply Z.leb_le; cbn; lia).
    right. exists 4503599627370496%positive, (e1 + 1). split; [reflexivity|]. split.
    + apply bounded_spec. split; [|lia]. cbn [Zdigits2 digits2_pos Pos.succ].
      rewrite fexp64_eq. lia.
    + rewrite <- HC. change (Z.pos 4503599627370496) with (2 ^ 52).
      rewrite <- V_shift by lia. apply V_le; [lia|]. rewrite Htop in Hm2C.
      change (2 ^ 52 * 2 ^ 1) with (2 ^ 53). exact Hm2C.
Qed.

(** *** Comparison of canonical numbers *)

Lemma canonical_lt_exp (m1 m2 : positive) (e1 e2 : Z) :
  bounded prec emax m1 e1 = true -> bounded prec emax m2 e2 = true ->
  e1 < e2 -> V (Z.pos m1) e1 < V (Z.pos m2) e2.
Proof.
  intros H1 H2 Hlt.
  pose proof (bounded_range m1 e1 H1) as (He1 & _).
  pose proof (bounded_range m2 e2 H2) as (He2 & _).
  apply bounded_spec in H1 as [Hc1 _]. apply bounded_spec in H2 as [Hc2 _].
  pose proof (Zdigits2_bounds (Z.pos m1) eq_refl) as [_ Hu].
  pose proof (Zdigits2_bounds (Z.pos m2) eq_refl) as [Hl _].
  pose proof (Zdigits2_pos (Z.pos m1) eq_refl) as Hd1.
  pose proof (Zdigits2_pos (Z.pos m2) eq_refl) as Hd2.
  set (d1 := Zdigits2 (Z.pos m1)) in *. set (d2 := Zdigits2 (Z.pos m2)) in *.
  assert (Hd : d1 + e1 < d2 + e2).
  { destruct (Z.lt_ge_cases (d1 + e1) (d2 + e2)) as [|Hge]; [assumption|].
    pose proof (fexp64_mono _ _ Hge). lia. }
  assert (V (Z.pos m1) e1 < V (2 ^ d1) e1) by (apply V_lt; lia).
  assert (V (2 ^ (d2 - 1)) e2 <= V (Z.pos m2) e2) by (apply V_le; lia).
  rewrite V_pow2 in * by lia.
  assert (2 ^ (d1 + e1 + 3000) <= 2 ^ (d2 - 1 + e2 + 3000))
    by (apply Z.pow_le_mono_r; lia).
  lia.
Qed.

Lemma SFcompare_canonical (m1 m2 : positive) (e1 e2 : Z) :
  bounded prec emax m1 e1 = true -> bounded prec emax m2 e2 = true ->
  SFcompare (S754_finite false m1 e1) (S754_finite false m2 e2)
  = Some (V (Z.pos m1) e1 ?= V (Z.pos m2) e2).
Proof.
  intros H1 H2. cbn [SFcompare]. f_equal.
  destruct (Z.compare_spec e1 e2) as [->|Hlt|Hgt].
  - rewrite Pos.compare_cont_spec. cbn [Pos.switch_Eq].
    pose proof (bounded_range m2 e2 H2) as (He2 & _).
    unfold V. rewrite <- Zmult_compare_compat_r
      by (apply Z.lt_gt, Z.pow_pos_nonneg; lia).
    change (Z.pos m1 ?= Z.pos m2) with (m1 ?= m2)%positive.
    now destruct (m1 ?= m2)%positive.
  - symmetry. apply Z.compare_lt_iff. now apply canonical_lt_exp.
  - symmetry. apply Z.compare_gt_iff. now apply canonical_lt_exp.
Qed.

(** A number that is at most [c] is not above [c]. *)
Lemma SFltb_at_most (mc : positive) (ec : Z) (x : spec_float) (sx : bool) :
  bounded prec emax mc ec = true ->
  at_most sx (V (Z.pos mc) ec) x ->
  SFltb (S754_finite false mc ec) x = false.
Proof.
  intros Hc [->|(m & e & -> & Hb & Hle)]; [reflexivity|].
  destruct sx; [reflexivity|].
  unfold SFltb. rewrite SFcompare_canonical by assumption.
  destruct (Z.compare_spec (V (Z.pos mc) ec) (V (Z.pos m) e)); try reflexivity. lia.
Qed.

(** *** Aligning and normalizing *)

Lemma Pos_iter_xO (m d : positive) : Z.pos (Pos.iter xO m d) = Z.pos m * 2 ^ Z.pos d.
Proof.
  induction d as [|d IH] using Pos.peano_ind.
  - cbn. lia.
  - rewrite Pos.iter_succ, Pos2Z.inj_xO, IH, Pos2Z.inj_succ, Z.pow_succ_r by lia. ring.
Qed.

(** Aligning to a smaller exponent multiplies the mantissa. *)
Lemma shl_align_spec (m : positive) (e e' : Z) :
  e' <= e ->
  Z.pos (fst (shl_align m e e')) = Z.pos m * 2 ^ (e - e')
  /\ snd (shl_align m e e') = e'.
Proof.
  intros Hle. unfold shl_align.
  destruct (e' - e) as [|d|d] eqn:Hd; try lia; cbn [fst snd].
  - replace (e - e') with 0 by lia. split; lia.
  - rewrite Pos_iter_xO. replace (e - e') with (Z.pos d) by lia. split; reflexivity.
Qed.

Lemma shl_align_id (m : positive) (e e' : Z) : e <= e' -> shl_align m e e' = (m, e).
Proof.
  intros Hle. unfold shl_align. destruct (e' - e) as [|d|d] eqn:Hd; try lia; reflexivity.
Qed.

Lemma Zdigits2_shift (m k : Z) : 0 < m -> 0 <= k -> Zdigits2 (m * 2 ^ k) = Zdigits2 m + k.
Proof.
  intros Hm Hk. pose proof (Zdigits2_bounds m Hm) as [Hl Hu].
  pose proof (Zdigits2_pos m Hm) as Hd.
  assert (0 < 2 ^ k) by (apply Z.pow_pos_nonneg; lia).
  apply Zdigits2_unique; [|lia]. split.
  - replace (Zdigits2 m + k - 1) with (Zdigits2 m - 1 + k) by lia.
    rewrite Z.pow_add_r by lia. nia.
  - rewrite Z.pow_add_r by lia. nia.
Qed.

Lemma binary_round_aux_exact_le (sx : bool) (M E : Z) (mc : positive) (ec : Z) :
  0 <= M -> -3000 <= E -> E <= fexp64 (Zdigits2 M + E) ->
  bounded prec emax mc ec = true ->
  V M E <= V (Z.pos mc) ec ->
  at_most sx (V (Z.pos mc) ec) (binary_round_aux prec emax sx M E loc_Exact).
Proof.
  intros HM HE Hpre Hc Hle. apply binary_round_aux_le; auto.
  destruct (Z.eq_dec (V M E) (V (Z.pos mc) ec)); [right; now split|left; lia].
Qed.

Lemma binary_round_le (sx : bool) (mx : positive) (ex : Z) (mc : positive) (ec : Z) :
  -3000 <= ex -> bounded prec emax mc ec = true ->
  V (Z.pos mx) ex <= V (Z.pos mc) ec ->
  at_most sx (V (Z.pos mc) ec) (binary_round prec emax sx mx ex).
Proof.
  intros Hex Hc Hle. unfold binary_round.
  change (SpecFloat.fexp prec emax) with fexp64.
  change (Z.pos (digits2_pos mx)) with (Zdigits2 (Z.pos mx)).
  set (e' := fexp64 (Zdigits2 (Z.pos mx) + ex)).
  assert (He' : -1074 <= e') by (unfold e'; rewrite fexp64_eq; lia).
  destruct (Z.le_gt_cases ex e') as [Hcase|Hcase].
  - rewrite shl_align_id by assumption.
    apply binary_round_aux_exact_le; auto; lia.
  - destruct (shl_align_spec mx ex e') as [Hm He]; [lia|].
    destruct (shl_align mx ex e') as [mz ez]. cbn [fst snd] in *. subst ez.
    apply binary_round_aux_exact_le; auto; try lia.
    + rewrite Hm, Zdigits2_shift by lia.
      replace (Zdigits2 (Z.pos mx) + (ex - e') + e') with (Zdigits2 (Z.pos mx) + ex) by lia.
      fold e'. lia.
    + rewrite Hm, V_shift by lia. replace (e' + (ex - e')) with ex by lia. lia.
Qed.

(** [binary_normalize] of the integer [S] at exponent [e]: the sign of the
    result is the sign of [S], its magnitude is at most any representable
    bound of [|S| * 2^e]. *)
Lemma binary_normalize_le (S e : Z) (szero : bool) (mc : positive) (ec : Z) :
  -3000 <= e -> bounded prec emax mc ec = true ->
  V (Z.abs S) e <= V (Z.pos mc) ec ->
  at_most (if S =? 0 then szero else S <? 0) (V (Z.pos mc) ec)
    (binary_normalize prec emax S e szero).
Proof.
  intros He Hc Hle. destruct S as [|p|p]; cbn [binary_normalize Z.eqb Z.ltb Z.compare].
  - now left.
  - now apply binary_round_le.
  - now apply binary_round_le.
Qed.

(** *** Magnitude bounds through the four operations *)

(** [x] is a zero or a canonical finite number of magnitude at most [c]. *)
Definition within (c : Z) (x : spec_float) : Prop :=
  0 <= c
  /\ ((exists s, x = S754_zero s)
      \/ exists s m e, x = S754_finite s m e /\ bounded prec emax m e = true
                       /\ V (Z.pos m) e <= c).

Lemma at_most_within (sx : bool) (mc : positive) (ec : Z) (x : spec_float) :
  bounded prec emax mc ec = true ->
  at_most sx (V (Z.pos mc) ec) x -> within (V (Z.pos mc) ec) x.
Proof.
  intros Hc H. pose proof (bounded_range mc ec Hc) as (He & _).
  split; [apply Z.lt_le_incl, V_pos; lia|].
  destruct H as [->|(m & e & -> & Hb & Hle)]; [left; eauto|right; eauto 6].
Qed.

Lemma within_zero (mc : positive) (ec : Z) (s : bool) :
  bounded prec emax mc ec = true -> within (V (Z.pos mc) ec) (S754_zero s).
Proof. intros Hc. apply (at_most_within s); [assumption|now left]. Qed.

Lemma within_finite (mc : positive) (ec : Z) (s : bool) (m : positive) (e : Z) :
  bounded prec emax mc ec = true -> bounded prec emax m e = true ->
  V (Z.pos m) e <= V (Z.pos mc) ec ->
  within (V (Z.pos mc) ec) (S754_finite s m e).
Proof.
  intros Hc Hb Hle. apply (at_most_within s); [assumption|right; eauto].
Qed.

Lemma SFltb_within (mc : positive) (ec : Z) (x : spec_float) :
  bounded prec emax mc ec = true ->
  within (V (Z.pos mc) ec) x ->
  SFltb (S754_finite false mc ec) x = false.
Proof.
  intros Hc [_ [[s ->]|(s & m & e & -> & Hb & Hle)]]; [reflexivity|].
  apply (SFltb_at_most mc ec _ s Hc). right; eauto.
Qed.

Lemma V_add (a b e : Z) : V (a + b) e = V a e + V b e.
Proof. unfold V. ring. Qed.

Lemma V_opp (a e : Z) : V (- a) e = - V a e.
Proof. unfold V. ring. Qed.

Lemma V_abs (a e : Z) : V (Z.abs a) e = Z.abs (V a e).
Proof.
  unfold V. rewrite Z.abs_mul. f_equal. symmetry. apply Z.abs_eq, Z.pow_nonneg. lia.
Qed.

Lemma V_cond_Zopp (s : bool) (a e : Z) : V (cond_Zopp s a) e = cond_Zopp s (V a e).
Proof. destruct s; cbn [cond_Zopp]; [apply V_opp|reflexivity]. Qed.

(** The two operands of a sum, brought to their smaller exponent. *)
Lemma V_aligned (m : positive) (e ez : Z) :
  -3000 <= ez -> ez <= e ->
  V (Z.pos (fst (shl_align m e ez))) ez = V (Z.pos m) e.
Proof.
  intros Hz Hle. destruct (shl_align_spec m e ez Hle) as [-> _].
  rewrite V_shift by lia. f_equal. lia.
Qed.

Lemma SFadd_finite_le (sx : bool) (mx : positive) (ex : Z)
    (sy : bool) (my : positive) (ey : Z) (mc : positive) (ec : Z) :
  bounded prec emax mx ex = true -> bounded prec emax my ey = true ->
  bounded prec emax mc ec = true ->
  Z.abs (cond_Zopp sx (V (Z.pos mx) ex) + cond_Zopp sy (V (Z.pos my) ey))
    <= V (Z.pos mc) ec ->
  within (V (Z.pos mc) ec) (SFadd prec emax (S754_finite sx mx ex) (S754_finite sy my ey)).
Proof.
  intros Hx Hy Hc Hle. cbn [SFadd].
  pose proof (bounded_range mx ex Hx) as (Hex & _).
  pose proof (bounded_range my ey Hy) as (Hey & _).
  eapply at_most_within; [assumption|].
  apply binary_normalize_le; [lia|assumption|].
  rewrite V_abs, V_add, !V_cond_Zopp, !V_aligned by lia. exact Hle.
Qed.

Lemma SFsub_finite_le (sx : bool) (mx : positive) (ex : Z)
    (sy : bool) (my : positive) (ey : Z) (mc : positive) (ec : Z) :
  bounded prec emax mx ex = true -> bounded prec emax my ey = true ->
  bounded prec emax mc ec = true ->
  Z.abs (cond_Zopp sx (V (Z.pos mx) ex) - cond_Zopp sy (V (Z.pos my) ey))
    <= V (Z.pos mc) ec ->
  within (V (Z.pos mc) ec) (SFsub prec emax (S754_finite sx mx ex) (S754_finite sy my ey)).
Proof.
  intros Hx Hy Hc Hle. cbn [SFsub].
  pose proof (bounded_range mx ex Hx) as (Hex & _).
  pose proof (bounded_range my ey Hy) as (Hey & _).
  eapply at_most_within; [assumption|].
  apply binary_normalize_le; [lia|assumption|].
  unfold Z.sub at 1. rewrite V_abs, V_add, V_opp, !V_cond_Zopp, !V_aligned by lia.
  exact Hle.
Qed.

(** A finite number plus one of magnitude at most [b]. *)
Lemma SFadd_le (sx : bool) (mx : positive) (ex : Z) (b : Z) (y : spec_float)
    (mc : positive) (ec : Z) :
  bounded prec emax mx ex = true -> bounded prec emax mc ec = true ->
  within b y -> V (Z.pos mx) ex + b <= V (Z.pos mc) ec ->
  within (V (Z.pos mc) ec) (SFadd prec emax (S754_finite sx mx ex) y).
Proof.
  intros Hx Hc [Hb [[s ->]|(s & m & e & -> & Hy & Hle)]] Hsum.
  - cbn [SFadd]. apply within_finite; auto. lia.
  - apply SFadd_finite_le; auto.
    pose proof (bounded_range mx ex Hx) as (Hex & _).
    pose proof (bounded_range m e Hy) as (Hey & _).
    pose proof (V_pos (Z.pos mx) ex eq_refl). pose proof (V_pos (Z.pos m) e eq_refl).
    destruct sx, s; cbn [cond_Zopp]; lia.
Qed.

(** [x] is a zero or a positive canonical number of magnitude at most [c]. *)
Definition nonneg_within (c : Z) (x : spec_float) : Prop :=
  (exists s, x = S754_zero s)
  \/ exists m e, x = S754_finite false m e /\ bounded prec emax m e = true
                 /\ V (Z.pos m) e <= c.

(** A number of [0 .. a] minus a positive one. *)
Lemma SFsub_le (a : Z) (x : spec_float) (my : positive) (ey : Z)
    (mc : positive) (ec : Z) :
  bounded prec emax my ey = true -> bounded prec emax mc ec = true ->
  nonneg_within a x ->
  V (Z.pos my) ey <= V (Z.pos mc) ec -> a <= V (Z.pos my) ey + V (Z.pos mc) ec ->
  within (V (Z.pos mc) ec) (SFsub prec emax x (S754_finite false my ey)).
Proof.
  intros Hy Hc [[s ->]|(m & e & -> & Hx & Hle)] Hyc Ha.
  - cbn [SFsub]. apply within_finite; auto.
  - apply SFsub_finite_le; auto.
    pose proof (bounded_range m e Hx) as (Hex & _).
    pose proof (bounded_range my ey Hy) as (Hey & _).
    pose proof (V_pos (Z.pos m) e eq_refl). pose proof (V_pos (Z.pos my) ey eq_refl).
    cbn [cond_Zopp]. lia.
Qed.

Lemma V_mul (m1 m2 e1 e2 : Z) :
  -3000 <= e1 -> -3000 <= e2 -> -3000 <= e1 + e2 ->
  V (m1 * m2) (e1 + e2) * 2 ^ 3000 = V m1 e1 * V m2 e2.
Proof.
  intros H1 H2 H. unfold V.
  replace (e1 + e2 + 3000) with ((e1 + 3000) + e2) by lia.
  transitivity (m1 * m2 * (2 ^ (e1 + 3000 + e2) * 2 ^ 3000)); [ring|].
  rewrite <- Z.pow_add_r by lia.
  replace (e1 + 3000 + e2 + 3000) with ((e1 + 3000) + (e2 + 3000)) by lia.
  rewrite Z.pow_add_r by lia. ring.
Qed.

(** The product with a normal number. *)
Lemma SFmul_finite_le (sx : bool) (m : positive) (e : Z)
    (sy : bool) (my : positive) (ey : Z) (mc : positive) (ec : Z) :
  bounded prec emax m e = true -> bounded prec emax my ey = true ->
  2 ^ 52 <= Z.pos my -> bounded prec emax mc ec = true ->
  V (Z.pos m) e * V (Z.pos my) ey <= V (Z.pos mc) ec * 2 ^ 3000 ->
  at_most (xorb sx sy) (V (Z.pos mc) ec)
    (SFmul prec emax (S754_finite sx m e) (S754_finite sy my ey)).
Proof.
  intros Hx Hy Hn Hc Hprod. cbn [SFmul].
  pose proof (bounded_range m e Hx) as (Hex & _).
  pose proof (bounded_range my ey Hy) as (Hey & _).
  assert (HM : 2 ^ 52 <= Z.pos (m * my)) by (rewrite Pos2Z.inj_mul; nia).
  apply binary_round_aux_exact_le; auto; try lia.
  - pose proof (Zdigits2_ge (Z.pos (m * my)) 52 ltac:(lia) HM).
    rewrite fexp64_eq. lia.
  - pose proof (V_mul (Z.pos m) (Z.pos my) e ey ltac:(lia) ltac:(lia) ltac:(lia)) as HV.
    rewrite Pos2Z.inj_mul.
    apply (Z.mul_le_mono_pos_r _ _ (2 ^ 3000)); [reflexivity|].
    rewrite HV. exact Hprod.
Qed.

(** A number of magnitude at most [a] times a normal one. *)
Lemma SFmul_le (a : Z) (x : spec_float) (sy : bool) (my : positive) (ey : Z)
    (mc : positive) (ec : Z) :
  bounded prec emax my ey = true -> 2 ^ 52 <= Z.pos my ->
  bounded prec emax mc ec = true ->
  within a x -> a * V (Z.pos my) ey <= V (Z.pos mc) ec * 2 ^ 3000 ->
  within (V (Z.pos mc) ec) (SFmul prec emax x (S754_finite sy my ey)).
Proof.
  intros Hy Hn Hc [Ha [[s ->]|(s & m & e & -> & Hx & Hle)]] Hprod.
  - cbn [SFmul]. now apply within_zero.
  - eapply at_most_within; [assumption|].
    apply SFmul_finite_le; auto.
    pose proof (bounded_range my ey Hy) as (Hey & _).
    pose proof (V_pos (Z.pos my) ey eq_refl ltac:(lia)). nia.
Qed.

(** A number of [0 .. a] times a positive normal one. *)
Lemma SFmul_nonneg (a : Z) (x : spec_float) (my : positive) (ey : Z)
    (mc : positive) (ec : Z) :
  bounded prec emax my ey = true -> 2 ^ 52 <= Z.pos my ->
  bounded prec emax mc ec = true ->
  nonneg_within a x -> a * V (Z.pos my) ey <= V (Z.pos mc) ec * 2 ^ 3000 ->
  nonneg_within (V (Z.pos mc) ec) (SFmul prec emax x (S754_finite false my ey)).
Proof.
  intros Hy Hn Hc [[s ->]|(m & e & -> & Hx & Hle)] Hprod.
  - cbn [SFmul]. left. eauto.
  - pose proof (bounded_range my ey Hy) as (Hey & _).
    pose proof (V_pos (Z.pos my) ey eq_refl ltac:(lia)).
    destruct (SFmul_finite_le false m e false my ey mc ec Hx Hy Hn Hc ltac:(nia))
      as [->|(m' & e' & -> & Hb' & Hle')]; [left; eauto|right; eauto].
Qed.

Lemma new_location_0 (n : Z) : new_location n 0 = loc_Exact.
Proof. unfold new_location. now destruct (Z.even n). Qed.

(** The quotient mantissa has enough digits for its exponent. *)
Lemma div_digits (m1 m2 s : Z) :
  0 < m1 -> 0 < m2 -> 0 <= s ->
  Zdigits2 m1 + s - Zdigits2 m2 <= Zdigits2 (m1 * 2 ^ s / m2).
Proof.
  intros H1 H2 Hs.
  pose proof (Zdigits2_bounds m1 H1) as [Hl1 _].
  pose proof (Zdigits2_bounds m2 H2) as [_ Hu2].
  pose proof (Zdigits2_pos m1 H1) as Hd1. pose proof (Zdigits2_pos m2 H2) as Hd2.
  set (d1 := Zdigits2 m1) in *. set (d2 := Zdigits2 m2) in *.
  assert (Hq : 0 <= m1 * 2 ^ s / m2).
  { apply Z.div_pos; [|assumption]. apply Z.mul_nonneg_nonneg; [lia|].
    apply Z.pow_nonneg; lia. }
  destruct (Z.le_gt_cases (d1 + s - d2) 0) as [Hneg|Hpos].
  - pose proof (Zdigits2_nonneg _ Hq). lia.
  - enough (d1 + s - d2 - 1 + 1 <= Zdigits2 (m1 * 2 ^ s / m2)) by lia.
    apply Zdigits2_ge; [lia|].
    apply Z.div_le_lower_bound; [assumption|].
    assert (Hps : 0 < 2 ^ s) by (apply Z.pow_pos_nonneg; lia).
    assert (Hpt : 0 < 2 ^ (d1 + s - d2 - 1)) by (apply Z.pow_pos_nonneg; lia).
    assert (m2 * 2 ^ (d1 + s - d2 - 1) <= 2 ^ d2 * 2 ^ (d1 + s - d2 - 1)) by nia.
    assert (2 ^ d2 * 2 ^ (d1 + s - d2 - 1) = 2 ^ (d1 - 1) * 2 ^ s).
    { rewrite <- !Z.pow_add_r by lia. f_equal. lia. }
    assert (2 ^ (d1 - 1) * 2 ^ s <= m1 * 2 ^ s) by nia.
    lia.
Qed.

(** A number of magnitude at most [a] divided by a finite one. *)
Lemma SFdiv_le (a : Z) (x : spec_float) (sy : bool) (my : positive) (ey : Z)
    (mc : positive) (ec : Z) :
  bounded prec emax my ey = true -> bounded prec emax mc ec = true ->
  within a x -> a * 2 ^ 3000 <= V (Z.pos mc) ec * V (Z.pos my) ey ->
  within (V (Z.pos mc) ec) (SFdiv prec emax x (S754_finite sy my ey)).
Proof.
  intros Hy Hc [Ha [[s ->]|(s & m & e & -> & Hx & Hle)]] Hquot.
  - cbn [SFdiv]. now apply within_zero.
  - cbn [SFdiv]. unfold SFdiv_core_binary.
    change (SpecFloat.fexp prec emax) with fexp64.
    pose proof (bounded_range m e Hx) as (Hex & _).
    pose proof (bounded_range my ey Hy) as (Hey & _).
    set (d1 := Zdigits2 (Z.pos m)). set (d2 := Zdigits2 (Z.pos my)).
    set (e' := Z.min (fexp64 (d1 + e - (d2 + ey))) (e - ey)).
    assert (He' : -3000 <= e' <= e - ey).
    { unfold e'. rewrite fexp64_eq. lia. }
    assert (Hf : e' <= fexp64 (d1 + e - (d2 + ey))) by (unfold e'; lia).
    set (sh := e - ey - e') in *.
    assert (Hm' : match sh with
                  | 0 => Z.pos m
                  | Z.pos _ => Z.shiftl (Z.pos m) sh
                  | Z.neg _ => 0
                  end = Z.pos m * 2 ^ sh).
    { assert (0 <= sh) by (unfold sh; lia).
      destruct sh as [|p|p] eqn:Hsh; [lia| |lia].
      now rewrite Z.shiftl_mul_pow2. }
    rewrite Hm'. clear Hm'.
    assert (Hsh : 0 <= sh) by (unfold sh; lia).
    pose proof (Z_div_mod (Z.pos m * 2 ^ sh) (Z.pos my) eq_refl) as Hdm.
    pose proof (div_digits (Z.pos m) (Z.pos my) sh eq_refl eq_refl Hsh) as Hdig.
    unfold Z.div in Hdig.
    destruct (Z.div_eucl (Z.pos m * 2 ^ sh) (Z.pos my)) as [q r].
    destruct Hdm as [Hdm Hr]. cbn [fst] in Hdig.
    fold d1 d2 in Hdig.
    assert (Hq : 0 <= q).
    { assert (0 < 2 ^ sh) by (apply Z.pow_pos_nonneg; lia). nia. }
    eapply at_most_within; [assumption|].
    apply binary_round_aux_le; auto; try lia.
    + apply Z.le_trans with (1 := Hf), fexp64_mono. unfold sh in Hdig. lia.
    + assert (HV : V (Z.pos m * 2 ^ sh) e' = V (Z.pos m) (e - ey)).
      { rewrite V_shift by lia. f_equal. unfold sh. lia. }
      rewrite Hdm, V_add in HV.
      assert (HVq : V (Z.pos my * q) e' = Z.pos my * V q e') by (unfold V; ring).
      rewrite HVq in HV.
      assert (HX : V (Z.pos m) (e - ey) * 2 ^ (ey + 3000) = V (Z.pos m) e * 2 ^ 3000).
      { unfold V. rewrite <- !Z.mul_assoc, <- !Z.pow_add_r by lia.
        do 2 f_equal. lia. }
      assert (HP : 0 < 2 ^ (ey + 3000)) by (apply Z.pow_pos_nonneg; lia).
      assert (HVr : 0 <= V r e') by (unfold V; apply Z.mul_nonneg_nonneg;
                                     [lia|apply Z.pow_nonneg; lia]).
      set (c := V (Z.pos mc) ec) in *. set (Q := V q e') in *.
      set (R := V r e') in *. set (P := 2 ^ (ey + 3000)) in *.
      assert (Hmain : (Z.pos my * Q + R) * P <= c * Z.pos my * P).
      { rewrite HV, HX.
        apply Z.le_trans with (a * 2 ^ 3000); [nia|].
        unfold V in Hquot. fold P in Hquot. lia. }
      assert (Hmain' : Z.pos my * Q + R <= c * Z.pos my).
      { apply (Z.mul_le_mono_pos_r _ _ P); assumption. }
      destruct (Z.lt_ge_cases Q c) as [Hlt|Hge]; [left; exact Hlt|right].
      assert (Q = c) by nia. split; [assumption|].
      assert (R = 0) by nia.
      assert (r = 0).
      { unfold R, V in *. assert (0 < 2 ^ (e' + 3000)) by (apply Z.pow_pos_nonneg; lia).
        nia. }
      subst r. apply new_location_0.
Qed.

(** *** Printing with one fractional digit *)

Lemma pow2_3000 (k : Z) : 0 <= k <= 3000 -> 2 ^ 3000 = 2 ^ k * 2 ^ (3000 - k).
Proof. intros H. rewrite <- Z.pow_add_r by lia. f_equal. lia. Qed.

Lemma tenths_le (m : positive) (e n : Z) :
  -1074 <= e -> V (Z.pos m) e <= V n 0 -> 0 <= JS.tenths m e <= 10 * n.
Proof.
  intros He Hle. unfold JS.tenths. destruct e as [|p|k].
  - apply V_le in Hle; lia.
  - rewrite <- (Z.add_0_l (Z.pos p)), <- V_shift in Hle by lia.
    apply V_le in Hle; [|lia]. lia.
  - assert (Hk : 0 <= Z.pos k <= 3000) by lia.
    unfold V in Hle. replace (0 + 3000) with 3000 in Hle by lia.
    rewrite (pow2_3000 (Z.pos k) Hk) in Hle.
    replace (Z.neg k + 3000) with (3000 - Z.pos k) in Hle by lia.
    assert (HP : 0 < 2 ^ (3000 - Z.pos k)) by (apply Z.pow_pos_nonneg; lia).
    assert (HK : 0 < 2 ^ Z.pos k) by (apply Z.pow_pos_nonneg; lia).
    assert (Hm : Z.pos m <= n * 2 ^ Z.pos k).
    { apply (Z.mul_le_mono_pos_r _ _ (2 ^ (3000 - Z.pos k))); [assumption|]. lia. }
    rewrite Z.pow_add_r by lia. change (2 ^ 1) with 2.
    split.
    + apply Z.div_pos; lia.
    + enough (H : (20 * Z.pos m + 2 ^ Z.pos k) / (2 ^ Z.pos k * 2) < 10 * n + 1) by lia.
      apply Z.div_lt_upper_bound; lia.
Qed.

(** A canonical number below one is at most the number before one. *)
Lemma below_one (m : positive) (e : Z) :
  bounded prec emax m e = true -> V (Z.pos m) e < V 1 0 ->
  e <= -53 /\ V (Z.pos m) e <= V (Z.pos 9007199254740991) (-53).
Proof.
  intros Hb Hlt. pose proof (bounded_range m e Hb) as (He & Hd & Hm & Hn).
  change (2 ^ 53) with 9007199254740992 in Hm.
  change (2 ^ 52) with 4503599627370496 in Hn.
  change (V 1 0) with (V (Z.pos 4503599627370496) (-52)) in Hlt.
  assert (He53 : e <= -53).
  { destruct (Z.le_gt_cases e (-53)) as [|Hgt]; [assumption|exfalso].
    destruct (Z.eq_dec e (-52)) as [->|Hne].
    - destruct Hn as [_ Hn]; [lia|]. apply V_lt in Hlt; lia.
    - pose proof (canonical_lt_exp 4503599627370496 m (-52) e eq_refl Hb ltac:(lia)).
      lia. }
  split; [assumption|].
  apply Z.le_trans with (V (Z.pos 9007199254740991) e).
  - apply V_le; lia.
  - apply V_mono_e; lia.
Qed.

(** [Math.random()] is a zero or a positive number below one. *)
Lemma unit_interval_finite (r : float) :
  JS.unit_interval r = true ->
  (exists s, Prim2SF r = S754_zero s)
  \/ exists m e, Prim2SF r = S754_finite false m e /\ bounded prec emax m e = true
                 /\ V (Z.pos m) e < V 1 0.
Proof.
  unfold JS.unit_interval. rewrite andb_true_iff, leb_spec, ltb_spec.
  pose proof (Prim2SF_valid r) as Hv.
  change (Prim2SF 1) with (S754_finite false 4503599627370496 (-52)).
  change (Prim2SF 0) with (S754_zero false).
  destruct (Prim2SF r) as [s|s| |s m e]; intros [H0 H1].
  - left. eauto.
  - destruct s; discriminate.
  - discriminate.
  - destruct s; [discriminate|]. right. exists m, e. cbn [valid_binary] in Hv.
    split; [reflexivity|split; [assumption|]].
    unfold SFltb in H1. rewrite SFcompare_canonical in H1 by (assumption || reflexivity).
    change (V (Z.pos 4503599627370496) (-52)) with (V 1 0) in H1.
    destruct (Z.compare_spec (V (Z.pos m) e) (V 1 0)); try discriminate. assumption.
Qed.

Lemma unit_interval_spec (r : float) :
  JS.unit_interval r = true ->
  nonneg_within (V (Z.pos 9007199254740991) (-53)) (Prim2SF r).
Proof.
  intros [H|(m & e & H & Hb & Hlt)]%unit_interval_finite; [now left|right].
  exists m, e. repeat split; [assumption..|]. now apply below_one.
Qed.

(** [Math.random()] is the number before one, or at most the one before it. *)
Lemma unit_interval_cases (r : float) :
  JS.unit_interval r = true ->
  r = 0x1.fffffffffffffp-1%float
  \/ nonneg_within (V (Z.pos 9007199254740990) (-53)) (Prim2SF r).
Proof.
  intros [H|(m & e & H & Hb & Hlt)]%unit_interval_finite; [right; now left|].
  destruct (below_one m e Hb Hlt) as [He _].
  pose proof (bounded_range m e Hb) as (He' & _ & Hm & _).
  change (2 ^ 53) with 9007199254740992 in Hm.
  destruct (Z.eq_dec e (-53)) as [->|Hne].
  - destruct (Pos.eq_dec m 9007199254740991) as [->|Hm'].
    + left. rewrite <- (SF2Prim_Prim2SF r), H. reflexivity.
    + right. right. exists m, (-53). repeat split; [assumption..|].
      apply V_le; lia.
  - right. right. exists m, e. repeat split; [assumption..|].
    apply Z.le_trans with (V (Z.pos 9007199254740991) e); [apply V_le; lia|].
    apply Z.le_trans with (V (Z.pos 9007199254740991) (-54)); [apply V_mono_e; lia|].
    apply Z.leb_le. vm_compute. reflexivity.
Qed.

(** [Math.floor] of a number in [0 .. c], with [c] below the integer [n]. *)
Lemma floorZ_nonneg_within (x : float) (c n : Z) :
  nonneg_within c (Prim2SF x) -> c < V n 0 -> 0 < n ->
  exists z, JS.floorZ x = Some z /\ 0 <= z < n.
Proof.
  unfold JS.floorZ. intros [[s ->]|(m & e & -> & Hb & Hle)] Hc Hn.
  - exists 0. split; [reflexivity|lia].
  - pose proof (bounded_range m e Hb) as (He & _). eexists. split; [reflexivity|].
    assert (Hlt : V (Z.pos m) e < V n 0) by lia. clear Hle Hc.
    destruct e as [|p|k].
    + apply V_lt in Hlt; lia.
    + rewrite <- (Z.add_0_l (Z.pos p)), <- V_shift in Hlt by lia.
      apply V_lt in Hlt; [|lia].
      assert (0 < 2 ^ Z.pos p) by (apply Z.pow_pos_nonneg; lia). nia.
    + assert (Hk : 0 <= Z.pos k <= 3000) by lia.
      unfold V in Hlt. replace (0 + 3000) with 3000 in Hlt by lia.
      rewrite (pow2_3000 (Z.pos k) Hk) in Hlt.
      replace (Z.neg k + 3000) with (3000 - Z.pos k) in Hlt by lia.
      assert (HP : 0 < 2 ^ (3000 - Z.pos k)) by (apply Z.pow_pos_nonneg; lia).
      assert (HK : 0 < 2 ^ Z.pos k) by (apply Z.pow_pos_nonneg; lia).
      assert (Hm : Z.pos m < n * 2 ^ Z.pos k).
      { apply (Z.mul_lt_mono_pos_r (2 ^ (3000 - Z.pos k))); [assumption|]. lia. }
      split; [apply Z.div_pos; lia|].
      apply Z.div_lt_upper_bound; lia.
Qed.

Lemma within_le (c c' : Z) (x : spec_float) : c <= c' -> within c x -> within c' x.
Proof.
  intros Hle [Hc [H|(s & m & e & -> & Hb & Hm)]]; (split; [lia|]); [now left|right].
  exists s, m, e. repeat split; [assumption|lia].
Qed.

Lemma Prim2SF_bounded (x : float) (s : bool) (m : positive) (e : Z) :
  Prim2SF x = S754_finite s m e -> bounded prec emax m e = true.
Proof. intros H. pose proof (Prim2SF_valid x) as Hv. now rewrite H in Hv. Qed.

(** [Math.floor(Math.random() * k)] for a positive normal [k] that is the
    integer [n]: [mc], [ec] is a number below [n] that the product with any
    [Math.random()] other than the last before one stays under. *)
Lemma floor_random_times (k : float) (n : Z) (mk : positive) (ek : Z)
    (mc : positive) (ec : Z) :
  Prim2SF k = S754_finite false mk ek -> 2 ^ 52 <= Z.pos mk ->
  bounded prec emax mc ec = true ->
  V (Z.pos 9007199254740990) (-53) * V (Z.pos mk) ek <= V (Z.pos mc) ec * 2 ^ 3000 ->
  V (Z.pos mc) ec < V n 0 -> 0 < n ->
  (exists z, JS.floorZ (0x1.fffffffffffffp-1 * k) = Some z /\ 0 <= z < n) ->
  forall r, JS.unit_interval r = true ->
  exists z, JS.floorZ (r * k) = Some z /\ 0 <= z < n.
Proof.
  intros Hk Hn Hc Hprod Hlt Hpos Hlast r [->|Hr]%unit_interval_cases; [exact Hlast|].
  apply floorZ_nonneg_within with (c := V (Z.pos mc) ec); [|assumption..].
  rewrite mul_spec, Hk. unfold SF64mul.
  apply SFmul_nonneg with (a := V (Z.pos 9007199254740990) (-53)); auto.
  exact (Prim2SF_bounded _ _ _ _ Hk).
Qed.

(** The numbers [n / 10 * 1e14] for [n] in [0 .. k], of both signs, are
    not above [t]. *)
Definition tenths_below (t : float) (k : nat) : bool :=
  forallb (fun n =>
             negb (PrimFloat.ltb t (JS.of_tenths false (Z.of_nat n) * 1e14))
             && negb (PrimFloat.ltb t (JS.of_tenths true (Z.of_nat n) * 1e14)))
    (seq 0 (S k)).

Lemma tenths_below_spec (t : float) (k : nat) (s : bool) (n : Z) :
  tenths_below t k = true -> 0 <= n <= Z.of_nat k ->
  PrimFloat.ltb t (JS.of_tenths s n * 1e14) = false.
Proof.
  unfold tenths_below. rewrite forallb_forall. intros H Hn.
  assert (Hin : In (Z.to_nat n) (seq 0 (S k))) by (apply in_seq; lia).
  apply H in Hin. rewrite Z2Nat.id in Hin by lia.
  apply andb_true_iff in Hin as [Hf Ht].
  destruct s; [apply negb_true_iff in Ht|apply negb_true_iff in Hf]; assumption.
Qed.

Section FluxRange.

(** A sensor of baseline [B] and variance [W], both positive, whose values
    stay within 3e14: [mh], [eh] is half the variance. *)
Variables (B W : float) (mb mw mh : positive) (eb ew eh : Z).
Hypothesis HB : Prim2SF B = S754_finite false mb eb.
Hypothesis HW : Prim2SF W = S754_finite false mw ew.
Hypothesis HWn : 2 ^ 52 <= Z.pos mw.
Hypothesis Hh : bounded prec emax mh eh = true.
Hypothesis Hhalf :
  V (Z.pos 4503599627370496) (-53) * V (Z.pos mw) ew <= V (Z.pos mh) eh * 2 ^ 3000.
Hypothesis Hsum :
  V (Z.pos mb) eb + V (Z.pos mh) eh <= V (Z.pos 4800000000000000) (-4).

Lemma generated_within (r : float) :
  JS.unit_interval r = true ->
  within (V (Z.pos 4800000000000000) (-4)) (Prim2SF (B + (r - 0.5) * W)).
Proof.
  intros Hr%unit_interval_spec.
  rewrite add_spec, mul_spec, sub_spec, HB, HW.
  change (Prim2SF 0.5) with (S754_finite false 4503599627370496 (-53)).
  unfold SF64add, SF64mul, SF64sub.
  apply SFadd_le with (b := V (Z.pos mh) eh);
    [exact (Prim2SF_bounded _ _ _ _ HB)|reflexivity| |exact Hsum].
  apply SFmul_le with (a := V (Z.pos 4503599627370496) (-53));
    [exact (Prim2SF_bounded _ _ _ _ HW)|exact HWn|exact Hh| |exact Hhalf].
  apply SFsub_le with (a := V (Z.pos 9007199254740991) (-53));
    [reflexivity|reflexivity|exact Hr|lia|].
  apply Z.leb_le. vm_compute. reflexivity.
Qed.

Lemma generated_below_threshold (r : float) :
  JS.unit_interval r = true ->
  PrimFloat.ltb 3.2e14 (B + (r - 0.5) * W) = false.
Proof.
  intros Hr. rewrite ltb_spec.
  change (Prim2SF 3.2e14) with (S754_finite false 5120000000000000 (-4)).
  apply SFltb_within; [reflexivity|].
  apply within_le with (2 := generated_within r Hr).
  apply Z.leb_le. vm_compute. reflexivity.
Qed.

Lemma displayed_below_threshold (r : float) :
  JS.unit_interval r = true ->
  PrimFloat.ltb 3.2e14
    (JS.parseFloat_toFixed1 ((B + (r - 0.5) * W) / 1e14) * 1e14) = false.
Proof.
  intros Hr. pose proof (generated_within r Hr) as Hv.
  set (v := (B + (r - 0.5) * W)%float) in *.
  assert (Hx : within (V (Z.pos 6755399441055744) (-51)) (Prim2SF (v / 1e14))).
  { rewrite div_spec. unfold SF64div.
    change (Prim2SF 1e14) with (S754_finite false 6400000000000000 (-6)).
    apply SFdiv_le with (a := V (Z.pos 4800000000000000) (-4));
      [reflexivity|reflexivity|exact Hv|].
    apply Z.leb_le. vm_compute. reflexivity. }
  set (x := (v / 1e14)%float) in *.
  unfold JS.parseFloat_toFixed1.
  destruct Hx as [_ [[s Hx]|(s & m & e & Hx & Hb & Hle)]]; rewrite Hx.
  - reflexivity.
  - destruct (JS.ge (PrimFloat.abs x) 1e21).
    + rewrite ltb_spec, mul_spec, Hx. unfold SF64mul.
      change (Prim2SF 3.2e14) with (S754_finite false 5120000000000000 (-4)).
      change (Prim2SF 1e14) with (S754_finite false 6400000000000000 (-6)).
      apply SFltb_within; [reflexivity|].
      apply SFmul_le with (a := V (Z.pos m) e); [reflexivity|lia|reflexivity| |].
      * pose proof (bounded_range m e Hb) as (He & _).
        split; [apply Z.lt_le_incl, V_pos; lia|].
        right. exists s, m, e. repeat split; [assumption|lia].
      * apply Z.le_trans
          with (V (Z.pos 6755399441055744) (-51) * V (Z.pos 6400000000000000) (-6)).
        -- apply Z.mul_le_mono_nonneg_r; [|exact Hle].
           apply Z.lt_le_incl, V_pos; lia.
        -- apply Z.leb_le. vm_compute. reflexivity.
    + pose proof (bounded_range m e Hb) as (He & _).
      apply tenths_below_spec with (k := 30%nat); [vm_compute; reflexivity|].
      change (Z.of_nat 30) with (10 * 3).
      apply tenths_le; [lia|]. exact Hle.
Qed.

End FluxRange.

Import Generator.

(** ** The threshold rule *)

(** The rule as the specification words it, for a threshold [t] and a
    maximum [m]: critical exactly above both [t] and [0.9 m], warning
    exactly above [t] but not above [0.9 m], normal otherwise. *)
Definition threshold_rule (t m value : float) (s : Status) : Prop :=
  (s = critical <-> JS.gt value t = true /\ JS.gt value (m * 0.9)%float = true)
  /\ (s = warning <-> JS.gt value t = true /\ JS.gt value (m * 0.9)%float = false)
  /\ (s = normal <-> JS.gt value t = false).

(** The rule when no maximum is in force: warning above [t], else normal. *)
Definition threshold_only_rule (t value : float) (s : Status) : Prop :=
  (s = warning <-> JS.gt value t = true)
  /\ (s = normal <-> JS.gt value t = false)
  /\ s <> critical.

Definition CORE_TEMP_01 : SensorConfig :=
  config "CORE-TEMP-01" "temperature" "°C" 580 8 590 620 "AWS".

(** A configuration whose maximum is present and is zero. *)
Definition zero_max : SensorConfig :=
  config "GAUGE-01" "pressure" "kPa" (-20) 60 (-5) 0 "AWS".

Lemma truthy_nonzero (m : float) :
  PrimFloat.eqb m 0 = false -> JS.truthy m = PrimFloat.eqb m m.
Proof. unfold JS.truthy. now intros ->. Qed.

Lemma truthy_zero (m : float) : PrimFloat.eqb m 0 = true -> JS.truthy m = false.
Proof. unfold JS.truthy. now intros ->. Qed.

(** A number that compares above a multiple of [m] is above a number:
    [m] is not NaN. *)
Lemma gt_mul_self_eqb (value m c : float) :
  JS.gt value (m * c)%float = true -> PrimFloat.eqb m m = true.
Proof.
  unfold JS.gt. rewrite ltb_spec, eqb_spec, mul_spec.
  destruct (Prim2SF m) as [ [|] | [|] | | [|] mm em ]; try reflexivity.
  - now destruct (Prim2SF c).
  - cbn. unfold SFeqb, SFcompare.
    now rewrite Z.compare_refl, Pos.compare_cont_refl.
  - cbn. unfold SFeqb, SFcompare.
    now rewrite Z.compare_refl, Pos.compare_cont_refl.
Qed.

Lemma nearMax_nonzero (value m : float) :
  PrimFloat.eqb m 0 = false ->
  nearMax value (Some m) = JS.gt value (m * 0.9)%float.
Proof.
  intros Hm. unfold nearMax. rewrite (truthy_nonzero _ Hm).
  destruct (JS.gt value (m * 0.9)%float) eqn:Hgt.
  - now rewrite (gt_mul_self_eqb _ _ _ Hgt).
  - apply andb_false_r.
Qed.

Lemma deriveStatus_threshold_only (config : SensorConfig) (value t : float) :
  cfg_threshold config = Some t ->
  nearMax value (cfg_maxValue config) = false ->
  threshold_only_rule t value (deriveStatus value config).
Proof.
  intros Ht Hn. unfold threshold_only_rule, deriveStatus.
  rewrite Ht, Hn. cbn [JS.gt_opt].
  destruct (JS.gt value t); repeat split; intros; congruence.
Qed.

(** C1, as stated, fails where the maximum is present and zero: the value 1
    is above the threshold -5 and above 0.9 * 0, and the status is
    "warning", not "critical". *)
Lemma status_rule_fails_at_zero_max :
  cfg_threshold zero_max = Some (-5)%float
  /\ cfg_maxValue zero_max = Some 0%float
  /\ ~ threshold_rule (-5) 0 1 (deriveStatus 1 zero_max).
Proof.
  repeat split.
  intros [[_ Hc] _].
  assert (H : deriveStatus 1 zero_max = critical) by (apply Hc; split; reflexivity).
  discriminate H.
Qed.

(** C1, amended: with a threshold [t] and a maximum [m] that is not zero the
    status follows the rule of the specification; a maximum that is zero or
    absent never gives "critical", and every value above [t] is "warning";
    605 on CORE-TEMP-01 is "critical". *)
Theorem status_rule (config : SensorConfig) (value t : float) :
  cfg_threshold config = Some t ->
  (forall m, cfg_maxValue config = Some m -> PrimFloat.eqb m 0 = false ->
     threshold_rule t m value (deriveStatus value config))
  /\ (forall m, cfg_maxValue config = Some m -> PrimFloat.eqb m 0 = true ->
        threshold_only_rule t value (deriveStatus value config))
  /\ (cfg_maxValue config = None ->
        threshold_only_rule t value (deriveStatus value config))
  /\ deriveStatus 605 CORE_TEMP_01 = critical.
Proof.
  intros Ht. split; [|split; [|split]].
  - intros m Hm Hz. unfold threshold_rule, deriveStatus.
    rewrite Ht, Hm, (nearMax_nonzero _ _ Hz). cbn [JS.gt_opt].
    destruct (JS.gt value t), (JS.gt value (m * 0.9)%float);
      repeat split; intros; try congruence; try tauto.
    all: match goal with H : _ /\ _ |- _ => destruct H; congruence end.
  - intros m Hm Hz. apply deriveStatus_threshold_only; [assumption|].
    rewrite Hm. unfold nearMax. now rewrite (truthy_zero _ Hz).
  - intros Hm. apply deriveStatus_threshold_only; [assumption|].
    now rewrite Hm.
  - reflexivity.
Qed.

Lemma status_rule_witness :
  threshold_rule 590 620 605 (deriveStatus 605 CORE_TEMP_01).
Proof.
  exact (proj1 (status_rule CORE_TEMP_01 605 590 eq_refl) 620%float eq_refl eq_refl).
Defined.

(** A configuration with no [threshold] property. *)
Definition no_threshold : SensorConfig :=
  {| cfg_nodeId := "AUX-01"; cfg_sensorType := "temperature"; cfg_unit := "°C";
     cfg_baseValue := 20; cfg_variance := 4; cfg_threshold := None;
     cfg_maxValue := Some 100%float; cfg_location := "AWS" |}.

(** C5: without a threshold the status is "normal" for every number,
    negative, infinite or NaN; [deriveStatus] is total, it cannot fail. *)
Theorem no_threshold_is_normal (config : SensorConfig) (value : float) :
  cfg_threshold config = None -> deriveStatus value config = normal.
Proof. intros Ht. unfold deriveStatus. now rewrite Ht. Qed.

Lemma no_threshold_is_normal_witness :
  deriveStatus nan no_threshold = normal
  /\ deriveStatus (-3) no_threshold = normal
  /\ deriveStatus 1e300 no_threshold = normal.
Proof.
  exact (conj (no_threshold_is_normal no_threshold nan eq_refl)
          (conj (no_threshold_is_normal no_threshold (-3) eq_refl)
                (no_threshold_is_normal no_threshold 1e300 eq_refl))).
Defined.

(** ** The derived-insight scheduler *)

(** The jitter [Math.floor(Math.random() * 8) - 4] is one of -4 .. 3. *)
Lemma confidenceVariation_range (r : float) :
  JS.unit_interval r = true ->
  exists variation,
    Insight.confidenceVariation r = Some variation /\ -4 <= variation <= 3.
Proof.
  intros Hr. unfold Insight.confidenceVariation.
  destruct (floor_random_times 8 8 4503599627370496 (-49) 9007199254740991 (-50))
    with (r := r) as (z & -> & Hz);
    try reflexivity; try (apply Z.leb_le; vm_compute; reflexivity); try exact Hr.
  - exists 7. split; [vm_compute; reflexivity|lia].
  - exists (z - 4). split; [reflexivity|lia].
Qed.

(** Every [Math.random()] picks a template. *)
Lemma pick_total (r : float) :
  JS.unit_interval r = true -> exists analysis, Insight.pick r = Some analysis.
Proof.
  intros Hr. unfold Insight.pick.
  change (JS.of_Z (Z.of_nat (List.length Insight.nuclearAnalysisPatterns)))
    with 10%float.
  destruct (floor_random_times 10 10 5629499534213120 (-49) 5629499534213119 (-49))
    with (r := r) as (z & -> & Hz);
    try reflexivity; try (apply Z.leb_le; vm_compute; reflexivity); try exact Hr.
  - exists 9. split; [vm_compute; reflexivity|lia].
  - destruct (Z.ltb_spec z 0) as [|_]; [lia|].
    destruct (nth_error Insight.nuclearAnalysisPatterns (Z.to_nat z)) as [a|] eqn:Hn;
      [eauto|].
    apply nth_error_None in Hn. cbn [List.length Insight.nuclearAnalysisPatterns] in Hn.
    lia.
Qed.

(** C8: whatever the three random draws, a recommendation that a tick of
    [performAiAnalysis] hands to the storage is one of the templates with
    its confidence moved by the jitter and clamped into [75, 99], hence
    within 0..100; the stored row keeps that confidence.  With draws of
    [Math.random()] the jitter is one of -4 .. 3, and the tick produces a
    recommendation exactly when the first draw is below 0.25. *)
Theorem recommendation_confidence_clamped (r1 r2 r3 : float) (now : Z) (d : Db) :
  (forall analysis r,
     Insight.performAiAnalysis r1 r2 r3 = Some (analysis, r) ->
     In analysis Insight.nuclearAnalysisPatterns
     /\ (exists variation,
           Insight.confidenceVariation r3 = Some variation
           /\ irec_confidence r
              = Z.max 75 (Z.min 99 (Insight.confidence analysis + variation)))
     /\ 75 <= irec_confidence r <= 99
     /\ 0 <= irec_confidence r <= 100
     /\ rec_confidence (fst (Storage.createAiRecommendation now r d))
        = irec_confidence r)
  /\ (JS.unit_interval r2 = true -> JS.unit_interval r3 = true ->
      (exists variation,
         Insight.confidenceVariation r3 = Some variation /\ -4 <= variation <= 3)
      /\ (PrimFloat.ltb r1 0.25 = true ->
          exists analysis r, Insight.performAiAnalysis r1 r2 r3 = Some (analysis, r))
      /\ (PrimFloat.ltb r1 0.25 = false -> Insight.performAiAnalysis r1 r2 r3 = None)).
Proof.
  split.
  - intros analysis r. unfold Insight.performAiAnalysis.
    destruct (PrimFloat.ltb r1 0.25); [|discriminate].
    destruct (Insight.pick r2) as [a|] eqn:Hpick; [|discriminate].
    destruct (Insight.confidenceVariation r3) as [v|] eqn:Hv; [|discriminate].
    intros H. injection H as <- <-. cbn [irec_confidence].
    unfold Insight.finalConfidence.
    split; [|split; [|repeat split; try lia]].
    + unfold Insight.pick in Hpick.
      destruct (JS.floorZ _) as [i|]; [|discriminate].
      destruct (i <? 0); [discriminate|].
      eapply nth_error_In; eassumption.
    + exists v. split; reflexivity.
  - intros H2 H3.
    destruct (confidenceVariation_range r3 H3) as (v & Hv & Hrange).
    destruct (pick_total r2 H2) as (a & Ha).
    split; [eauto|]. unfold Insight.performAiAnalysis. rewrite Ha, Hv.
    split; intros ->; [eauto|reflexivity].
Qed.

Lemma recommendation_confidence_clamped_witness :
  exists analysis r,
    Insight.performAiAnalysis 0.1 0.55 0.99 = Some (analysis, r)
    /\ Insight.confidence analysis = 82
    /\ irec_confidence r = 85
    /\ 75 <= irec_confidence r <= 99.
Proof.
  eexists _, _. split; [reflexivity|]. split; [reflexivity|]. split; [reflexivity|].
  exact (proj1 (proj2 (proj2
    (proj1 (recommendation_confidence_clamped 0.1 0.55 0.99 0 (Database.empty 0))
       _ _ eq_refl)))).
Defined.

(** ** Deactivating an alert *)

Import Scenario Server.

Lemma deactivate_row_other (id : Z) (a : Alert) :
  al_id a <> id -> Storage.deactivate_row id a = a.
Proof.
  intros H. unfold Storage.deactivate_row.
  destruct (Z.eqb_spec (al_id a) id); [contradiction|reflexivity].
Qed.

Lemma deactivateAlert_absent (id : Z) (d : Db) :
  (forall a, In a (alerts d) -> al_id a <> id) ->
  alerts (Storage.deactivateAlert id d) = alerts d.
Proof.
  intros H. unfold Storage.deactivateAlert. cbn [with_alerts alerts].
  induction (alerts d) as [|a l IH]; [reflexivity|].
  cbn [map]. rewrite deactivate_row_other by (apply H; now left).
  f_equal. apply IH. intros b Hb. apply H. now right.
Qed.

Lemma nth_error_snoc {A} (l : list A) (x : A) :
  nth_error (l ++ [x]) (List.length l) = Some x.
Proof. induction l; [reflexivity|assumption]. Qed.

Lemma remove_nth_snoc {A} (l : list A) (x : A) :
  remove_nth (List.length l) (l ++ [x]) = l.
Proof. induction l as [|y l IH]; [reflexivity|]. cbn. now rewrite IH. Qed.

(** A response that reports "not found", as the routes that have one send
    it: status 404. *)
Definition not_found (r : Response) : bool := res_status r =? 404.

(** The two turns of a DELETE /api/alerts/:id request: the handler runs to
    its [await], then the storage call settles. *)
Definition delete_alert (id now : Z) (o : Outcome) (w : World) : option World :=
  run [DeleteAlert id; Settle (List.length (tasks w)) now o] w.

(** C9, as stated, fails: deactivating alert 42 when no alert exists is
    answered with status 200 and [{success: true}], not with a "not found"
    result. *)
Lemma deactivate_absent_is_not_reported :
  exists w',
    delete_alert 42 1 Resolved (initial 0) = Some w'
    /\ responses w' = [{| res_status := 200; res_body := success |}]
    /\ existsb not_found (responses w') = false.
Proof. eexists. repeat split. Qed.

(** C9, amended: deactivating an id that no stored alert has is never
    answered "not found".  When the storage call resolves, the answer is the
    one of a successful deactivation, 200 [{success: true}]; when it
    rejects, 500; in both cases the stored alerts are unchanged. *)
Theorem deactivate_absent_alert (id now : Z) (o : Outcome) (w : World) :
  (forall a, In a (alerts (db w)) -> al_id a <> id) ->
  exists w',
    delete_alert id now o w = Some w'
    /\ alerts (db w') = alerts (db w)
    /\ responses w' = (responses w ++
         [match o with
          | Resolved => {| res_status := 200; res_body := success |}
          | Rejected => {| res_status := 500;
                           res_body := error "Failed to deactivate alert" |}
          end])%list
    /\ not_found (last (responses w') {| res_status := 0; res_body := success |}) = false.
Proof.
  intros H. unfold delete_alert, run, step, await.
  cbn [tasks set_tasks]. rewrite nth_error_snoc, remove_nth_snoc.
  destruct o.
  - eexists. split; [reflexivity|]. cbn. rewrite last_last.
    repeat split. now apply deactivateAlert_absent.
  - eexists. split; [reflexivity|]. cbn. rewrite last_last. repeat split.
Qed.

Lemma deactivate_absent_alert_witness :
  exists w',
    delete_alert 42 1 Resolved (initial 0) = Some w'
    /\ alerts (db w') = []
    /\ responses w' = [{| res_status := 200; res_body := success |}]
    /\ not_found (last (responses w') {| res_status := 0; res_body := success |}) = false.
Proof.
  exact (deactivate_absent_alert 42 1 Resolved (initial 0)
           (fun a (H : In a []) => match H with end)).
Defined.

(** ** The latest-value query *)

Section Grouped.
Import Storage.

Lemma grouped_get_set_same (g : Grouped) (k : string) (v : SensorData) :
  grouped_get (grouped_set g k v) k = Some v.
Proof.
  induction g as [|[k' v'] g IH]; cbn.
  - now rewrite String.eqb_refl.
  - destruct (String.eqb k' k) eqn:E; cbn; now rewrite E.
Qed.

Lemma grouped_get_set_other (g : Grouped) (k k' : string) (v : SensorData) :
  k' <> k -> grouped_get (grouped_set g k v) k' = grouped_get g k'.
Proof.
  intros Hk. induction g as [|[k0 v0] g IH]; cbn.
  - destruct (String.eqb_spec k k'); congruence.
  - destruct (String.eqb_spec k0 k) as [->|]; cbn.
    + destruct (String.eqb_spec k k'); congruence.
    + now rewrite IH.
Qed.

Lemma grouped_get_In (g : Grouped) (k : string) (v : SensorData) :
  grouped_get g k = Some v -> In (k, v) g.
Proof.
  induction g as [|[k' v'] g IH]; cbn; [discriminate|].
  destruct (String.eqb_spec k' k) as [->|].
  - intros [= ->]. now left.
  - intros H. right. now apply IH.
Qed.

Lemma grouped_In_get (g : Grouped) (k : string) (v : SensorData) :
  NoDup (map fst g) -> In (k, v) g -> grouped_get g k = Some v.
Proof.
  induction g as [|[k' v'] g IH]; cbn; [contradiction|].
  intros Hnd [[= -> ->]|Hin].
  - now rewrite String.eqb_refl.
  - inversion Hnd as [|? ? Hnotin Hnd']; subst.
    destruct (String.eqb_spec k' k) as [->|].
    + exfalso. apply Hnotin. change k with (fst (k, v)). now apply in_map.
    + now apply IH.
Qed.

Lemma grouped_set_keys (g : Grouped) (k : string) (v : SensorData) :
  map fst (grouped_set g k v)
  = match grouped_get g k with
    | Some _ => map fst g
    | None => (map fst g ++ [k])%list
    end.
Proof.
  induction g as [|[k' v'] g IH]; cbn; [reflexivity|].
  destruct (String.eqb_spec k' k) as [->|]; cbn; [reflexivity|].
  rewrite IH. now destruct (grouped_get g k).
Qed.

Lemma grouped_get_None_keys (g : Grouped) (k : string) :
  grouped_get g k = None -> ~ In k (map fst g).
Proof.
  induction g as [|[k' v'] g IH]; cbn; [tauto|].
  destruct (String.eqb_spec k' k) as [->|]; [discriminate|].
  intros H [E|Hin]; [congruence|]. now apply IH.
Qed.

Lemma grouped_set_NoDup (g : Grouped) (k : string) (v : SensorData) :
  NoDup (map fst g) -> NoDup (map fst (grouped_set g k v)).
Proof.
  intros Hnd. rewrite grouped_set_keys.
  destruct (grouped_get g k) eqn:E; [assumption|].
  apply NoDup_app; [assumption|repeat constructor; intros []|].
  intros x Hx [Ek|[]]. subst x. now apply (grouped_get_None_keys g k).
Qed.

(** Row [v] is, among the rows of [l] for its sensor, the first one that
    carries the greatest timestamp. *)
Definition first_latest (l : list SensorData) (v : SensorData) : Prop :=
  exists l1 l2,
    l = (l1 ++ v :: l2)%list
    /\ (forall r, In r l1 -> sd_nodeId r = sd_nodeId v ->
          sd_timestamp r < sd_timestamp v)
    /\ (forall r, In r l2 -> sd_nodeId r = sd_nodeId v ->
          sd_timestamp r <= sd_timestamp v).

Lemma first_latest_bound (l : list SensorData) (v r : SensorData) :
  first_latest l v -> In r l -> sd_nodeId r = sd_nodeId v ->
  sd_timestamp r <= sd_timestamp v.
Proof.
  intros (l1 & l2 & -> & H1 & H2) Hin Hid.
  apply in_app_or in Hin as [Hin|[<-|Hin]].
  - apply Z.lt_le_incl. now apply H1.
  - reflexivity.
  - now apply H2.
Qed.

Lemma first_latest_snoc (l : list SensorData) (v x : SensorData) :
  first_latest l v ->
  (sd_nodeId x = sd_nodeId v -> sd_timestamp x <= sd_timestamp v) ->
  first_latest (l ++ [x]) v.
Proof.
  intros (l1 & l2 & -> & H1 & H2) Hx.
  exists l1, (l2 ++ [x])%list. split; [|split; [assumption|]].
  - now rewrite <- app_assoc.
  - intros r Hin Hid. apply in_app_or in Hin as [Hin|[<-|[]]]; auto.
Qed.

(** What the [Map] holds after the [forEach] has visited the rows [l]. *)
Record grouped_inv (l : list SensorData) (g : Grouped) : Prop := {
  inv_keys : NoDup (map fst g);
  inv_latest : forall k v, grouped_get g k = Some v ->
                 sd_nodeId v = k /\ first_latest l v;
  inv_total : forall r, In r l -> grouped_get g (sd_nodeId r) <> None
}.

Lemma grouped_inv_step (l : list SensorData) (g : Grouped) (x : SensorData) :
  grouped_inv l g -> grouped_inv (l ++ [x]) (latest_step g x).
Proof.
  intros [Hk Hl Ht]. unfold latest_step.
  destruct (grouped_get g (sd_nodeId x)) as [existing|] eqn:E.
  - destruct (Hl _ _ E) as [Hid Hfirst].
    destruct (Z.ltb_spec (sd_timestamp existing) (sd_timestamp x)) as [Hlt|Hge].
    + split.
      * now apply grouped_set_NoDup.
      * intros k v. destruct (String.eqb_spec k (sd_nodeId x)) as [->|Hne].
        -- rewrite grouped_get_set_same. intros [= <-]. split; [reflexivity|].
           exists l, []. split; [reflexivity|]. split; [|intros ? []].
           intros r Hin Hr. eapply Z.le_lt_trans; [|exact Hlt].
           apply (first_latest_bound l); auto. congruence.
        -- rewrite grouped_get_set_other by assumption. intros Hg.
           destruct (Hl _ _ Hg) as [Hv Hf]. split; [assumption|].
           apply first_latest_snoc; [assumption|]. congruence.
      * intros r Hin. destruct (String.eqb_spec (sd_nodeId r) (sd_nodeId x)) as [->|Hne].
        -- now rewrite grouped_get_set_same.
        -- rewrite grouped_get_set_other by assumption.
           apply in_app_or in Hin as [Hin|[<-|[]]]; [now apply Ht|congruence].
    + split; [assumption| |].
      * intros k v Hg. destruct (Hl _ _ Hg) as [Hv Hf]. split; [assumption|].
        apply first_latest_snoc; [assumption|]. intros Hx.
        assert (v = existing) by congruence. subst v. exact Hge.
      * intros r Hin. apply in_app_or in Hin as [Hin|[<-|[]]]; [now apply Ht|].
        now rewrite E.
  - split.
    + now apply grouped_set_NoDup.
    + intros k v. destruct (String.eqb_spec k (sd_nodeId x)) as [->|Hne].
      * rewrite grouped_get_set_same. intros [= <-]. split; [reflexivity|].
        exists l, []. split; [reflexivity|]. split; [|intros ? []].
        intros r Hin Hr. exfalso. apply (Ht r Hin). now rewrite Hr.
      * rewrite grouped_get_set_other by assumption. intros Hg.
        destruct (Hl _ _ Hg) as [Hv Hf]. split; [assumption|].
        apply first_latest_snoc; [assumption|]. congruence.
    + intros r Hin. destruct (String.eqb_spec (sd_nodeId r) (sd_nodeId x)) as [->|Hne].
      * now rewrite grouped_get_set_same.
      * rewrite grouped_get_set_other by assumption.
        apply in_app_or in Hin as [Hin|[<-|[]]]; [now apply Ht|congruence].
Qed.

Lemma grouped_inv_fold (l : list SensorData) :
  grouped_inv l (fold_left latest_step l []).
Proof.
  induction l as [|x l IH] using rev_ind.
  - split; [constructor|discriminate|intros ? []].
  - rewrite fold_left_app. now apply grouped_inv_step.
Qed.

Lemma grouped_values_keys (l : list SensorData) (g : Grouped) :
  grouped_inv l g -> map sd_nodeId (map snd g) = map fst g.
Proof.
  intros [Hk Hl _]. rewrite map_map. apply map_ext_in.
  intros [k v] Hin. cbn. now apply Hl, grouped_In_get.
Qed.

Lemma latest_of_first_latest (l : list SensorData) (r : SensorData) :
  In r (latest_of l) -> first_latest l r.
Proof.
  unfold latest_of. intros Hin. apply in_map_iff in Hin as ([k v] & <- & Hin).
  destruct (grouped_inv_fold l) as [Hk Hl _].
  now apply (Hl k v), grouped_In_get.
Qed.

End Grouped.

(** C6: whatever rows the table holds, [getLatestSensorData] returns at most
    one reading per sensor identifier (and one for every identifier stored);
    the reading returned is a stored one whose timestamp no stored reading
    of that sensor exceeds, and among equal timestamps it is the first in
    insertion order. *)
Theorem latest_reading_per_sensor (d : Db) :
  NoDup (map sd_nodeId (Storage.getLatestSensorData d))
  /\ (forall r, In r (Storage.getLatestSensorData d) ->
        In r (sensorData d)
        /\ (forall r', In r' (sensorData d) -> sd_nodeId r' = sd_nodeId r ->
              sd_timestamp r' <= sd_timestamp r)
        /\ first_latest (sensorData d) r)
  /\ (forall r, In r (sensorData d) ->
        exists r', In r' (Storage.getLatestSensorData d)
                   /\ sd_nodeId r' = sd_nodeId r).
Proof.
  unfold Storage.getLatestSensorData.
  pose proof (grouped_inv_fold (sensorData d)) as Hinv.
  split; [|split].
  - unfold Storage.latest_of. rewrite (grouped_values_keys _ _ Hinv).
    apply (inv_keys _ _ Hinv).
  - intros r Hin. pose proof (latest_of_first_latest _ _ Hin) as Hf.
    split; [|split; [|assumption]].
    + destruct Hf as (l1 & l2 & -> & _). apply in_or_app. right. now left.
    + intros r' Hin' Hid. now apply (first_latest_bound (sensorData d)).
  - intros r Hin. pose proof (inv_total _ _ Hinv r Hin) as Hsome.
    destruct (Storage.grouped_get _ (sd_nodeId r)) as [v|] eqn:E; [|congruence].
    exists v. split.
    + unfold Storage.latest_of. apply in_map_iff. exists (sd_nodeId r, v).
      split; [reflexivity|]. now apply grouped_get_In.
    + now apply (inv_latest _ _ Hinv).
Qed.

(** ** Writing a reading and reading it back *)





(** ** The observer hand-shake *)

Definition no_socket : Socket := {| ws_open := false; ws_received := [] |}.

(** The [initial_data] messages socket [n] has received. *)
Definition initials (n : nat) (w : World) : nat :=
  List.length (filter is_initial_data (ws_received (nth n (sockets w) no_socket))).

(** [k] is a program point of [sendLatestData(ws)] for [ws = n]. *)
Definition sends_to (n : nat) (k : Kont) : bool :=
  match k with
  | send_sensorData ws | send_alerts ws _ | send_recommendations ws _ _
  | send_logs ws _ _ _ | send_serverConnections ws _ _ _ _ => Nat.eqb ws n
  | _ => false
  end.

Definition is_send (k : Kont) : bool :=
  match k with
  | send_sensorData _ | send_alerts _ _ | send_recommendations _ _ _
  | send_logs _ _ _ _ | send_serverConnections _ _ _ _ _ => true
  | _ => false
  end.

(** The hand-shakes for socket [n] that are under way. *)
Definition pending (n : nat) (ts : list Task) : nat :=
  List.length (filter (fun t => sends_to n (snd t)) ts).

Lemma sends_to_is_send (n : nat) (k : Kont) : is_send k = false -> sends_to n k = false.
Proof. now destruct k. Qed.

Lemma pending_snoc (n : nat) (ts : list Task) (t : Task) :
  pending n (ts ++ [t]) = (pending n ts + if sends_to n (snd t) then 1 else 0)%nat.
Proof.
  unfold pending. rewrite filter_app, length_app. cbn.
  now destruct (sends_to n (snd t)).
Qed.

Lemma pending_remove (n i : nat) (ts : list Task) (t : Task) :
  nth_error ts i = Some t ->
  pending n ts
  = (pending n (remove_nth i ts) + if sends_to n (snd t) then 1 else 0)%nat.
Proof.
  revert i. induction ts as [|x ts IH]; intros [|i]; cbn; try discriminate.
  - intros [= ->]. unfold pending. cbn. destruct (sends_to n (snd t)); cbn; lia.
  - intros H. specialize (IH i H). unfold pending in *. cbn.
    destruct (sends_to n (snd x)); cbn; lia.
Qed.

(** Two worlds an observer cannot tell apart by its snapshots: the same
    sockets, as many [initial_data] received, as many hand-shakes under
    way. *)
Definition same_view (w w' : World) : Prop :=
  List.length (sockets w') = List.length (sockets w)
  /\ (forall n, initials n w' = initials n w)
  /\ (forall n, pending n (tasks w') = pending n (tasks w)).

Lemma same_view_refl (w : World) : same_view w w.
Proof. now repeat split. Qed.

Lemma same_view_trans (w1 w2 w3 : World) :
  same_view w1 w2 -> same_view w2 w3 -> same_view w1 w3.
Proof.
  intros (H1 & H2 & H3) (H4 & H5 & H6). repeat split; intros; congruence.
Qed.

Lemma same_view_set_db (d : Db) (w w1 : World) :
  same_view w w1 -> same_view w (set_db d w1).
Proof. intros H. exact H. Qed.

Lemma same_view_set_mgr (m : Manager) (w w1 : World) :
  same_view w w1 -> same_view w (set_mgr m w1).
Proof. intros H. exact H. Qed.

Lemma same_view_set_timers (t : list (nat * Z)) (n : nat) (w w1 : World) :
  same_view w w1 -> same_view w (set_timers t n w1).
Proof. intros H. exact H. Qed.

Lemma same_view_respond (st : Z) (b : Body) (w w1 : World) :
  same_view w w1 -> same_view w (respond st b w1).
Proof. intros H. exact H. Qed.

Lemma same_view_fault (what : string) (w w1 : World) :
  same_view w w1 -> same_view w (fault what w1).
Proof. intros H. exact H. Qed.

Lemma same_view_await (c : Call) (k : Kont) (w w1 : World) :
  is_send k = false -> same_view w w1 -> same_view w (await c k w1).
Proof.
  intros Hk (H1 & H2 & H3). repeat split; try assumption.
  intros n. cbn [await tasks set_tasks]. rewrite pending_snoc. cbn [snd].
  rewrite (sends_to_is_send _ _ Hk), <- H3. lia.
Qed.

Lemma length_update_nth {A} (n : nat) (f : A -> A) (l : list A) :
  List.length (update_nth n f l) = List.length l.
Proof.
  revert n. induction l as [|x l IH]; intros [|n]; cbn; auto.
Qed.

Lemma nth_update_nth {A} (n k : nat) (f : A -> A) (l : list A) (d : A) :
  nth n (update_nth k f l) d
  = if Nat.eqb n k && Nat.ltb n (List.length l) then f (nth n l d) else nth n l d.
Proof.
  revert n k. induction l as [|x l IH]; intros [|n] [|k]; cbn;
    rewrite ?andb_false_r; try reflexivity.
  rewrite IH. reflexivity.
Qed.

Lemma initial_count_send (m : Message) (s : Socket) :
  is_initial_data m = false ->
  filter is_initial_data (ws_received (send_if_open m s))
  = filter is_initial_data (ws_received s).
Proof.
  intros Hm. unfold send_if_open. destruct (ws_open s); [|reflexivity].
  cbn. rewrite filter_app. cbn. rewrite Hm. apply app_nil_r.
Qed.

Lemma broadcast_sockets (m : Message) (cs : list nat) (ss : list Socket) :
  is_initial_data m = false ->
  let ss' := fold_left (fun s ws => update_nth ws (send_if_open m) s) cs ss in
  List.length ss' = List.length ss
  /\ forall n, filter is_initial_data (ws_received (nth n ss' no_socket))
               = filter is_initial_data (ws_received (nth n ss no_socket)).
Proof.
  intros Hm. revert ss. induction cs as [|c cs IH]; intros ss; cbn.
  - now split.
  - destruct (IH (update_nth c (send_if_open m) ss)) as [Hlen Hnth]. split.
    + rewrite Hlen. apply length_update_nth.
    + intros n. rewrite Hnth, nth_update_nth.
      destruct (_ && _); [|reflexivity]. now apply initial_count_send.
Qed.

Lemma same_view_broadcast (m : Message) (w w1 : World) :
  is_initial_data m = false -> same_view w w1 -> same_view w (broadcast m w1).
Proof.
  intros Hm (H1 & H2 & H3).
  destruct (broadcast_sockets m (clients w1) (sockets w1) Hm) as [Hlen Hnth].
  repeat split.
  - cbn. now rewrite Hlen.
  - intros n. rewrite <- H2. unfold initials. cbn. now rewrite Hnth.
  - exact H3.
Qed.

Ltac same_view :=
  repeat first
    [ assumption
    | apply same_view_set_db | apply same_view_set_mgr
    | apply same_view_set_timers | apply same_view_respond
    | apply same_view_fault
    | apply same_view_await; [reflexivity|]
    | apply same_view_broadcast; [reflexivity|] ].

Lemma same_view_stopScenario (a : bool) (w w1 : World) :
  same_view w w1 -> same_view w (stopScenario a w1).
Proof.
  intros H. unfold stopScenario.
  destruct (activeScenario (mgr w1)); [|destruct a; same_view].
  destruct (phaseTimer (mgr w1)); same_view.
Qed.

Lemma same_view_completeScenario (w w1 : World) :
  same_view w w1 -> same_view w (completeScenario w1).
Proof.
  intros H. unfold completeScenario.
  destruct (activeScenario (mgr w1)); same_view.
Qed.

Lemma same_view_executeCurrentPhase (w w1 : World) :
  same_view w w1 -> same_view w (executeCurrentPhase w1).
Proof.
  intros H. unfold executeCurrentPhase.
  destruct (activeScenario (mgr w1)) as [s|];
    [destruct (nth_error _ _)|]; same_view;
    now apply same_view_completeScenario.
Qed.

Lemma same_view_exec_recommend (p : ScenarioPhase) (w w1 : World) :
  same_view w w1 -> same_view w (exec_recommend p w1).
Proof.
  intros H. unfold exec_recommend. destruct (activeScenario (mgr w1)); same_view.
Qed.

Lemma same_view_exec_alerts (p : ScenarioPhase) (l : list AlertCondition)
    (w w1 : World) :
  same_view w w1 -> same_view w (exec_alerts p l w1).
Proof.
  intros H. destruct l; cbn; same_view. now apply same_view_exec_recommend.
Qed.

Lemma same_view_exec_modifications (p : ScenarioPhase)
    (l : list SensorModification) (w w1 : World) :
  same_view w w1 -> same_view w (exec_modifications p l w1).
Proof.
  intros H. destruct l; cbn; same_view. now apply same_view_exec_alerts.
Qed.

Lemma same_view_startScenario (id : string) (now : Z) (w w1 : World) :
  same_view w w1 -> same_view w (startScenario id now w1).
Proof.
  intros H. unfold startScenario. destruct (find _ _); same_view.
  destruct (activeScenario (mgr w1)); same_view.
  now apply same_view_stopScenario.
Qed.

Lemma same_view_spawn_generators (random : nat -> float) (i : nat)
    (cs : list SensorConfig) (w w1 : World) :
  same_view w w1 -> same_view w (spawn_generators random i cs w1).
Proof.
  revert i w1. induction cs as [|c cs IH]; intros i w1 H; cbn; [assumption|].
  apply IH. same_view.
Qed.

Lemma same_view_resolve (k : Kont) (r : Reply) (w : World) :
  is_send k = false -> same_view w (resolve k r w).
Proof.
  intros Hk. pose proof (same_view_refl w) as H.
  destruct k; try discriminate Hk; destruct r; cbn [resolve];
    repeat match goal with
           | |- context [if ?b then _ else _] => destruct b
           | |- context [match activeScenario ?m with _ => _ end] =>
               destruct (activeScenario m)
           end;
    same_view;
    first [ apply same_view_executeCurrentPhase
          | apply same_view_exec_modifications
          | apply same_view_exec_alerts
          | unfold setPhaseTimer ];
    same_view.
Qed.

Lemma same_view_reject (k : Kont) (w : World) : same_view w (reject k w).
Proof.
  pose proof (same_view_refl w) as H.
  destruct k; cbn; same_view. destruct awaited; same_view.
Qed.


(** Per socket: an [initial_data] already received and a hand-shake under
    way exclude each other, and there is at most one of either; no
    hand-shake is under way for a socket that does not exist yet. *)
Definition handshake_inv (w : World) : Prop :=
  forall n,
    (initials n w + pending n (tasks w) <= 1)%nat
    /\ (List.length (sockets w) <= n -> pending n (tasks w) = 0)%nat.

Lemma handshake_inv_same_view (w w' : World) :
  same_view w w' -> handshake_inv w -> handshake_inv w'.
Proof.
  intros (H1 & H2 & H3) Hinv n. rewrite H1, H2, H3. apply Hinv.
Qed.

Lemma handshake_inv_remove (i : nat) (t : Task) (w : World) :
  nth_error (tasks w) i = Some t ->
  handshake_inv w -> handshake_inv (set_tasks (remove_nth i (tasks w)) w).
Proof.
  intros Hi Hinv n. destruct (Hinv n) as [H1 H2].
  pose proof (pending_remove n i _ _ Hi) as Hp.
  unfold initials in *. cbn [tasks sockets set_tasks]. split; lia.
Qed.

Lemma handshake_inv_connection (w : World) :
  handshake_inv w -> handshake_inv (connection w).
Proof.
  intros Hinv n. destruct (Hinv n) as [H1 H2].
  unfold connection, initials. cbn [await tasks sockets set_tasks set_sockets].
  rewrite pending_snoc, length_app. cbn [snd sends_to List.length].
  destruct (Nat.eqb_spec (List.length (sockets w)) n) as [<-|Hne].
  - rewrite nth_middle. cbn. rewrite H2 by lia. split; lia.
  - destruct (Nat.lt_ge_cases n (List.length (sockets w))) as [Hlt|Hge].
    + rewrite app_nth1 by assumption. fold (initials n w). split; lia.
    + rewrite nth_overflow by (rewrite length_app; cbn; lia). cbn.
      rewrite H2 by lia. split; lia.
Qed.

Lemma handshake_inv_close (ws : nat) (w w' : World) :
  close ws w = Some w' -> handshake_inv w -> handshake_inv w'.
Proof.
  unfold close. destruct (nth_error (sockets w) ws) as [s|]; [|discriminate].
  destruct (ws_open s); [|discriminate]. intros [= <-].
  apply handshake_inv_same_view. repeat split.
  - cbn. apply length_update_nth.
  - intros n. unfold initials. cbn. rewrite nth_update_nth.
    now destruct (_ && _).
Qed.

(** The task taken off the list was the one hand-shake of socket [ws]. *)
Lemma handshake_inv_taken (i ws : nat) (c : Call) (k : Kont) (w : World) :
  nth_error (tasks w) i = Some (c, k) -> sends_to ws k = true ->
  handshake_inv w ->
  let w0 := set_tasks (remove_nth i (tasks w)) w in
  handshake_inv w0 /\ initials ws w0 = 0%nat /\ pending ws (tasks w0) = 0%nat
  /\ (ws < List.length (sockets w0))%nat.
Proof.
  intros Hi Hk Hinv w0. split; [now apply (handshake_inv_remove i (c, k))|].
  destruct (Hinv ws) as [H1 H2].
  pose proof (pending_remove ws i _ _ Hi) as Hp. cbn [snd] in Hp. rewrite Hk in Hp.
  unfold w0, initials in *. cbn [tasks sockets set_tasks]. repeat split; lia.
Qed.

Lemma handshake_inv_next (ws : nat) (c : Call) (k : Kont) (w : World) :
  (forall n, sends_to n k = Nat.eqb ws n) ->
  handshake_inv w -> pending ws (tasks w) = 0%nat ->
  (ws < List.length (sockets w))%nat -> initials ws w = 0%nat ->
  handshake_inv (await c k w).
Proof.
  intros Hk Hinv Hp Hlt Hi n. destruct (Hinv n) as [H1 H2].
  unfold initials in *. cbn [await tasks sockets set_tasks].
  rewrite pending_snoc. cbn [snd]. rewrite Hk.
  destruct (Nat.eqb_spec ws n) as [<-|Hne]; split; lia.
Qed.

Lemma handshake_inv_deliver (ws : nat) (m : Message) (w : World) :
  handshake_inv w -> pending ws (tasks w) = 0%nat -> initials ws w = 0%nat ->
  handshake_inv
    (set_sockets (update_nth ws (send_if_open m) (sockets w)) (clients w) w).
Proof.
  intros Hinv Hp Hi n. destruct (Hinv n) as [H1 H2].
  unfold initials in *. cbn [tasks sockets set_sockets].
  rewrite length_update_nth, nth_update_nth.
  destruct (Nat.eqb_spec n ws) as [->|Hne]; cbn [andb]; [|split; lia].
  destruct (Nat.ltb _ _); [|split; lia].
  split; [|lia]. rewrite Hp.
  unfold send_if_open. destruct (ws_open _); [|lia].
  cbn. rewrite filter_app, length_app, Hi.
  cbn. destruct (is_initial_data m); cbn; lia.
Qed.

Lemma handshake_inv_settle_send (k : Kont) (r : Reply) (ws : nat) (w : World) :
  sends_to ws k = true ->
  handshake_inv w -> pending ws (tasks w) = 0%nat ->
  (ws < List.length (sockets w))%nat -> initials ws w = 0%nat ->
  handshake_inv (resolve k r w).
Proof.
  intros Hk Hinv Hp Hlt Hi.
  destruct k; try discriminate Hk; cbn [sends_to] in Hk;
    apply Nat.eqb_eq in Hk; subst ws0; destruct r; cbn [resolve];
    try assumption;
    try (apply (handshake_inv_next ws); auto; intros n; reflexivity).
  now apply handshake_inv_deliver.
Qed.

Lemma sends_to_some (k : Kont) : is_send k = true -> exists ws, sends_to ws k = true.
Proof.
  destruct k; try discriminate; intros _; exists ws; cbn; apply Nat.eqb_refl.
Qed.

Lemma some_eq {A} (a b : A) : Some a = Some b -> a = b.
Proof. now intros [= ->]. Qed.

Lemma handshake_inv_step (l : Label) (w w' : World) :
  step l w = Some w' -> handshake_inv w -> handshake_inv w'.
Proof.
  pose proof (same_view_refl w) as Hrefl.
  destruct l; cbn [step].
  - intros <-%some_eq. apply handshake_inv_connection.
  - apply handshake_inv_close.
  - intros <-%some_eq. apply handshake_inv_same_view.
    now apply same_view_spawn_generators.
  - destruct (Insight.performAiAnalysis r1 r2 r3) as [[a r]|]; intros <-%some_eq;
      [|trivial].
    apply handshake_inv_same_view. now apply same_view_await.
  - intros <-%some_eq. apply handshake_inv_same_view. now apply same_view_await.
  - intros <-%some_eq. apply handshake_inv_same_view.
    now apply same_view_startScenario.
  - intros <-%some_eq. apply handshake_inv_same_view.
    now apply same_view_stopScenario.
  - destruct (existsb _ _); [|discriminate]. intros <-%some_eq.
    apply handshake_inv_same_view. unfold phaseTimerFires.
    apply same_view_executeCurrentPhase. exact Hrefl.
  - destruct (nth_error (tasks w) task) as [[c k]|] eqn:Hi; [|discriminate].
    intros Hstep Hinv.
    destruct (is_send k) eqn:Hk.
    + destruct (sends_to_some k Hk) as [ws Hws].
      destruct (handshake_inv_taken _ _ _ _ _ Hi Hws Hinv) as (H0 & Hi0 & Hp0 & Hlt).
      destruct o.
      * destruct (perform now c _) as [r d]. apply some_eq in Hstep as <-.
        now apply (handshake_inv_settle_send k r ws).
      * apply some_eq in Hstep as <-.
        apply (handshake_inv_same_view _ _ (same_view_reject k _)). exact H0.
    + pose proof (handshake_inv_remove _ _ _ Hi Hinv) as H0.
      destruct o.
      * destruct (perform now c _) as [r d]. apply some_eq in Hstep as <-.
        apply (handshake_inv_same_view _ _ (same_view_resolve k r _ Hk)). exact H0.
      * apply some_eq in Hstep as <-.
        apply (handshake_inv_same_view _ _ (same_view_reject k _)). exact H0.
Qed.

Lemma handshake_inv_run (ls : list Label) (w w' : World) :
  run ls w = Some w' -> handshake_inv w -> handshake_inv w'.
Proof.
  revert w. induction ls as [|l ls IH]; intros w; cbn [run].
  - now intros [= <-].
  - destruct (step l w) as [w1|] eqn:Hs; [|discriminate].
    intros Hr Hinv. apply (IH w1 Hr). now apply (handshake_inv_step l w).
Qed.

Lemma handshake_inv_initial (now : Z) : handshake_inv (initial now).
Proof. intros n. unfold initials. cbn. destruct n; cbn; split; lia. Qed.





(** Every sensor draws 0.5: each generated value is its base value. *)
Definition steady (_ : nat) : float := 0.5%float.





(** ** Raising alerts *)

(** The active alerts stored for sensor [nodeId]. *)
Definition active_for (nodeId : string) (d : Db) : nat :=
  List.length (filter (isActiveAlertOf nodeId) (alerts d)).

(** The sensor on whose behalf a task runs: the configuration of a pending
    breach evaluation, or the sensor named by a pending insert into
    [alerts]. *)
Definition owner (t : Task) : option string :=
  match t with
  | (createAlert a, _) => ial_sensorNodeId a
  | (_, gen_created config _) => Some (cfg_nodeId config)
  | (_, gen_checked config _ _) => Some (cfg_nodeId config)
  | _ => None
  end.

Definition owners (ts : list Task) : list string :=
  flat_map (fun t => match owner t with Some n => [n] | None => [] end) ts.

(** No evaluation of the sample generator is under way. *)
Definition idle (w : World) : bool :=
  forallb (fun t => match owner t with Some _ => false | None => true end) (tasks w).

(** Executions in which the generator ticks only when the evaluations of
    the previous tick are over: two evaluations of one sensor never overlap;
    evaluations of different sensors, and everything else, interleave
    freely. *)
Fixpoint run_unoverlapped (ls : list Label) (w : World) : option World :=
  match ls with
  | [] => Some w
  | l :: ls' =>
      if match l with GenerateSensorData _ => idle w | _ => true end
      then match step l w with
           | Some w' => run_unoverlapped ls' w'
           | None => None
           end
      else None
  end.

(** Two worlds with the same stored alerts, the second one with more tasks,
    none of them with an owner. *)
Definition calm (w w' : World) : Prop :=
  db w' = db w
  /\ exists new, tasks w' = (tasks w ++ new)%list /\ owners new = [].

Lemma calm_refl (w : World) : calm w w.
Proof. split; [reflexivity|]. exists []. now rewrite app_nil_r. Qed.

Lemma calm_set_mgr (m : Manager) (w w1 : World) : calm w w1 -> calm w (set_mgr m w1).
Proof. intros H. exact H. Qed.

Lemma calm_set_timers (t : list (nat * Z)) (n : nat) (w w1 : World) :
  calm w w1 -> calm w (set_timers t n w1).
Proof. intros H. exact H. Qed.

Lemma calm_set_sockets (s : list Socket) (c : list nat) (w w1 : World) :
  calm w w1 -> calm w (set_sockets s c w1).
Proof. intros H. exact H. Qed.

Lemma calm_respond (st : Z) (b : Body) (w w1 : World) :
  calm w w1 -> calm w (respond st b w1).
Proof. intros H. exact H. Qed.

Lemma calm_fault (what : string) (w w1 : World) : calm w w1 -> calm w (fault what w1).
Proof. intros H. exact H. Qed.

Lemma calm_broadcast (m : Message) (w w1 : World) :
  calm w w1 -> calm w (broadcast m w1).
Proof. intros H. exact H. Qed.

Lemma owners_app (l1 l2 : list Task) : owners (l1 ++ l2) = (owners l1 ++ owners l2)%list.
Proof. apply flat_map_app. Qed.

Lemma calm_await (c : Call) (k : Kont) (w w1 : World) :
  owner (c, k) = None -> calm w w1 -> calm w (await c k w1).
Proof.
  intros Ho (Hd & new & Ht & Hn). split; [exact Hd|].
  exists (new ++ [(c, k)])%list. cbn [await tasks set_tasks].
  rewrite Ht, app_assoc. split; [reflexivity|].
  rewrite owners_app, Hn. unfold owners. cbn [flat_map]. now rewrite Ho.
Qed.

Ltac calm :=
  repeat first
    [ assumption
    | apply calm_set_mgr | apply calm_set_timers | apply calm_set_sockets
    | apply calm_respond | apply calm_fault | apply calm_broadcast
    | apply calm_await; [reflexivity|] ].

Lemma calm_stopScenario (a : bool) (w w1 : World) :
  calm w w1 -> calm w (stopScenario a w1).
Proof.
  intros H. unfold stopScenario.
  destruct (activeScenario (mgr w1)); [|destruct a; calm].
  destruct (phaseTimer (mgr w1)); calm.
Qed.

Lemma calm_completeScenario (w w1 : World) :
  calm w w1 -> calm w (completeScenario w1).
Proof.
  intros H. unfold completeScenario. destruct (activeScenario (mgr w1)); calm.
Qed.

Lemma calm_executeCurrentPhase (w w1 : World) :
  calm w w1 -> calm w (executeCurrentPhase w1).
Proof.
  intros H. unfold executeCurrentPhase.
  destruct (activeScenario (mgr w1)) as [s|];
    [destruct (nth_error _ _)|]; calm; now apply calm_completeScenario.
Qed.

Lemma calm_exec_recommend (p : ScenarioPhase) (w w1 : World) :
  calm w w1 -> calm w (exec_recommend p w1).
Proof.
  intros H. unfold exec_recommend. destruct (activeScenario (mgr w1)); calm.
Qed.

Lemma calm_exec_alerts (p : ScenarioPhase) (l : list AlertCondition) (w w1 : World) :
  calm w w1 -> calm w (exec_alerts p l w1).
Proof.
  intros H. destruct l; cbn [exec_alerts]; calm. now apply calm_exec_recommend.
Qed.

Lemma calm_exec_modifications (p : ScenarioPhase) (l : list SensorModification)
    (w w1 : World) :
  calm w w1 -> calm w (exec_modifications p l w1).
Proof.
  intros H. destruct l; cbn [exec_modifications]; calm. now apply calm_exec_alerts.
Qed.

Lemma calm_startScenario (id : string) (now : Z) (w w1 : World) :
  calm w w1 -> calm w (startScenario id now w1).
Proof.
  intros H. unfold startScenario. destruct (find _ _); calm.
  destruct (activeScenario (mgr w1)); calm. now apply calm_stopScenario.
Qed.

(** [k] is a program point of the generator that may go on to an insert. *)
Definition is_evaluation (k : Kont) : bool :=
  match k with
  | gen_created _ _ | gen_checked _ _ _ => true
  | _ => false
  end.

Lemma calm_resolve (k : Kont) (r : Reply) (w : World) :
  is_evaluation k = false -> calm w (resolve k r w).
Proof.
  intros Hk. pose proof (calm_refl w) as H.
  destruct k; try discriminate Hk; destruct r; cbn [resolve];
    repeat match goal with
           | |- context [if ?b then _ else _] => destruct b
           | |- context [match activeScenario ?m with _ => _ end] =>
               destruct (activeScenario m)
           end;
    calm;
    first [ apply calm_executeCurrentPhase
          | apply calm_exec_modifications
          | apply calm_exec_alerts
          | unfold setPhaseTimer ];
    calm.
Qed.

Lemma calm_reject (k : Kont) (w : World) : calm w (reject k w).
Proof.
  pose proof (calm_refl w) as H.
  destruct k; cbn [reject]; calm. destruct awaited; calm.
Qed.

Lemma In_insert_desc {A} (key : A -> Z) (x y : A) (l : list A) :
  In y (insert_desc key x l) <-> y = x \/ In y l.
Proof.
  induction l as [|z l IH]; cbn.
  - intuition congruence.
  - destruct (key z <=? key x); cbn; [intuition congruence|].
    rewrite IH. intuition congruence.
Qed.

Lemma In_orderBy_desc {A} (key : A -> Z) (y : A) (l : list A) :
  In y (orderBy_desc key l) <-> In y l.
Proof.
  unfold orderBy_desc. induction l as [|x l IH]; cbn; [tauto|].
  rewrite In_insert_desc, IH. intuition congruence.
Qed.

Lemma isActiveAlertOf_active (n : string) (a : Alert) :
  isActiveAlertOf n a = true -> al_isActive a = true.
Proof.
  unfold isActiveAlertOf. destruct (al_sensorNodeId a); [|discriminate].
  now intros [_ H]%andb_prop.
Qed.

(** The check of the generator answers for the whole table. *)
Lemma hasActiveAlert_none (n : string) (d : Db) :
  hasActiveAlert (Storage.getActiveAlerts d) n = false -> active_for n d = 0%nat.
Proof.
  unfold hasActiveAlert, Storage.getActiveAlerts, active_for. intros H.
  assert (Hall : forall a, In a (alerts d) -> isActiveAlertOf n a = false).
  { intros a Hin. destruct (isActiveAlertOf n a) eqn:E; [|reflexivity].
    rewrite <- H. symmetry. apply existsb_exists. exists a. split; [|exact E].
    apply (proj2 (In_orderBy_desc _ _ _)), filter_In. split; [exact Hin|].
    now apply (isActiveAlertOf_active n). }
  clear H. revert Hall. generalize (alerts d) as l.
  induction l as [|a l IH]; intros Hall; [reflexivity|].
  cbn. rewrite (Hall a) by now left. apply IH. intros b Hb. apply Hall. now right.
Qed.

Lemma length_filter_snoc {A} (f : A -> bool) (l : list A) (x : A) :
  List.length (filter f (l ++ [x]))
  = (List.length (filter f l) + if f x then 1 else 0)%nat.
Proof. rewrite filter_app, length_app. cbn. now destruct (f x). Qed.

Lemma active_for_createAlert (now : Z) (a : InsertAlert) (d : Db) (n : string) :
  let d' := snd (Storage.createAlert now a d) in
  (ial_sensorNodeId a <> Some n -> active_for n d' = active_for n d)
  /\ (active_for n d' <= active_for n d + 1)%nat.
Proof.
  unfold active_for. cbn [Storage.createAlert snd alerts with_alerts].
  rewrite length_filter_snoc.
  set (row := {| al_id := alerts_seq d; al_sensorNodeId := ial_sensorNodeId a;
                 al_alertType := ial_alertType a; al_message := ial_message a;
                 al_isActive := match ial_isActive a with
                                | Some b => b
                                | None => true
                                end;
                 al_timestamp := now |}).
  split; [|destruct (isActiveAlertOf n row); lia].
  intros Hne. replace (isActiveAlertOf n row) with false; [lia|].
  unfold isActiveAlertOf, row. cbn [al_sensorNodeId].
  destruct (ial_sensorNodeId a) as [m|]; [|reflexivity].
  destruct (String.eqb_spec m n) as [->|]; [congruence|reflexivity].
Qed.

Lemma active_for_deactivateAlert (id : Z) (d : Db) (n : string) :
  (active_for n (Storage.deactivateAlert id d) <= active_for n d)%nat.
Proof.
  unfold active_for. cbn. induction (alerts d) as [|a l IH]; [reflexivity|].
  cbn. unfold Storage.deactivate_row at 1.
  destruct (al_id a =? id).
  - unfold isActiveAlertOf at 1. cbn. destruct (al_sensorNodeId a).
    + rewrite andb_false_r. destruct (isActiveAlertOf n a); cbn; lia.
    + destruct (isActiveAlertOf n a); cbn; lia.
  - destruct (isActiveAlertOf n a); cbn; lia.
Qed.

(** What a storage call does to the active alerts of sensor [n]. *)
Lemma active_for_perform (now : Z) (c : Call) (d : Db) (n : string) :
  let d' := snd (perform now c d) in
  match c with
  | createAlert a =>
      (ial_sensorNodeId a <> Some n -> active_for n d' = active_for n d)
      /\ (active_for n d' <= active_for n d + 1)%nat
  | _ => (active_for n d' <= active_for n d)%nat
  end.
Proof.
  destruct c; cbn [perform snd]; try reflexivity.
  - apply (active_for_createAlert now alert d n).
  - apply active_for_deactivateAlert.
Qed.

Lemma owner_In (t : Task) (ts : list Task) (n : string) :
  In t ts -> owner t = Some n -> In n (owners ts).
Proof.
  intros Hin Ho. unfold owners. apply in_flat_map. exists t.
  split; [exact Hin|]. rewrite Ho. now left.
Qed.

Lemma nth_error_remove_nth {A} (i : nat) (l : list A) (x : A) :
  nth_error l i = Some x ->
  exists l1 l2, l = (l1 ++ x :: l2)%list /\ remove_nth i l = (l1 ++ l2)%list.
Proof.
  revert i. induction l as [|y l IH]; intros [|i]; cbn; try discriminate.
  - intros [= ->]. now exists [], l.
  - intros H. destruct (IH i H) as (l1 & l2 & -> & Hr).
    exists (y :: l1), l2. cbn. now rewrite Hr.
Qed.

(** At most one active alert per sensor; a pending insert for a sensor
    finds none; no two tasks run for the same sensor. *)
Record alert_inv (w : World) : Prop := {
  ai_unique : forall n, (active_for n (db w) <= 1)%nat;
  ai_insert : forall a k n, In (createAlert a, k) (tasks w) ->
                ial_sensorNodeId a = Some n -> active_for n (db w) = 0%nat;
  ai_owners : NoDup (owners (tasks w))
}.

Lemma alert_inv_calm (w w' : World) : calm w w' -> alert_inv w -> alert_inv w'.
Proof.
  intros (Hd & new & Ht & Hn) [H1 H2 H3]. split.
  - now rewrite Hd.
  - intros a k n Hin Ha. rewrite Hd. rewrite Ht in Hin.
    apply in_app_or in Hin as [Hin|Hin]; [now apply (H2 a k)|].
    exfalso. pose proof (owner_In _ _ n Hin Ha) as Ho. now rewrite Hn in Ho.
  - now rewrite Ht, owners_app, Hn, app_nil_r.
Qed.

(** A task with owner [n] joins, no other task running for [n]. *)
Lemma alert_inv_await (c : Call) (k : Kont) (n : string) (w : World) :
  alert_inv w -> ~ In n (owners (tasks w)) -> owner (c, k) = Some n ->
  (forall a, c = createAlert a -> active_for n (db w) = 0%nat) ->
  alert_inv (await c k w).
Proof.
  intros [H1 H2 H3] Hn Ho Hc. split; cbn [await tasks db set_tasks].
  - exact H1.
  - intros a k' m Hin Ha. apply in_app_or in Hin as [Hin|[[= -> ->]|[]]].
    + now apply (H2 a k').
    + cbn in Ho. assert (m = n) by congruence. subst m. now apply (Hc a).
  - rewrite owners_app. unfold owners at 2. cbn [flat_map]. rewrite Ho. cbn.
    apply NoDup_app; [exact H3|repeat constructor; intros []|].
    intros x Hx [<-|[]]. contradiction.
Qed.

Lemma owners_middle (l1 l2 : list Task) (t : Task) :
  owners (l1 ++ t :: l2)
  = (owners l1 ++ match owner t with Some n => [n] | None => [] end ++ owners l2)%list.
Proof. rewrite owners_app. reflexivity. Qed.

(** Task [t] leaves the list and its call [c] is performed. *)
Lemma alert_inv_perform (now : Z) (c : Call) (k : Kont) (l1 l2 : list Task)
    (w : World) :
  tasks w = (l1 ++ (c, k) :: l2)%list -> alert_inv w ->
  let w1 := set_db (snd (perform now c (db w))) (set_tasks (l1 ++ l2) w) in
  alert_inv w1
  /\ forall n, owner (c, k) = Some n -> ~ In n (owners (tasks w1)).
Proof.
  intros Ht [H1 H2 H3] w1.
  rewrite Ht, owners_middle in H3.
  assert (Hfresh : forall n, owner (c, k) = Some n -> ~ In n (owners (l1 ++ l2))).
  { intros n Ho. rewrite Ho in H3. cbn in H3. rewrite owners_app.
    now apply NoDup_remove_2. }
  assert (Hnd : NoDup (owners (l1 ++ l2))).
  { rewrite owners_app. destruct (owner (c, k)); [|exact H3].
    cbn in H3. now apply NoDup_remove_1 in H3. }
  split; [|exact Hfresh]. split; cbn [w1 db tasks set_db set_tasks].
  - intros n. pose proof (active_for_perform now c (db w) n) as Hp.
    specialize (H1 n). destruct c; cbn zeta in Hp; try lia.
    destruct Hp as [Hsame Hle].
    destruct (ial_sensorNodeId alert) as [m|] eqn:Em.
    + destruct (String.eqb_spec m n) as [->|Hne].
      * assert (active_for n (db w) = 0%nat).
        { apply (H2 alert k); [|exact Em]. rewrite Ht. apply in_elt. }
        lia.
      * rewrite Hsame by congruence. exact H1.
    + rewrite Hsame by congruence. exact H1.
  - intros a k' n Hin Ha.
    assert (H0 : active_for n (db w) = 0%nat).
    { apply (H2 a k'); [|exact Ha]. rewrite Ht.
      apply in_app_or in Hin as [Hin|Hin]; apply in_or_app;
        [now left|right; now right]. }
    pose proof (active_for_perform now c (db w) n) as Hp.
    destruct c; cbn zeta in Hp; try lia.
    destruct Hp as [Hsame _]. rewrite Hsame; [exact H0|].
    intros Hc. apply (Hfresh n Hc). now apply (owner_In (createAlert a, k')).
  - exact Hnd.
Qed.

(** Only a read of the active alerts resolves to a list of alerts, only an
    insert of a reading to a reading. *)
Lemma perform_alertRows (now : Z) (c : Call) (d : Db) (rows : list Alert) :
  fst (perform now c d) = alertRows rows ->
  c = getActiveAlerts /\ rows = Storage.getActiveAlerts d.
Proof. destruct c; cbn; try discriminate. now intros [= <-]. Qed.

Lemma perform_sensorDataRow (now : Z) (c : Call) (d : Db) (row : SensorData) :
  fst (perform now c d) = sensorDataRow row -> exists data, c = createSensorData data.
Proof. destruct c; cbn; try discriminate. intros _. now exists data. Qed.

Lemma perform_read (now : Z) (d : Db) : snd (perform now getActiveAlerts d) = d.
Proof. reflexivity. Qed.

Lemma alert_inv_settle (i : nat) (now : Z) (o : Outcome) (w w' : World) :
  step (Settle i now o) w = Some w' -> alert_inv w -> alert_inv w'.
Proof.
  cbn [step]. destruct (nth_error (tasks w) i) as [[c k]|] eqn:Hi; [|discriminate].
  destruct (nth_error_remove_nth _ _ _ Hi) as (l1 & l2 & Ht & ->).
  intros Hstep Hinv.
  destruct o.
  - pose proof (alert_inv_perform now c k l1 l2 w Ht Hinv) as [H1 Hfresh].
    change (db (set_tasks (l1 ++ l2) w)) with (db w) in Hstep.
    destruct (perform now c (db w)) as [r d] eqn:Hp. cbn [snd] in *.
    apply some_eq in Hstep as <-.
    set (w1 := set_db d (set_tasks (l1 ++ l2) w)) in *.
    destruct (is_evaluation k) eqn:Hk;
      [|now apply (alert_inv_calm _ _ (calm_resolve k r w1 Hk))].
    pose proof (calm_refl w1) as Hcalm.
    destruct k; try discriminate Hk; destruct r; cbn [resolve]; try exact H1.
    + (* the reading is stored *)
      destruct (perform_sensorDataRow now c (db w) row) as [data ->];
        [now rewrite Hp|].
      destruct (breached status);
        [|apply (alert_inv_calm w1); [calm|exact H1]].
      apply (alert_inv_await _ _ (cfg_nodeId config0)); auto; discriminate.
    + (* the active alerts are read *)
      destruct (perform_alertRows now c (db w) rows) as [-> ->];
        [now rewrite Hp|].
      assert (d = db w) by (now injection Hp). subst d.
      destruct (hasActiveAlert _ _) eqn:Hh;
        [apply (alert_inv_calm w1); [calm|exact H1]|].
      apply (alert_inv_await _ _ (cfg_nodeId config0)); auto.
      intros _ _. now apply hasActiveAlert_none.
  - apply some_eq in Hstep as <-.
    apply (alert_inv_calm _ _ (calm_reject k _)).
    destruct Hinv as [H1 H2 H3]. split; cbn [db tasks set_tasks].
    + exact H1.
    + intros a k' n Hin. apply (H2 a k'). rewrite Ht.
      apply in_app_or in Hin as [Hin|Hin]; apply in_or_app;
        [now left|right; now right].
    + rewrite Ht, owners_middle in H3. rewrite owners_app.
      destruct (owner (c, k)); [|exact H3]. cbn in H3. now apply NoDup_remove_1 in H3.
Qed.

Lemma spawn_generators_tasks (random : nat -> float) (cs : list SensorConfig) :
  forall (i : nat) (w : World),
    db (spawn_generators random i cs w) = db w
    /\ owners (tasks (spawn_generators random i cs w))
       = (owners (tasks w) ++ map cfg_nodeId cs)%list
    /\ forall a k, In (createAlert a, k) (tasks (spawn_generators random i cs w)) ->
                   In (createAlert a, k) (tasks w).
Proof.
  induction cs as [|c cs IH]; intros i w; cbn [spawn_generators map].
  - rewrite app_nil_r. now repeat split.
  - destruct (IH (S i) (await (createSensorData (reading c (random i)))
                           (gen_created c (isd_status (reading c (random i)))) w))
      as (Hd & Ho & Hin).
    split; [exact Hd|split].
    + rewrite Ho. cbn [await tasks set_tasks]. rewrite owners_app, <- app_assoc.
      reflexivity.
    + intros a k H. apply Hin in H. cbn [await tasks set_tasks] in H.
      apply in_app_or in H as [H|[H|[]]]; [exact H|discriminate H].
Qed.

Lemma SENSOR_CONFIGS_distinct : NoDup (map cfg_nodeId SENSOR_CONFIGS).
Proof.
  cbn. repeat constructor; cbn; intros H;
    repeat (destruct H as [H|H]; [discriminate H|]); exact H.
Qed.

Lemma idle_owners (w : World) : idle w = true -> owners (tasks w) = [].
Proof.
  unfold idle, owners. induction (tasks w) as [|t ts IH]; [reflexivity|].
  cbn. destruct (owner t); [discriminate|]. exact IH.
Qed.

Lemma alert_inv_generate (random : nat -> float) (w : World) :
  idle w = true -> alert_inv w ->
  alert_inv (spawn_generators random 0 SENSOR_CONFIGS w).
Proof.
  intros Hidle [H1 H2 H3].
  destruct (spawn_generators_tasks random SENSOR_CONFIGS 0 w) as (Hd & Ho & Hin).
  split.
  - now rewrite Hd.
  - intros a k n Ha. rewrite Hd. apply (H2 a k). now apply Hin.
  - rewrite Ho, (idle_owners w Hidle). apply SENSOR_CONFIGS_distinct.
Qed.

Lemma alert_inv_step (l : Label) (w w' : World) :
  match l with GenerateSensorData _ => idle w | _ => true end = true ->
  step l w = Some w' -> alert_inv w -> alert_inv w'.
Proof.
  pose proof (calm_refl w) as Hrefl. intros Hadm.
  destruct l; try apply alert_inv_settle; cbn [step].
  - intros <-%some_eq. apply alert_inv_calm. unfold connection. calm.
  - unfold close. destruct (nth_error (sockets w) ws) as [s|]; [|discriminate].
    destruct (ws_open s); [|discriminate]. intros <-%some_eq.
    apply alert_inv_calm. calm.
  - intros <-%some_eq. now apply alert_inv_generate.
  - destruct (Insight.performAiAnalysis r1 r2 r3) as [[a r]|]; intros <-%some_eq;
      [|trivial].
    apply alert_inv_calm. calm.
  - intros <-%some_eq. apply alert_inv_calm. calm.
  - intros <-%some_eq. apply alert_inv_calm. now apply calm_startScenario.
  - intros <-%some_eq. apply alert_inv_calm. now apply calm_stopScenario.
  - destruct (existsb _ _); [|discriminate]. intros <-%some_eq.
    apply alert_inv_calm. unfold phaseTimerFires.
    apply calm_executeCurrentPhase. calm.
Qed.

Lemma alert_inv_run (ls : list Label) (w w' : World) :
  run_unoverlapped ls w = Some w' -> alert_inv w -> alert_inv w'.
Proof.
  revert w. induction ls as [|l ls IH]; intros w; cbn [run_unoverlapped].
  - now intros [= <-].
  - destruct (match l with GenerateSensorData _ => idle w | _ => true end) eqn:Ha;
      [|discriminate].
    destruct (step l w) as [w1|] eqn:Hs; [|discriminate].
    intros Hr Hinv. apply (IH w1 Hr). now apply (alert_inv_step l w).
Qed.

Lemma alert_inv_initial (now : Z) : alert_inv (initial now).
Proof. split; cbn; [intros; lia|intros ? ? ? []|constructor]. Qed.

Lemma run_unoverlapped_run (ls : list Label) (w w' : World) :
  run_unoverlapped ls w = Some w' -> run ls w = Some w'.
Proof.
  revert w. induction ls as [|l ls IH]; intros w; cbn; [trivial|].
  destruct (match l with GenerateSensorData _ => idle w | _ => true end);
    [|discriminate].
  destruct (step l w); [apply IH|discriminate].
Qed.

(** Two ticks of the generator overlap: the second one starts while the
    evaluation of COOL-PRI-01 of the first has not read the active alerts
    yet.  Both evaluations store their reading, both read the active alerts,
    both insert. *)
Definition racing : list Label :=
  [ GenerateSensorData steady; GenerateSensorData steady;
    Settle 6 10 Resolved; Settle 17 11 Resolved; Settle 22 12 Resolved;
    Settle 22 13 Resolved; Settle 22 14 Resolved; Settle 22 15 Resolved ].

(** Two ticks of the generator, each with all its storage calls settled
    before the next one starts. *)
Definition two_ticks : list Label :=
  (GenerateSensorData steady :: repeat (Settle 0 10 Resolved) 16
   ++ GenerateSensorData steady :: repeat (Settle 0 20 Resolved) 14)%list.

(** C2, as stated, fails: in the execution [racing] two active alerts are
    stored for the sensor COOL-PRI-01. *)
Lemma overlapping_evaluations_raise_twice :
  exists w,
    run racing (initial 0) = Some w
    /\ active_for "COOL-PRI-01" (db w) = 2%nat
    /\ map al_sensorNodeId (Storage.getActiveAlerts (db w))
       = [Some "COOL-PRI-01"; Some "COOL-PRI-01"].
Proof. vm_compute. eexists. repeat split. Qed.

(** C2, amended: in every execution in which no two evaluations of the
    sample generator for one sensor overlap, at most one active alert is
    stored per sensor identifier, whatever the interleaving with other
    sensors, observers, acknowledgements and scenarios: the generator inserts
    only after reading the active alerts and finding none for the sensor.
    The alerts of a scenario phase are inserted without any check; the rows
    they produce carry no sensor identifier. *)
Theorem one_active_alert_per_sensor (ls : list Label) (now : Z) (w : World) :
  run_unoverlapped ls (initial now) = Some w ->
  run ls (initial now) = Some w
  /\ (forall n, (active_for n (db w) <= 1)%nat)
  /\ (forall phase alert rest w0,
        exec_alerts phase (alert :: rest) w0
        = await (createAlert (phaseAlert alert)) (exec_alerted phase rest) w0
        /\ ial_sensorNodeId (phaseAlert alert) = None).
Proof.
  intros Hrun. split; [now apply run_unoverlapped_run|]. split.
  - apply (ai_unique w). exact (alert_inv_run _ _ _ Hrun (alert_inv_initial now)).
  - intros. split; reflexivity.
Qed.

Lemma one_active_alert_per_sensor_witness :
  exists w,
    run_unoverlapped two_ticks (initial 0) = Some w
    /\ map al_sensorNodeId (Storage.getActiveAlerts (db w))
       = [Some "COOL-PRI-01"; Some "COOL-SEC-01"]
    /\ forall n, (active_for n (db w) <= 1)%nat.
Proof.
  assert (H : {w | run_unoverlapped two_ticks (initial 0) = Some w
                   /\ map al_sensorNodeId (Storage.getActiveAlerts (db w))
                      = [Some "COOL-PRI-01"; Some "COOL-SEC-01"]})
    by (vm_compute; eexists; split; reflexivity).
  destruct H as [w [H1 H2]]. exists w. split; [exact H1|]. split; [exact H2|].
  exact (proj1 (proj2 (one_active_alert_per_sensor two_ticks 0 w H1))).
Defined.

(** ** Starting a scenario while one is running *)

(** [n] pending storage calls settle, oldest first, at time [now]. *)
Definition settle (n : nat) (now : Z) : list Label :=
  repeat (Settle 0 now Resolved) n.








(** The digits [toFixed(1)] prints are those of the nearest tenth: for a
    number [m * 2^-k], [tenths] is within one half of ten times it, and a
    tie goes up. *)
Lemma tenths_nearest (m k : positive) :
  let n := JS.tenths m (Z.neg k) in
  2 * n * 2 ^ Z.pos k - 2 ^ Z.pos k <= 20 * Z.pos m < 2 * n * 2 ^ Z.pos k + 2 ^ Z.pos k.
Proof.
  cbv zeta. unfold JS.tenths.
  assert (HK : 0 < 2 ^ Z.pos k) by (apply Z.pow_pos_nonneg; lia).
  rewrite Z.pow_add_r by lia. change (2 ^ 1) with 2.
  pose proof (Z.div_mod (20 * Z.pos m + 2 ^ Z.pos k) (2 ^ Z.pos k * 2) ltac:(lia)) as Hd.
  pose proof (Z.mod_pos_bound (20 * Z.pos m + 2 ^ Z.pos k) (2 ^ Z.pos k * 2) ltac:(lia)).
  lia.
Qed.

(** ** The neutron flux display *)

Definition NEUT_FLUX_01 : SensorConfig :=
  config "NEUT-FLUX-01" "neutron_flux" "n/cm²s" 2.8e14 0.15e14 3.2e14 3.8e14 "AWS".

Definition NEUT_FLUX_02 : SensorConfig :=
  config "NEUT-FLUX-02" "neutron_flux" "n/cm²s" 2.9e14 0.18e14 3.2e14 3.8e14 "Ubuntu".

(** A neutron flux sensor whose baseline sits on its threshold. *)
Definition flux_at_threshold : SensorConfig :=
  config "NEUT-FLUX-01" "neutron_flux" "n/cm²s" 3.2e14 0.15e14 3.2e14 3.8e14 "AWS".

(** The status the threshold rule gives to the value a reading persists. *)
Definition statusOfPersisted (config : SensorConfig) (random : float) : Status :=
  deriveStatus (isd_value (reading config random)) config.

Lemma flux_sensors (cfg : SensorConfig) :
  In cfg SENSOR_CONFIGS -> cfg_sensorType cfg = "neutron_flux" ->
  cfg = NEUT_FLUX_01 \/ cfg = NEUT_FLUX_02.
Proof.
  unfold SENSOR_CONFIGS. cbn [In].
  intros H Hty. repeat (destruct H as [<-|H]; [try discriminate Hty|]); auto.
  destruct H.
Qed.

(** Every value the two configured neutron flux sensors can generate is
    normal, and so is the value persisted for it. *)
Lemma configured_flux_normal (cfg : SensorConfig) (r : float) :
  In cfg SENSOR_CONFIGS -> cfg_sensorType cfg = "neutron_flux" ->
  JS.unit_interval r = true ->
  isd_status (reading cfg r) = normal /\ statusOfPersisted cfg r = normal.
Proof.
  intros Hin Hty Hr. unfold statusOfPersisted, reading. cbn [isd_value isd_status].
  destruct (flux_sensors cfg Hin Hty) as [-> | ->];
    unfold deriveStatus, displayValue, generatedValue;
    cbn [NEUT_FLUX_01 NEUT_FLUX_02 config cfg_threshold cfg_sensorType
         cfg_baseValue cfg_variance cfg_maxValue];
    change ("neutron_flux" =? "neutron_flux")%string with true; cbv iota;
    unfold JS.gt_opt, JS.gt.
  - rewrite (generated_below_threshold 2.8e14 0.15e14
               8960000000000000 7680000000000000 7680000000000000 (-5) (-9) (-10));
      try reflexivity; try (apply Z.leb_le; vm_compute; reflexivity); try exact Hr.
    rewrite (displayed_below_threshold 2.8e14 0.15e14
               8960000000000000 7680000000000000 7680000000000000 (-5) (-9) (-10));
      try reflexivity; try (apply Z.leb_le; vm_compute; reflexivity); try exact Hr.
    split; reflexivity.
  - rewrite (generated_below_threshold 2.9e14 0.18e14
               4640000000000000 4608000000000000 4608000000000000 (-4) (-8) (-9));
      try reflexivity; try (apply Z.leb_le; vm_compute; reflexivity); try exact Hr.
    rewrite (displayed_below_threshold 2.9e14 0.18e14
               4640000000000000 4608000000000000 4608000000000000 (-4) (-8) (-9));
      try reflexivity; try (apply Z.leb_le; vm_compute; reflexivity); try exact Hr.
    split; reflexivity.
Qed.

(** C10 as stated fails on the code: the two configured neutron flux
    sensors generate values in 2.725e14 .. 2.875e14 and 2.81e14 .. 2.99e14,
    below the threshold 3.2e14, and rounding keeps them below it.  No value
    either of them generates has a persisted status that differs from the
    status of the persisted value. *)
Lemma configured_flux_status_never_differs :
  ~ exists cfg r,
      In cfg SENSOR_CONFIGS /\ cfg_sensorType cfg = "neutron_flux"
      /\ JS.unit_interval r = true
      /\ isd_status (reading cfg r) <> statusOfPersisted cfg r.
Proof.
  intros (cfg & r & Hin & Hty & Hr & Hne).
  destruct (configured_flux_normal cfg r Hin Hty Hr) as [H1 H2].
  apply Hne. now rewrite H1, H2.
Qed.

(** C10, amended.  For a neutron flux sensor the persisted value is the
    generated one printed with one fractional digit in units of 1e14 and
    read back, while the persisted status is the one of the generated value
    before rounding.  The two statuses can differ for a neutron flux
    sensor whose values reach the threshold (baseline 3.2e14, random 0.75:
    3.2375e14 is a warning, the persisted 3.2e14 is normal); for the two
    configured sensors they are both normal on every generated value. *)
Theorem flux_status_from_unrounded_value :
  (forall cfg r,
     cfg_sensorType cfg = "neutron_flux" ->
     isd_value (reading cfg r)
     = (JS.parseFloat_toFixed1 (generatedValue cfg r / 1e14) * 1e14)%float
     /\ isd_status (reading cfg r) = deriveStatus (generatedValue cfg r) cfg)
  /\ (JS.unit_interval 0.75 = true
      /\ generatedValue flux_at_threshold 0.75 = 3.2375e14%float
      /\ isd_value (reading flux_at_threshold 0.75) = 3.2e14%float
      /\ isd_status (reading flux_at_threshold 0.75) = warning
      /\ statusOfPersisted flux_at_threshold 0.75 = normal)
  /\ (forall cfg r,
        In cfg SENSOR_CONFIGS -> cfg_sensorType cfg = "neutron_flux" ->
        JS.unit_interval r = true ->
        isd_status (reading cfg r) = normal /\ statusOfPersisted cfg r = normal).
Proof.
  split; [|split].
  - intros cfg r Hty. unfold reading, displayValue. cbn [isd_value isd_status].
    rewrite Hty. split; reflexivity.
  - repeat split; vm_compute; reflexivity.
  - exact configured_flux_normal.
Qed.

Lemma flux_status_from_unrounded_value_witness :
  cfg_sensorType NEUT_FLUX_01 = "neutron_flux"
  /\ isd_value (reading NEUT_FLUX_01 0.75)
     = (JS.parseFloat_toFixed1 (generatedValue NEUT_FLUX_01 0.75 / 1e14) * 1e14)%float
  /\ isd_status (reading NEUT_FLUX_01 0.75)
     = deriveStatus (generatedValue NEUT_FLUX_01 0.75) NEUT_FLUX_01.
Proof.
  exact (conj eq_refl
           (proj1 flux_status_from_unrounded_value NEUT_FLUX_01 0.75%float eq_refl)).
Defined.

(** * Further properties *)

(** ** Ordered queries *)

(** [l] lists its rows by decreasing [key]. *)
Definition newest_first {A} (key : A -> Z) (l : list A) : Prop :=
  StronglySorted (fun a b => key b <= key a) l.

Lemma insert_desc_Permutation {A} (key : A -> Z) (x : A) (l : list A) :
  Permutation (insert_desc key x l) (x :: l).
Proof.
  induction l as [|y l IH]; cbn; [reflexivity|].
  destruct (key y <=? key x); [reflexivity|].
  rewrite IH. apply perm_swap.
Qed.

Lemma orderBy_desc_Permutation {A} (key : A -> Z) (l : list A) :
  Permutation (orderBy_desc key l) l.
Proof.
  unfold orderBy_desc. induction l as [|x l IH]; cbn; [reflexivity|].
  rewrite insert_desc_Permutation. now constructor.
Qed.

Lemma insert_desc_sorted {A} (key : A -> Z) (x : A) (l : list A) :
  newest_first key l -> newest_first key (insert_desc key x l).
Proof.
  unfold newest_first. induction 1 as [|y l Hs IH Hy]; cbn.
  - repeat constructor.
  - destruct (Z.leb_spec (key y) (key x)) as [Hle|Hgt].
    + constructor; [now constructor|]. constructor; [assumption|].
      rewrite Forall_forall in *. intros z Hz. specialize (Hy z Hz). lia.
    + constructor; [assumption|].
      rewrite Forall_forall in *. intros z [->|Hz]%In_insert_desc; [lia|auto].
Qed.

Lemma orderBy_desc_sorted {A} (key : A -> Z) (l : list A) :
  newest_first key (orderBy_desc key l).
Proof.
  unfold orderBy_desc. induction l as [|x l IH]; cbn; [constructor|].
  now apply insert_desc_sorted.
Qed.

Lemma newest_first_app {A} (key : A -> Z) (l1 l2 : list A) :
  newest_first key (l1 ++ l2) ->
  forall x y, In x l1 -> In y l2 -> key y <= key x.
Proof.
  unfold newest_first. induction l1 as [|a l1 IH]; cbn; [contradiction|].
  intros Hs x y [->|Hx] Hy.
  - inversion Hs as [|? ? _ Hall]; subst. rewrite Forall_forall in Hall.
    apply Hall, in_or_app. now right.
  - inversion Hs; subst. eauto.
Qed.

Lemma newest_first_firstn {A} (key : A -> Z) (n : nat) (l : list A) :
  newest_first key l -> newest_first key (firstn n l).
Proof.
  unfold newest_first. intros Hs. revert n.
  induction Hs as [|x l Hs IH Hx]; intros [|n]; cbn; try constructor; auto.
  rewrite Forall_forall in *. intros y Hy. apply Hx.
  rewrite <- (firstn_skipn n l). apply in_or_app. now left.
Qed.

(** The first [limit] rows by decreasing [key]: as many as there are, up to
    [limit]; they and the rows left out are all the rows, and no row left
    out has a greater key than a row kept. *)
Lemma newest_window {A} (key : A -> Z) (limit : nat) (l : list A) :
  exists rest,
    List.length (firstn limit (orderBy_desc key l)) = Nat.min limit (List.length l)
    /\ newest_first key (firstn limit (orderBy_desc key l))
    /\ Permutation (firstn limit (orderBy_desc key l) ++ rest) l
    /\ (forall x y, In x (firstn limit (orderBy_desc key l)) -> In y rest ->
          key y <= key x).
Proof.
  exists (skipn limit (orderBy_desc key l)). repeat split.
  - rewrite length_firstn.
    now rewrite (Permutation_length (orderBy_desc_Permutation key l)).
  - apply newest_first_firstn, orderBy_desc_sorted.
  - rewrite firstn_skipn. apply orderBy_desc_Permutation.
  - apply newest_first_app. rewrite firstn_skipn. apply orderBy_desc_sorted.
Qed.

(** ** server/storage.ts: the bounded recent windows *)

(** X1: [getRecentSystemLogs(limit)] and [getRecentAiRecommendations(limit)]
    return [limit] rows, or all of them when fewer are stored, newest first;
    every stored row is either returned or left out, and no row left out is
    newer than a row returned. *)
Theorem recent_rows_are_the_newest (limit : nat) (d : Db) :
  (exists rest,
     List.length (Storage.getRecentSystemLogs limit d)
     = Nat.min limit (List.length (systemLogs d))
     /\ newest_first log_timestamp (Storage.getRecentSystemLogs limit d)
     /\ Permutation (Storage.getRecentSystemLogs limit d ++ rest) (systemLogs d)
     /\ (forall x y, In x (Storage.getRecentSystemLogs limit d) -> In y rest ->
           log_timestamp y <= log_timestamp x))
  /\ (exists rest,
        List.length (Storage.getRecentAiRecommendations limit d)
        = Nat.min limit (List.length (aiRecommendations d))
        /\ newest_first rec_timestamp (Storage.getRecentAiRecommendations limit d)
        /\ Permutation (Storage.getRecentAiRecommendations limit d ++ rest)
             (aiRecommendations d)
        /\ (forall x y, In x (Storage.getRecentAiRecommendations limit d) ->
              In y rest -> rec_timestamp y <= rec_timestamp x)).
Proof.
  split; [apply (newest_window log_timestamp)|apply (newest_window rec_timestamp)].
Qed.

(** ** server/storage.ts: readings of one kind *)

(** X2: [getSensorDataByType] returns the stored readings of the kind asked
    for, each as often as it is stored and no other, newest first; a kind
    nothing is stored for gives the empty list. *)
Theorem readings_of_one_kind (sensorType : string) (d : Db) :
  Permutation (Storage.getSensorDataByType sensorType d)
    (filter (fun r => String.eqb (sd_sensorType r) sensorType) (sensorData d))
  /\ (forall r, In r (Storage.getSensorDataByType sensorType d)
                <-> In r (sensorData d) /\ sd_sensorType r = sensorType)
  /\ newest_first sd_timestamp (Storage.getSensorDataByType sensorType d)
  /\ ((forall r, In r (sensorData d) -> sd_sensorType r <> sensorType) ->
      Storage.getSensorDataByType sensorType d = []).
Proof.
  unfold Storage.getSensorDataByType.
  split; [apply orderBy_desc_Permutation|].
  split; [|split; [apply orderBy_desc_sorted|]].
  - intros r. rewrite In_orderBy_desc, filter_In, String.eqb_eq. reflexivity.
  - intros Hnone.
    destruct (orderBy_desc _ _) as [|r l] eqn:E; [reflexivity|exfalso].
    assert (Hin : In r (orderBy_desc sd_timestamp
               (filter (fun r => String.eqb (sd_sensorType r) sensorType) (sensorData d))))
      by (rewrite E; now left).
    apply In_orderBy_desc, filter_In in Hin as [Hin Heq].
    apply String.eqb_eq in Heq. now apply (Hnone r).
Qed.

(** ** server/storage.ts: acknowledging alerts *)


Lemma deactivate_row_id (id : Z) (a : Alert) : al_id (Storage.deactivate_row id a) = al_id a.
Proof. unfold Storage.deactivate_row. now destruct (al_id a =? id). Qed.

Lemma deactivate_row_active (id : Z) (a : Alert) :
  al_isActive (Storage.deactivate_row id a) = al_isActive a && negb (al_id a =? id).
Proof.
  unfold Storage.deactivate_row.
  destruct (al_id a =? id); cbn; [now rewrite andb_false_r|now rewrite andb_true_r].
Qed.

Lemma deactivate_row_twice (id : Z) (a : Alert) :
  Storage.deactivate_row id (Storage.deactivate_row id a) = Storage.deactivate_row id a.
Proof.
  destruct (Z.eq_dec (al_id a) id) as [E|E].
  - unfold Storage.deactivate_row. rewrite E, Z.eqb_refl. cbn. now rewrite Z.eqb_refl.
  - rewrite (deactivate_row_other id a E). now apply deactivate_row_other.
Qed.

(** X3: after [deactivateAlert(id)] no alert with that id is returned by
    [getActiveAlerts]; every other alert is returned exactly if it was
    before; no row is added or removed, and the rows keep their ids; a
    second call changes nothing more. *)
Theorem deactivated_alert_is_not_active (id : Z) (d : Db) :
  let d' := Storage.deactivateAlert id d in
  (forall a, In a (Storage.getActiveAlerts d') -> al_id a <> id)
  /\ (forall a, al_id a <> id ->
        (In a (Storage.getActiveAlerts d') <-> In a (Storage.getActiveAlerts d)))
  /\ map al_id (alerts d') = map al_id (alerts d)
  /\ Storage.deactivateAlert id d' = d'.
Proof.
  cbv zeta. unfold Storage.getActiveAlerts, Storage.deactivateAlert.
  cbn [alerts with_alerts alerts_seq]. repeat split.
  - intros a [Hin Hact]%In_orderBy_desc%filter_In.
    apply in_map_iff in Hin as (b & <- & Hb).
    rewrite deactivate_row_active in Hact. rewrite deactivate_row_id.
    apply andb_true_iff in Hact as [_ Hne]. apply negb_true_iff in Hne.
    now apply Z.eqb_neq.
  - intros [Hin Hact]%In_orderBy_desc%filter_In.
    apply in_map_iff in Hin as (b & <- & Hb).
    rewrite deactivate_row_id in H.
    rewrite deactivate_row_other in * by assumption.
    apply In_orderBy_desc, filter_In. now split.
  - intros [Hin Hact]%In_orderBy_desc%filter_In.
    apply In_orderBy_desc, filter_In. split; [|assumption].
    apply in_map_iff. exists a. split; [now apply deactivate_row_other|assumption].
  - rewrite map_map. apply map_ext. intros a. apply deactivate_row_id.
  - unfold with_alerts. cbn. f_equal. rewrite map_map. apply map_ext.
    intros a. apply deactivate_row_twice.
Qed.

(** ** server/storage.ts: creating alerts *)


(** ** Observers: what a socket can see happen *)

(** Socket [s'] is socket [s] at a later time: it has not reopened, it is
    untouched if [s] was closed, and what [s] had received is the beginning
    of what [s'] has. *)
Definition socket_later (s s' : Socket) : Prop :=
  (ws_open s' = true -> ws_open s = true)
  /\ (ws_open s = false -> s' = s)
  /\ exists ms, ws_received s' = (ws_received s ++ ms)%list.

Definition sockets_later (ss ss' : list Socket) : Prop :=
  forall n s, nth_error ss n = Some s ->
  exists s', nth_error ss' n = Some s' /\ socket_later s s'.

Lemma socket_later_refl (s : Socket) : socket_later s s.
Proof. repeat split; auto. exists []. now rewrite app_nil_r. Qed.

Lemma socket_later_trans (s1 s2 s3 : Socket) :
  socket_later s1 s2 -> socket_later s2 s3 -> socket_later s1 s3.
Proof.
  intros (H1 & H2 & ms & H3) (H4 & H5 & ms' & H6). repeat split; auto.
  - intros Hc. specialize (H2 Hc). subst s2. auto.
  - exists (ms ++ ms')%list. now rewrite H6, H3, app_assoc.
Qed.

Lemma sockets_later_refl (ss : list Socket) : sockets_later ss ss.
Proof. intros n s H. exists s. split; [assumption|apply socket_later_refl]. Qed.

Lemma sockets_later_trans (s1 s2 s3 : list Socket) :
  sockets_later s1 s2 -> sockets_later s2 s3 -> sockets_later s1 s3.
Proof.
  intros H12 H23 n s Hs. destruct (H12 n s Hs) as (s' & Hs' & Hl).
  destruct (H23 n s' Hs') as (s'' & Hs'' & Hl'). exists s''.
  split; [assumption|]. now apply socket_later_trans with s'.
Qed.

Lemma socket_later_send (m : Message) (s : Socket) : socket_later s (send_if_open m s).
Proof.
  unfold send_if_open. destruct (ws_open s) eqn:E; [|apply socket_later_refl].
  repeat split; cbn; auto; [congruence|]. now exists [m].
Qed.

Lemma socket_later_shut (s : Socket) :
  socket_later s {| ws_open := false; ws_received := ws_received s |}.
Proof.
  repeat split; cbn; try discriminate.
  - intros E. destruct s as [o r]. cbn in *. now subst.
  - exists []. now rewrite app_nil_r.
Qed.

Lemma nth_error_update_nth {A} (n k : nat) (f : A -> A) (l : list A) :
  nth_error (update_nth k f l) n
  = if Nat.eqb n k then option_map f (nth_error l n) else nth_error l n.
Proof.
  revert n k. induction l as [|x l IH]; intros [|n] [|k]; cbn; try reflexivity.
  - now destruct (Nat.eqb _ _).
  - apply IH.
Qed.

Lemma sockets_later_update (k : nat) (f : Socket -> Socket) (ss : list Socket) :
  (forall s, socket_later s (f s)) -> sockets_later ss (update_nth k f ss).
Proof.
  intros Hf n s Hs. rewrite nth_error_update_nth, Hs.
  destruct (Nat.eqb n k); cbn; eexists; split; try reflexivity;
    [apply Hf|apply socket_later_refl].
Qed.

Lemma open_update_send (k : nat) (m : Message) (ss : list Socket) :
  map ws_open (update_nth k (send_if_open m) ss) = map ws_open ss.
Proof.
  revert k. induction ss as [|s ss IH]; intros [|k]; cbn; try reflexivity.
  - f_equal. unfold send_if_open. now destruct (ws_open s) eqn:E.
  - f_equal. apply IH.
Qed.

(** The messages of a broadcast, client by client. *)
Definition deliver (m : Message) (cs : list nat) (ss : list Socket) : list Socket :=
  fold_left (fun s ws => update_nth ws (send_if_open m) s) cs ss.

Lemma deliver_later (m : Message) (cs : list nat) (ss : list Socket) :
  sockets_later ss (deliver m cs ss) /\ map ws_open (deliver m cs ss) = map ws_open ss.
Proof.
  unfold deliver. revert ss. induction cs as [|c cs IH]; intros ss; cbn.
  - split; [apply sockets_later_refl|reflexivity].
  - destruct (IH (update_nth c (send_if_open m) ss)) as [H1 H2]. split.
    + eapply sockets_later_trans; [|exact H1].
      apply sockets_later_update, socket_later_send.
    + rewrite H2. apply open_update_send.
Qed.

(** A turn that neither connects nor closes a socket: the members of
    [clients] and the state of every socket are as before, and sockets have
    at most received more. *)
Definition steady_wire (w w' : World) : Prop :=
  clients w' = clients w
  /\ map ws_open (sockets w') = map ws_open (sockets w)
  /\ sockets_later (sockets w) (sockets w').

Lemma steady_wire_refl (w : World) : steady_wire w w.
Proof. repeat split. apply sockets_later_refl. Qed.

Lemma steady_wire_trans (w1 w2 w3 : World) :
  steady_wire w1 w2 -> steady_wire w2 w3 -> steady_wire w1 w3.
Proof.
  intros (H1 & H2 & H3) (H4 & H5 & H6). repeat split; try congruence.
  now apply sockets_later_trans with (sockets w2).
Qed.

Lemma steady_wire_broadcast (m : Message) (w w1 : World) :
  steady_wire w w1 -> steady_wire w (broadcast m w1).
Proof.
  intros H. apply (steady_wire_trans _ _ _ H).
  destruct (deliver_later m (clients w1) (sockets w1)) as [H1 H2].
  repeat split; assumption.
Qed.

Lemma steady_wire_deliver (ws : nat) (m : Message) (w w1 : World) :
  steady_wire w w1 ->
  steady_wire w (set_sockets (update_nth ws (send_if_open m) (sockets w1)) (clients w1) w1).
Proof.
  intros H. apply (steady_wire_trans _ _ _ H). repeat split; cbn.
  - apply open_update_send.
  - apply sockets_later_update, socket_later_send.
Qed.

(** The fields a function leaves alone. *)
Definition same_wire (w w' : World) : Prop :=
  sockets w' = sockets w /\ clients w' = clients w.

Lemma same_wire_steady (w w1 w2 : World) :
  same_wire w1 w2 -> steady_wire w w1 -> steady_wire w w2.
Proof.
  intros [H1 H2] (H3 & H4 & H5). unfold steady_wire. now rewrite H1, H2.
Qed.

Ltac same_wire :=
  unfold same_wire;
  repeat match goal with
         | |- context [match ?x with _ => _ end] => destruct x
         end;
  cbn; auto.

Lemma same_wire_stopScenario (a : bool) (w : World) : same_wire w (stopScenario a w).
Proof. unfold stopScenario. same_wire. Qed.

Lemma same_wire_completeScenario (w : World) : same_wire w (completeScenario w).
Proof. unfold completeScenario. same_wire. Qed.

Lemma same_wire_executeCurrentPhase (w : World) : same_wire w (executeCurrentPhase w).
Proof. unfold executeCurrentPhase, completeScenario. same_wire. Qed.

Lemma same_wire_exec_modifications (p : ScenarioPhase) (l : list SensorModification)
    (w : World) :
  same_wire w (exec_modifications p l w).
Proof. unfold exec_modifications, exec_alerts, exec_recommend. same_wire. Qed.

Lemma same_wire_exec_alerts (p : ScenarioPhase) (l : list AlertCondition) (w : World) :
  same_wire w (exec_alerts p l w).
Proof. unfold exec_alerts, exec_recommend. same_wire. Qed.

Lemma same_wire_startScenario (id : string) (now : Z) (w : World) :
  same_wire w (startScenario id now w).
Proof. unfold startScenario, stopScenario. same_wire. Qed.

Lemma same_wire_phaseTimerFires (w : World) : same_wire w (phaseTimerFires w).
Proof. unfold phaseTimerFires, executeCurrentPhase, completeScenario. same_wire. Qed.

Lemma same_wire_spawn_generators (random : nat -> float) (i : nat)
    (cs : list SensorConfig) (w : World) :
  same_wire w (spawn_generators random i cs w).
Proof.
  revert i w. induction cs as [|c cs IH]; intros i w; cbn [spawn_generators];
    [now split|].
  cbv zeta.
  exact (IH (S i) (await (createSensorData (reading c (random i)))
                         (gen_created c (isd_status (reading c (random i)))) w)).
Qed.

Lemma steady_via (f : World -> World) (w w1 : World) :
  (forall w0, same_wire w0 (f w0)) -> steady_wire w w1 -> steady_wire w (f w1).
Proof. intros Hf H. exact (same_wire_steady w w1 (f w1) (Hf w1) H). Qed.

Lemma same_wire_setPhaseTimer (p : ScenarioPhase) (w : World) :
  same_wire w (setPhaseTimer p w).
Proof. now split. Qed.

Ltac steady_wire :=
  repeat first
    [ assumption
    | apply steady_wire_broadcast
    | apply steady_wire_deliver
    | apply (steady_via (await _ _)); [intros; now split|]
    | apply (steady_via (respond _ _)); [intros; now split|]
    | apply (steady_via (set_mgr _)); [intros; now split|]
    | apply (steady_via (fault _)); [intros; now split|]
    | apply (steady_via executeCurrentPhase); [apply same_wire_executeCurrentPhase|]
    | apply (steady_via (exec_modifications _ _));
        [intros; apply same_wire_exec_modifications|]
    | apply (steady_via (exec_alerts _ _)); [intros; apply same_wire_exec_alerts|]
    | apply (steady_via (setPhaseTimer _)); [intros; apply same_wire_setPhaseTimer|]
    | match goal with
      | |- context [if ?b then _ else _] => destruct b
      | |- context [match activeScenario ?m with _ => _ end] =>
          destruct (activeScenario m)
      end ].

Lemma steady_wire_resolve (k : Kont) (r : Reply) (w : World) :
  steady_wire w (resolve k r w).
Proof.
  pose proof (steady_wire_refl w) as H.
  destruct k, r; cbn [resolve]; steady_wire.
Qed.

Lemma same_wire_reject (k : Kont) (w : World) : same_wire w (reject k w).
Proof. destruct k; cbn; same_wire. Qed.

(** One turn of the event loop, seen from the sockets. *)
Lemma step_wire (l : Label) (w w' : World) :
  step l w = Some w' ->
  match l with
  | Connection =>
      sockets w' = (sockets w ++ [{| ws_open := true; ws_received := [] |}])%list
      /\ clients w' = (clients w ++ [List.length (sockets w)])%list
  | Close ws =>
      exists s, nth_error (sockets w) ws = Some s /\ ws_open s = true
      /\ sockets w'
         = update_nth ws (fun s => {| ws_open := false; ws_received := ws_received s |})
             (sockets w)
      /\ clients w' = filter (fun c => negb (Nat.eqb c ws)) (clients w)
  | _ => steady_wire w w'
  end.
Proof.
  pose proof (steady_wire_refl w) as Hrefl.
  destruct l; cbn [step].
  - intros <-%some_eq. now split.
  - unfold close. destruct (nth_error (sockets w) ws) as [s|] eqn:E; [|discriminate].
    destruct (ws_open s) eqn:Eo; [|discriminate]. intros <-%some_eq.
    exists s. cbn. auto.
  - intros <-%some_eq.
    apply (same_wire_steady w w); [apply same_wire_spawn_generators|exact Hrefl].
  - destruct (Insight.performAiAnalysis r1 r2 r3) as [[a r]|]; intros <-%some_eq;
      exact Hrefl.
  - intros <-%some_eq. exact Hrefl.
  - intros <-%some_eq.
    apply (same_wire_steady w w); [apply same_wire_startScenario|exact Hrefl].
  - intros <-%some_eq.
    apply (same_wire_steady w w); [apply same_wire_stopScenario|exact Hrefl].
  - destruct (existsb _ _); [|discriminate]. intros <-%some_eq.
    eapply same_wire_steady; [apply same_wire_phaseTimerFires|]. exact Hrefl.
  - destruct (nth_error (tasks w) task) as [[c k]|]; [|discriminate].
    destruct o.
    + destruct (perform now c _) as [r d]. intros <-%some_eq.
      apply (steady_wire_resolve k r (set_db d (set_tasks _ w))).
    + intros <-%some_eq.
      apply (same_wire_steady w (set_tasks (remove_nth task (tasks w)) w));
        [apply same_wire_reject|exact Hrefl].
Qed.

Lemma step_later (l : Label) (w w' : World) :
  step l w = Some w' -> sockets_later (sockets w) (sockets w').
Proof.
  intros Hs. pose proof (step_wire l w w' Hs) as H. destruct l;
    try (destruct H as (_ & _ & H); exact H).
  - destruct H as [-> _]. intros n s Hn. exists s.
    split; [|apply socket_later_refl].
    rewrite nth_error_app1; [assumption|]. apply nth_error_Some. congruence.
  - destruct H as (s & _ & _ & -> & _).
    apply sockets_later_update. intros s0. apply socket_later_shut.
Qed.



(** ** Observers: who a broadcast reaches *)

(** The members of [clients] are the sockets that are open, once each. *)
Definition clients_inv (w : World) : Prop :=
  NoDup (clients w)
  /\ forall n, In n (clients w) <-> nth_error (map ws_open (sockets w)) n = Some true.

Lemma clients_inv_initial (now : Z) : clients_inv (initial now).
Proof.
  split; [constructor|]. intros n. cbn. split; [contradiction|].
  now destruct n.
Qed.

Lemma clients_inv_step (l : Label) (w w' : World) :
  step l w = Some w' -> clients_inv w -> clients_inv w'.
Proof.
  intros Hs [Hnd Hin]. pose proof (step_wire l w w' Hs) as H.
  unfold clients_inv. destruct l;
    try (destruct H as (Hc & Ho & _); now rewrite Hc, Ho).
  - destruct H as [-> ->]. split.
    + apply NoDup_app; [assumption|repeat constructor; intros []|].
      intros n Hn [<-|[]]. apply Hin in Hn.
      assert (nth_error (map ws_open (sockets w)) (List.length (sockets w)) = None)
        by (apply nth_error_None; now rewrite length_map).
      congruence.
    + intros n. rewrite in_app_iff, map_app, Hin. cbn [In map].
      destruct (Nat.lt_ge_cases n (List.length (sockets w))) as [Hlt|Hge].
      * rewrite nth_error_app1 by now rewrite length_map.
        split; [intros [H|[<-|[]]]; [assumption|lia]|auto].
      * rewrite nth_error_app2 by now rewrite length_map.
        rewrite length_map.
        assert (Hnone : nth_error (map ws_open (sockets w)) n = None)
          by (apply nth_error_None; now rewrite length_map).
        rewrite Hnone.
        destruct (Nat.eq_dec n (List.length (sockets w))) as [->|Hne].
        -- rewrite Nat.sub_diag. cbn. split; auto.
        -- split; [intros [H|[H|[]]]; [discriminate|congruence]|].
           destruct (n - List.length (sockets w))%nat as [|k] eqn:E; [lia|].
           cbn. now destruct k.
  - destruct H as (s & Hs0 & Hopen & -> & ->). split.
    + now apply NoDup_filter.
    + intros n. rewrite filter_In, Hin, !nth_error_map, nth_error_update_nth.
      destruct (Nat.eqb_spec n ws) as [->|Hne]; cbn [negb].
      * rewrite Hs0. cbn. split; [intros [_ H]; discriminate|discriminate].
      * split; [now intros [H _]|auto].
Qed.

Lemma clients_inv_run (ls : list Label) (w w' : World) :
  run ls w = Some w' -> clients_inv w -> clients_inv w'.
Proof.
  revert w. induction ls as [|l ls IH]; intros w; cbn [run].
  - now intros <-%some_eq.
  - destruct (step l w) as [w1|] eqn:Hs; [|discriminate].
    intros Hr Hinv. apply (IH w1 Hr). now apply (clients_inv_step l w).
Qed.

Lemma nth_error_deliver (m : Message) (cs : list nat) (ss : list Socket) (n : nat) :
  NoDup cs ->
  nth_error (deliver m cs ss) n
  = if existsb (Nat.eqb n) cs
    then option_map (send_if_open m) (nth_error ss n)
    else nth_error ss n.
Proof.
  unfold deliver. intros Hnd. revert ss.
  induction Hnd as [|c cs Hc Hnd IH]; intros ss; cbn [fold_left existsb];
    [reflexivity|].
  rewrite IH, nth_error_update_nth.
  destruct (Nat.eqb_spec n c) as [->|Hne]; cbn [orb]; [|reflexivity].
  destruct (existsb (Nat.eqb c) cs) eqn:E; [|reflexivity].
  exfalso. apply existsb_exists in E as (x & Hx & Hcx).
  apply Nat.eqb_eq in Hcx. now subst x.
Qed.

Lemma deliver_all (m : Message) (cs : list nat) (ss : list Socket) :
  NoDup cs ->
  (forall n, In n cs <-> nth_error (map ws_open ss) n = Some true) ->
  deliver m cs ss = map (send_if_open m) ss.
Proof.
  intros Hnd Hin. apply nth_error_ext. intros n.
  rewrite nth_error_deliver, nth_error_map by assumption.
  destruct (existsb (Nat.eqb n) cs) eqn:E; [reflexivity|].
  destruct (nth_error ss n) as [s|] eqn:Hs; [|reflexivity]. cbn. f_equal.
  unfold send_if_open. destruct (ws_open s) eqn:Ho; [|reflexivity]. exfalso.
  assert (Hn : In n cs) by (apply Hin; rewrite nth_error_map, Hs; cbn; now rewrite Ho).
  assert (existsb (Nat.eqb n) cs = true); [|congruence].
  apply existsb_exists. exists n. split; [assumption|apply Nat.eqb_refl].
Qed.

(** X6: in every state the server can reach, [broadcast] sends the message
    once to every socket that is open and to no other: no observer is
    missed, none receives it twice. *)
Theorem broadcast_reaches_every_open_socket (ls : list Label) (now : Z) (w : World)
    (m : Message) :
  run ls (initial now) = Some w ->
  sockets (broadcast m w) = map (send_if_open m) (sockets w)
  /\ clients (broadcast m w) = clients w.
Proof.
  intros Hrun. split; [|reflexivity].
  destruct (clients_inv_run ls _ _ Hrun (clients_inv_initial now)) as [Hnd Hin].
  now apply deliver_all.
Qed.

Lemma broadcast_reaches_every_open_socket_witness :
  exists w,
    run [Connection; Connection; Close 0; Connection] (initial 0) = Some w
    /\ sockets (broadcast (system_log (fst (Storage.createSystemLog 1
                  (log "info" "Primary coolant chemistry within specifications"
                       "chemistry") (db w)))) w)
       = map (send_if_open (system_log (fst (Storage.createSystemLog 1
                  (log "info" "Primary coolant chemistry within specifications"
                       "chemistry") (db w))))) (sockets w).
Proof.
  assert (H : {w | run [Connection; Connection; Close 0; Connection] (initial 0) = Some w})
    by (vm_compute; eexists; reflexivity).
  destruct H as [w H]. exists w. split; [exact H|].
  exact (proj1 (broadcast_reaches_every_open_socket _ 0 w _ H)).
Defined.

(** ** The scenario routes *)

(** The table of scenarios is never written. *)
Definition same_table (w w' : World) : Prop := scenarios (mgr w') = scenarios (mgr w).

Ltac same_table :=
  unfold same_table;
  repeat match goal with
         | |- context [match ?x with _ => _ end] => destruct x
         end;
  cbn; auto.

Lemma same_table_spawn_generators (random : nat -> float) (i : nat)
    (cs : list SensorConfig) (w : World) :
  same_table w (spawn_generators random i cs w).
Proof.
  revert i w. induction cs as [|c cs IH]; intros i w; cbn [spawn_generators];
    [reflexivity|].
  cbv zeta.
  exact (IH (S i) (await (createSensorData (reading c (random i)))
                         (gen_created c (isd_status (reading c (random i)))) w)).
Qed.

Lemma same_table_resolve (k : Kont) (r : Reply) (w : World) :
  same_table w (resolve k r w).
Proof.
  destruct k, r; cbn [resolve];
    unfold exec_modifications, exec_alerts, exec_recommend, executeCurrentPhase,
      completeScenario, setPhaseTimer, reset;
    same_table.
Qed.

Lemma same_table_step (l : Label) (w w' : World) :
  step l w = Some w' -> same_table w w'.
Proof.
  destruct l; cbn [step].
  - now intros <-%some_eq.
  - unfold close. destruct (nth_error _ _) as [s|]; [|discriminate].
    destruct (ws_open s); [|discriminate]. now intros <-%some_eq.
  - intros <-%some_eq. apply same_table_spawn_generators.
  - destruct (Insight.performAiAnalysis r1 r2 r3) as [[a r]|]; now intros <-%some_eq.
  - now intros <-%some_eq.
  - intros <-%some_eq. unfold startScenario, stopScenario. same_table.
  - intros <-%some_eq. unfold stopScenario. same_table.
  - destruct (existsb _ _); [|discriminate]. intros <-%some_eq.
    unfold phaseTimerFires, executeCurrentPhase, completeScenario. same_table.
  - destruct (nth_error (tasks w) task) as [[c k]|]; [|discriminate].
    destruct o.
    + destruct (perform now c _) as [r d]. intros <-%some_eq.
      apply (same_table_resolve k r (set_db d (set_tasks _ w))).
    + intros <-%some_eq. destruct k; cbn; same_table.
Qed.

Lemma same_table_run (ls : list Label) (w w' : World) :
  run ls w = Some w' -> same_table w w'.
Proof.
  revert w. induction ls as [|l ls IH]; intros w; cbn [run].
  - now intros <-%some_eq.
  - destruct (step l w) as [w1|] eqn:Hs; [|discriminate]. intros Hr.
    unfold same_table in *. rewrite (IH w1 Hr). now apply (same_table_step l).
Qed.

(** X7: in every state the server can reach, a request to start a scenario
    whose id is none of the three of the table is answered 404 "Scenario not
    found" at once, and nothing else happens: no log or alert is written,
    and a scenario that is running is left running with its timer. *)
Theorem unknown_scenario_is_not_found (ls : list Label) (now t : Z) (w : World)
    (id : string) :
  run ls (initial now) = Some w ->
  ~ In id ["refueling-outage"; "steam-line-break"; "station-blackout"] ->
  exists w',
    step (StartScenario id t) w = Some w'
    /\ responses w'
       = (responses w ++ [{| res_status := 404; res_body := error "Scenario not found" |}])%list
    /\ db w' = db w /\ tasks w' = tasks w /\ mgr w' = mgr w /\ timers w' = timers w
    /\ sockets w' = sockets w.
Proof.
  intros Hrun Hid. cbn [step]. unfold startScenario.
  rewrite (same_table_run ls _ _ Hrun). cbn [initial mgr manager scenarios].
  destruct (find _ Scenario.table) as [s|] eqn:E.
  - exfalso. apply find_some in E as [Hin Heq]. apply String.eqb_eq in Heq.
    apply Hid. subst id. cbn in Hin.
    destruct Hin as [<-|[<-|[<-|[]]]]; cbn; auto.
  - eexists. split; [reflexivity|]. repeat split.
Qed.

Lemma unknown_scenario_is_not_found_witness :
  exists w,
    run (StartScenario "steam-line-break" 0 :: settle 3 1) (initial 0) = Some w
    /\ ~ In "meltdown" ["refueling-outage"; "steam-line-break"; "station-blackout"]
    /\ exists w',
         step (StartScenario "meltdown" 2) w = Some w'
         /\ responses w'
            = (responses w
               ++ [{| res_status := 404; res_body := error "Scenario not found" |}])%list
         /\ db w' = db w /\ tasks w' = tasks w /\ mgr w' = mgr w /\ timers w' = timers w
         /\ sockets w' = sockets w.
Proof.
  assert (H : {w | run (StartScenario "steam-line-break" 0 :: settle 3 1) (initial 0)
                   = Some w})
    by (vm_compute; eexists; reflexivity).
  destruct H as [w H]. exists w.
  assert (Hid : ~ In "meltdown" ["refueling-outage"; "steam-line-break"; "station-blackout"])
    by (intros [E|[E|[E|[]]]]; discriminate E).
  split; [exact H|]. split; [exact Hid|].
  exact (unknown_scenario_is_not_found _ 0 2 w "meltdown" H Hid).
Defined.







(** *** Starting from idle *)

Lemma run_app (l1 l2 : list Label) (w : World) :
  run (l1 ++ l2) w
  = match run l1 w with Some w1 => run l2 w1 | None => None end.
Proof.
  revert w. induction l1 as [|l l1 IH]; intros w; cbn [app run]; [reflexivity|].
  destruct (step l w); [apply IH|reflexivity].
Qed.






(** *** The phase timer *)




(** ** Lower bounds on binary64 arithmetic *)

(** The mantissa left by the first shift of a rounding. *)
Lemma first_shift_range (M E : Z) :
  0 <= M -> E <= fexp64 (Zdigits2 M + E) ->
  let e1 := fexp64 (Zdigits2 M + E) in
  0 <= M / 2 ^ (e1 - E) < 2 ^ 53
  /\ (-1074 < e1 -> 2 ^ 52 <= M / 2 ^ (e1 - E)).
Proof.
  intros HM Hpre e1. set (d := Zdigits2 M) in *. set (n := e1 - E).
  assert (Hn : 0 <= n) by (unfold n, e1; lia).
  assert (Hp : 0 < 2 ^ n) by (apply Z.pow_pos_nonneg; lia).
  assert (Hd0 : 0 <= d) by now apply Zdigits2_nonneg.
  split; [split|].
  - apply Z.div_pos; lia.
  - apply Z.div_lt_upper_bound; [assumption|].
    destruct (Z.eq_dec M 0) as [->|HM0]; [lia|].
    destruct (Zdigits2_bounds M) as [_ Hu]; [lia|]. fold d in Hu.
    eapply Z.lt_le_trans; [exact Hu|]. rewrite <- Z.pow_add_r by lia.
    apply Z.pow_le_mono_r; [lia|]. unfold n, e1. rewrite fexp64_eq. lia.
  - intros Hnorm.
    assert (He1eq : e1 = d + E - 53) by (unfold e1 in *; rewrite fexp64_eq in *; lia).
    assert (HM0 : 0 < M).
    { destruct (Z.eq_dec M 0) as [HM0|]; [|lia]. exfalso.
      unfold e1, d in *. rewrite HM0 in *. cbn [Zdigits2] in *.
      rewrite fexp64_eq in *. lia. }
    destruct (Zdigits2_bounds M HM0) as [Hl _]. fold d in Hl.
    apply Z.div_le_lower_bound; [assumption|].
    rewrite <- Z.pow_add_r by lia. replace (n + 52) with (d - 1) by (unfold n; lia).
    exact Hl.
Qed.

(** What [binary_round_aux] returns: zero when the rounded mantissa is zero,
    else an infinity or the number of the rounded mantissa at the exponent of
    the first shift. *)
Lemma binary_round_aux_value (sx : bool) (M E : Z) (l : location) :
  0 <= M -> -3000 <= E -> E <= fexp64 (Zdigits2 M + E) ->
  let e1 := fexp64 (Zdigits2 M + E) in
  exists m2,
    M / 2 ^ (e1 - E) <= m2
    /\ (binary_round_aux prec emax sx M E l = S754_zero sx /\ m2 = 0
        \/ binary_round_aux prec emax sx M E l = S754_infinity sx
        \/ exists p e, binary_round_aux prec emax sx M E l = S754_finite sx p e
                       /\ V (Z.pos p) e = V m2 e1).
Proof.
  intros HM HE Hpre e1.
  destruct (first_shift_range M E HM Hpre) as [[Hlo Hhi] _]. fold e1 in Hlo, Hhi.
  assert (He1lo : -1074 <= e1) by (unfold e1; rewrite fexp64_eq; lia).
  set (n := e1 - E) in *. assert (Hn : 0 <= n) by (unfold n, e1; lia).
  unfold binary_round_aux, shr_fexp.
  change (SpecFloat.fexp prec emax) with fexp64. fold e1. fold n.
  destruct (shr_spec M E n l HM) as (mrs1 & Hs1 & Hm1 & _ & _).
  replace (Z.max 0 n) with n in * by lia. replace (E + n) with e1 in * by (unfold n; lia).
  rewrite Hs1. rewrite <- Hm1 in *.
  set (m1 := shr_m mrs1) in *. clearbody m1.
  destruct (round_nearest_even_bounds m1 (loc_of_shr_record mrs1)) as [[Hr1 Hr2] _].
  set (m2 := round_nearest_even m1 (loc_of_shr_record mrs1)) in *. clearbody m2.
  exists m2. split; [exact Hr1|].
  set (n2 := fexp64 (Zdigits2 m2 + e1) - e1).
  destruct (shr_spec m2 e1 n2 loc_Exact) as (mrs2 & Hs2 & Hm2 & _ & _); [lia|].
  rewrite Hs2.
  assert (Hcases : m2 = 0 \/ 0 < m2 < 2 ^ 53 \/ m2 = 2 ^ 53) by lia.
  destruct Hcases as [H0|[Hmid|Htop]].
  - left. split; [|exact H0].
    rewrite Hm2, H0, Z.div_0_l; [reflexivity|].
    assert (0 < 2 ^ Z.max 0 n2) by (apply Z.pow_pos_nonneg; lia). lia.
  - right. assert (Hd2 : Zdigits2 m2 <= 53) by (apply Zdigits2_le; lia).
    assert (Hn2 : n2 <= 0) by (unfold n2; rewrite fexp64_eq; lia).
    replace (Z.max 0 n2) with 0 in * by lia.
    rewrite Z.div_1_r in Hm2. rewrite Hm2, Z.add_0_r.
    destruct m2 as [|p|p] eqn:Ep; try lia.
    destruct (e1 <=? emax - prec); [right|now left].
    exists p, e1. split; reflexivity.
  - right. assert (Hd2 : Zdigits2 m2 = 54) by (rewrite Htop; reflexivity).
    assert (Hn2 : n2 = 1) by (unfold n2; rewrite Hd2, fexp64_eq; lia).
    rewrite Hn2 in *. cbn [Z.max Z.compare] in *.
    rewrite Hm2, Htop.
    change (2 ^ 53 / 2 ^ 1) with (Z.pos 4503599627370496). cbv iota.
    destruct (e1 + 1 <=? emax - prec); [right|now left].
    exists 4503599627370496%positive, (e1 + 1). split; [reflexivity|].
    change (Z.pos 4503599627370496) with (2 ^ 52).
    rewrite <- V_shift by lia. reflexivity.
Qed.

(** Rounding stays between two representable bounds of the exact value. *)
Lemma binary_round_aux_between (sx : bool) (M E : Z) (l : location)
    (mc : positive) (ec : Z) (mu : positive) (eu : Z) :
  0 <= M -> -3000 <= E -> E <= fexp64 (Zdigits2 M + E) ->
  bounded prec emax mc ec = true -> bounded prec emax mu eu = true ->
  V (Z.pos mc) ec <= V M E ->
  V M E < V (Z.pos mu) eu \/ (V M E = V (Z.pos mu) eu /\ l = loc_Exact) ->
  exists m e,
    binary_round_aux prec emax sx M E l = S754_finite sx m e
    /\ bounded prec emax m e = true
    /\ V (Z.pos mc) ec <= V (Z.pos m) e <= V (Z.pos mu) eu.
Proof.
  intros HM HE Hpre Hc Hu Hlo Hhi.
  pose proof (binary_round_aux_le sx M E l mu eu HM HE Hpre Hu Hhi) as Hle.
  destruct (binary_round_aux_value sx M E l HM HE Hpre) as (m2 & Hm2 & Hval).
  destruct (first_shift_range M E HM Hpre) as [[Hm1lo Hm1hi] Hnorm].
  pose proof (bounded_range mc ec Hc) as (Hec & Hdc & Hmc & _).
  set (d := Zdigits2 M) in *. set (e1 := fexp64 (d + E)) in *.
  assert (He1lo : -1074 <= e1) by (unfold e1; rewrite fexp64_eq; lia).
  set (n := e1 - E) in *. assert (Hn : 0 <= n) by (unfold n; lia).
  assert (Hp : 0 < 2 ^ n) by (apply Z.pow_pos_nonneg; lia).
  assert (Hcpos : 0 < V (Z.pos mc) ec) by (apply V_pos; lia).
  assert (HM0 : 0 < M).
  { destruct (Z.eq_dec M 0) as [E0|]; [|lia]. rewrite E0 in Hlo. unfold V in Hlo at 2.
    lia. }
  (* the lower bound is at most the truncated value *)
  assert (Hc1 : V (Z.pos mc) ec <= V (M / 2 ^ n) e1).
  { assert (Hece1 : ec <= e1).
    { apply bounded_spec in Hc as [Hcan _].
      destruct (Zdigits2_bounds M HM0) as [_ HuM]. fold d in HuM.
      pose proof (Zdigits2_bounds (Z.pos mc) eq_refl) as [Hlc _].
      pose proof (Zdigits2_pos (Z.pos mc) eq_refl) as Hdcpos.
      assert (Hd0 : 0 < d) by now apply Zdigits2_pos.
      assert (HVc : V (2 ^ (Zdigits2 (Z.pos mc) - 1)) ec <= V (Z.pos mc) ec)
        by (apply V_le; lia).
      assert (HVM : V M E < V (2 ^ d) E) by (apply V_lt; lia).
      rewrite V_pow2 in HVc, HVM by lia.
      assert (Hlt : 2 ^ (Zdigits2 (Z.pos mc) - 1 + ec + 3000) < 2 ^ (d + E + 3000)) by lia.
      apply pow2_lt_inv in Hlt; [|lia].
      rewrite <- Hcan. unfold e1. apply fexp64_mono. lia. }
    destruct (Z.eq_dec ec e1) as [Heq|Hne].
    - rewrite Heq in *. apply V_le; [lia|].
      apply Z.div_le_lower_bound; [assumption|].
      apply (V_le _ _ E HE). rewrite Z.mul_comm, V_shift by lia.
      replace (E + n) with e1 by (unfold n; lia). exact Hlo.
    - specialize (Hnorm ltac:(lia)).
      apply Z.le_trans with (V (2 ^ 52) e1); [|apply V_le; lia].
      apply Z.le_trans with (V (2 ^ 53) ec).
      + apply V_le; lia.
      + replace (2 ^ 53) with (2 ^ 52 * 2 ^ 1) by reflexivity.
        rewrite V_shift by lia. apply V_mono_e; lia. }
  assert (Hc2 : V (Z.pos mc) ec <= V m2 e1).
  { apply Z.le_trans with (1 := Hc1). apply V_le; lia. }
  destruct Hval as [[_ H0]|[Hinf|(p & e & Hres & Hv)]].
  - exfalso. rewrite H0 in Hc2. unfold V in Hc2 at 2. lia.
  - exfalso. rewrite Hinf in Hle. destruct Hle as [H|(? & ? & H & _)]; discriminate.
  - exists p, e. split; [exact Hres|].
    rewrite Hres in Hle. destruct Hle as [H|(p' & e' & H & Hb & Hle)]; [discriminate|].
    injection H as <- <-. split; [exact Hb|]. split; [lia|exact Hle].
Qed.

Lemma binary_round_between (sx : bool) (mx : positive) (ex : Z)
    (mc : positive) (ec : Z) (mu : positive) (eu : Z) :
  -3000 <= ex ->
  bounded prec emax mc ec = true -> bounded prec emax mu eu = true ->
  V (Z.pos mc) ec <= V (Z.pos mx) ex <= V (Z.pos mu) eu ->
  exists m e,
    binary_round prec emax sx mx ex = S754_finite sx m e
    /\ bounded prec emax m e = true
    /\ V (Z.pos mc) ec <= V (Z.pos m) e <= V (Z.pos mu) eu.
Proof.
  intros Hex Hc Hu [Hlo Hhi].
  assert (Hup : forall M E, V M E = V (Z.pos mx) ex ->
            V M E < V (Z.pos mu) eu
            \/ (V M E = V (Z.pos mu) eu /\ loc_Exact = loc_Exact)).
  { intros M E HV. rewrite HV.
    destruct (Z.eq_dec (V (Z.pos mx) ex) (V (Z.pos mu) eu)); [right; now split|left; lia]. }
  unfold binary_round.
  change (SpecFloat.fexp prec emax) with fexp64.
  change (Z.pos (digits2_pos mx)) with (Zdigits2 (Z.pos mx)).
  set (e' := fexp64 (Zdigits2 (Z.pos mx) + ex)).
  assert (He' : -1074 <= e') by (unfold e'; rewrite fexp64_eq; lia).
  destruct (Z.le_gt_cases ex e') as [Hcase|Hcase].
  - rewrite shl_align_id by assumption.
    apply binary_round_aux_between; auto; lia.
  - destruct (shl_align_spec mx ex e') as [Hm He]; [lia|].
    destruct (shl_align mx ex e') as [mz ez]. cbn [fst snd] in *. subst ez.
    assert (HV : V (Z.pos mz) e' = V (Z.pos mx) ex).
    { rewrite Hm, V_shift by lia. f_equal. lia. }
    apply binary_round_aux_between; auto; try lia.
    rewrite Hm, Zdigits2_shift by lia.
    replace (Zdigits2 (Z.pos mx) + (ex - e') + e') with (Zdigits2 (Z.pos mx) + ex) by lia.
    fold e'. lia.
Qed.

(** [x] is a positive canonical number between [c] and [u]. *)
Definition between (c u : Z) (x : spec_float) : Prop :=
  exists m e, x = S754_finite false m e /\ bounded prec emax m e = true
              /\ c <= V (Z.pos m) e <= u.

(** A positive number plus one of smaller magnitude. *)
Lemma SFadd_between (mx : positive) (ex : Z) (b : Z) (y : spec_float)
    (mc : positive) (ec : Z) (mu : positive) (eu : Z) :
  bounded prec emax mx ex = true ->
  bounded prec emax mc ec = true -> bounded prec emax mu eu = true ->
  within b y ->
  V (Z.pos mc) ec + b <= V (Z.pos mx) ex -> V (Z.pos mx) ex + b <= V (Z.pos mu) eu ->
  between (V (Z.pos mc) ec) (V (Z.pos mu) eu)
    (SFadd prec emax (S754_finite false mx ex) y).
Proof.
  intros Hx Hc Hu [Hb [[s ->]|(s & m & e & -> & Hy & Hle)]] Hlo Hhi.
  - cbn [SFadd]. exists mx, ex. repeat split; auto; lia.
  - cbn [SFadd].
    pose proof (bounded_range mx ex Hx) as (Hex & _).
    pose proof (bounded_range m e Hy) as (Hey & _).
    pose proof (bounded_range mc ec Hc) as (Hec & _).
    pose proof (V_pos (Z.pos mc) ec eq_refl ltac:(lia)) as Hcpos.
    pose proof (V_pos (Z.pos m) e eq_refl ltac:(lia)) as Hypos.
    set (ez := Z.min ex e).
    set (A := Z.pos (fst (shl_align mx ex ez))).
    set (B := Z.pos (fst (shl_align m e ez))).
    assert (HA : V A ez = V (Z.pos mx) ex) by (apply V_aligned; unfold ez; lia).
    assert (HB : V B ez = V (Z.pos m) e) by (apply V_aligned; unfold ez; lia).
    assert (HS : V (Z.pos mc) ec <= V (A + cond_Zopp s B) ez <= V (Z.pos mu) eu).
    { rewrite V_add, V_cond_Zopp, HA, HB. destruct s; cbn [cond_Zopp]; lia. }
    change (cond_Zopp false A) with A.
    destruct (A + cond_Zopp s B) as [|p|p] eqn:ES.
    + exfalso. unfold V in HS at 2. lia.
    + cbn [binary_normalize]. apply binary_round_between; auto. unfold ez. lia.
    + exfalso. assert (V (Z.neg p) ez < 0); [|lia].
      unfold V. apply Z.mul_neg_pos; [lia|]. apply Z.pow_pos_nonneg; unfold ez; lia.
Qed.

(** A number above [c] compares above [c]. *)
Lemma SFltb_between (mt : positive) (et : Z) (c u : Z) (x : spec_float) :
  bounded prec emax mt et = true ->
  between c u x -> V (Z.pos mt) et < c ->
  SFltb (S754_finite false mt et) x = true.
Proof.
  intros Ht (m & e & -> & Hb & Hc & _) Hlt.
  unfold SFltb. rewrite SFcompare_canonical by assumption.
  destruct (Z.compare_spec (V (Z.pos mt) et) (V (Z.pos m) e)); try reflexivity; lia.
Qed.

(** *** The range of a generated value *)

Section Range.

(** A sensor of baseline [B] and variance [W], both positive; [H] is half
    the variance, and the values stay between [L] and [U]. *)
Variables (B W H L U : float) (mb mw mh ml mu : positive) (eb ew eh el eu : Z).
Hypothesis HB : Prim2SF B = S754_finite false mb eb.
Hypothesis HW : Prim2SF W = S754_finite false mw ew.
Hypothesis HH : Prim2SF H = S754_finite false mh eh.
Hypothesis HL : Prim2SF L = S754_finite false ml el.
Hypothesis HU : Prim2SF U = S754_finite false mu eu.
Hypothesis HWn : 2 ^ 52 <= Z.pos mw.
Hypothesis Hhalf :
  V (Z.pos 4503599627370496) (-53) * V (Z.pos mw) ew <= V (Z.pos mh) eh * 2 ^ 3000.
Hypothesis Hlow : V (Z.pos ml) el + V (Z.pos mh) eh <= V (Z.pos mb) eb.
Hypothesis Hhigh : V (Z.pos mb) eb + V (Z.pos mh) eh <= V (Z.pos mu) eu.

Lemma generated_between (r : float) :
  JS.unit_interval r = true ->
  between (V (Z.pos ml) el) (V (Z.pos mu) eu) (Prim2SF (B + (r - 0.5) * W)).
Proof.
  intros Hr%unit_interval_spec.
  rewrite add_spec, mul_spec, sub_spec, HB, HW.
  change (Prim2SF 0.5) with (S754_finite false 4503599627370496 (-53)).
  unfold SF64add, SF64mul, SF64sub.
  apply SFadd_between with (b := V (Z.pos mh) eh);
    [exact (Prim2SF_bounded _ _ _ _ HB)|exact (Prim2SF_bounded _ _ _ _ HL)
    |exact (Prim2SF_bounded _ _ _ _ HU)| |exact Hlow|exact Hhigh].
  apply SFmul_le with (a := V (Z.pos 4503599627370496) (-53));
    [exact (Prim2SF_bounded _ _ _ _ HW)|exact HWn
    |exact (Prim2SF_bounded _ _ _ _ HH)| |exact Hhalf].
  apply SFsub_le with (a := V (Z.pos 9007199254740991) (-53));
    [reflexivity|reflexivity|exact Hr|lia|].
  apply Z.leb_le. vm_compute. reflexivity.
Qed.

(** The generated value is above every number below [L]. *)
Lemma generated_above (T : float) (mt : positive) (et : Z) (r : float) :
  Prim2SF T = S754_finite false mt et ->
  V (Z.pos mt) et < V (Z.pos ml) el ->
  JS.unit_interval r = true ->
  JS.gt (B + (r - 0.5) * W) T = true.
Proof.
  intros HT Hlt Hr. unfold JS.gt. rewrite ltb_spec, HT.
  eapply SFltb_between; [exact (Prim2SF_bounded _ _ _ _ HT)| |exact Hlt].
  now apply generated_between.
Qed.

(** The generated value is not above a number from [U] on. *)
Lemma generated_not_above (T : float) (mt : positive) (et : Z) (r : float) :
  Prim2SF T = S754_finite false mt et ->
  V (Z.pos mu) eu <= V (Z.pos mt) et ->
  JS.unit_interval r = true ->
  JS.gt (B + (r - 0.5) * W) T = false.
Proof.
  intros HT Hle Hr. unfold JS.gt. rewrite ltb_spec, HT.
  pose proof (Prim2SF_bounded _ _ _ _ HT) as Hbt.
  destruct (generated_between r Hr) as (m & e & -> & Hb & _ & Hu).
  unfold SFltb. rewrite SFcompare_canonical by assumption.
  destruct (Z.compare_spec (V (Z.pos mt) et) (V (Z.pos m) e)); try reflexivity; lia.
Qed.

End Range.

Ltac by_leb := first [apply Z.leb_le|apply Z.ltb_lt]; vm_compute; reflexivity.

(** ** server/routes.ts: the statuses the generator can give *)

(** The status of a value known not to be above the threshold. *)
Ltac stays_normal base variance low high Hr :=
  erewrite (generated_not_above base variance (variance * 0.5) low high);
    [reflexivity
    |reflexivity|reflexivity|reflexivity|reflexivity|reflexivity
    |by_leb|by_leb|by_leb|by_leb|reflexivity|by_leb|exact Hr].

(** The comparison of a value known to be above [T]. *)
Ltac goes_above base variance low high limit Hr :=
  erewrite (generated_above base variance (variance * 0.5) low high) with (T := limit);
    [
    |reflexivity|reflexivity|reflexivity|reflexivity|reflexivity
    |by_leb|by_leb|by_leb|by_leb|reflexivity|by_leb|exact Hr].

Definition COOL_PRI_01 : SensorConfig :=
  config "COOL-PRI-01" "coolant_flow" "L/s" 1247 30 1180 1400 "AWS".

Definition COOL_SEC_01 : SensorConfig :=
  config "COOL-SEC-01" "coolant_flow" "L/s" 890 25 850 950 "Ubuntu".

(** The secondary coolant flow is generated between 877.5 and 902.5: above
    its threshold of 850 and above nine tenths of its maximum of 950. *)
Lemma coolant_secondary_critical (r : float) :
  JS.unit_interval r = true -> isd_status (reading COOL_SEC_01 r) = critical.
Proof.
  intros Hr.
  unfold reading, deriveStatus, generatedValue, nearMax, COOL_SEC_01, config.
  cbn [isd_status cfg_threshold cfg_baseValue cfg_variance cfg_maxValue JS.gt_opt].
  goes_above 890%float 25%float 877.5%float 902.5%float 850%float Hr.
  cbv iota.
  goes_above 890%float 25%float 877.5%float 902.5%float (950 * 0.9)%float Hr.
  reflexivity.
Qed.

(** The primary coolant flow is generated between 1232 and 1262: above its
    threshold of 1180. *)
Lemma coolant_primary_breached (r : float) :
  JS.unit_interval r = true -> breached (isd_status (reading COOL_PRI_01 r)) = true.
Proof.
  intros Hr.
  unfold reading, deriveStatus, generatedValue, COOL_PRI_01, config.
  cbn [isd_status cfg_threshold cfg_baseValue cfg_variance cfg_maxValue JS.gt_opt].
  goes_above 1247%float 30%float 1232%float 1262%float 1180%float Hr.
  cbv iota. now destruct (nearMax _ _).
Qed.

(** Every other sensor is generated at or below its threshold. *)
Lemma other_sensors_normal (cfg : SensorConfig) (r : float) :
  In cfg SENSOR_CONFIGS -> cfg_sensorType cfg <> "coolant_flow" ->
  JS.unit_interval r = true -> isd_status (reading cfg r) = normal.
Proof.
  intros Hin Hty Hr. unfold SENSOR_CONFIGS in Hin. cbn [In] in Hin.
  repeat (destruct Hin as [<-|Hin];
          [try (exfalso; apply Hty; reflexivity)|]); [..|destruct Hin];
    unfold reading, deriveStatus, generatedValue, config;
    cbn [isd_status cfg_threshold cfg_baseValue cfg_variance cfg_maxValue JS.gt_opt].
  - stays_normal 580%float 8%float 1%float 590%float Hr.
  - stays_normal 575%float 10%float 1%float 590%float Hr.
  - stays_normal 15.5%float 0.3%float 1%float 16.2%float Hr.
  - stays_normal 7.0%float 0.2%float 1%float 7.8%float Hr.
  - stays_normal 2.1%float 0.2%float 1%float 4.5%float Hr.
  - stays_normal 0.8%float 0.1%float 0.5%float 2.0%float Hr.
  - stays_normal 2.8e14%float 0.15e14%float 1%float 3.2e14%float Hr.
  - stays_normal 2.9e14%float 0.18e14%float 1%float 3.2e14%float Hr.
  - stays_normal 68%float 2%float 1%float 72%float Hr.
  - stays_normal 65%float 3%float 1%float 72%float Hr.
Qed.

(** X11: whatever [Math.random()] returns, the generator gives COOL-SEC-01
    the status "critical" and COOL-PRI-01 "warning" or "critical" (both
    occur), and every sensor that does not measure coolant flow "normal":
    the sample generator can raise alerts for the two coolant sensors only. *)
Theorem statuses_of_the_configured_sensors (cfg : SensorConfig) (r : float) :
  In cfg SENSOR_CONFIGS -> JS.unit_interval r = true ->
  (cfg_nodeId cfg = "COOL-SEC-01" -> isd_status (reading cfg r) = critical)
  /\ (cfg_nodeId cfg = "COOL-PRI-01" -> isd_status (reading cfg r) <> normal)
  /\ (cfg_sensorType cfg <> "coolant_flow" -> isd_status (reading cfg r) = normal)
  /\ isd_status (reading COOL_PRI_01 0.5) = warning
  /\ isd_status (reading COOL_PRI_01 0.95) = critical.
Proof.
  intros Hin Hr.
  split; [|split; [|split; [|split; reflexivity]]].
  - intros Hid. unfold SENSOR_CONFIGS in Hin. cbn [In] in Hin.
    repeat (destruct Hin as [<-|Hin]; [try discriminate Hid|]); [|destruct Hin].
    now apply coolant_secondary_critical.
  - intros Hid. unfold SENSOR_CONFIGS in Hin. cbn [In] in Hin.
    repeat (destruct Hin as [<-|Hin]; [try discriminate Hid|]); [|destruct Hin].
    pose proof (coolant_primary_breached r Hr) as H.
    fold COOL_PRI_01. now destruct (isd_status _).
  - intros Hty. now apply other_sensors_normal.
Qed.

Lemma statuses_of_the_configured_sensors_witness :
  In COOL_PRI_01 SENSOR_CONFIGS /\ JS.unit_interval 0.25 = true
  /\ isd_status (reading COOL_PRI_01 0.25) <> normal.
Proof.
  assert (Hin : In COOL_PRI_01 SENSOR_CONFIGS) by (do 6 right; left; reflexivity).
  split; [exact Hin|]. split; [reflexivity|].
  exact (proj1 (proj2 (statuses_of_the_configured_sensors COOL_PRI_01 0.25 Hin eq_refl))
           eq_refl).
Defined.

(** ** Logs and recommendations on their way to the observers *)

(** What [broadcast] does in a state the server can reach. *)
Lemma broadcast_all (m : Message) (w : World) :
  clients_inv w ->
  broadcast m w = set_sockets (map (send_if_open m) (sockets w)) (clients w) w.
Proof.
  intros [Hnd Hin]. unfold broadcast. f_equal. now apply deliver_all.
Qed.

(** The row [createSystemLog] stores at time [now]. *)
Definition logged (now : Z) (l : InsertSystemLog) (d : Db) : SystemLog :=
  {| log_id := systemLogs_seq d; log_timestamp := now; log_level := ilog_level l;
     log_message := ilog_message l; log_source := ilog_source l |}.

(** The write behind [createSystemLog(level, message, source)] settles. *)
Lemma log_created_settles (i : nat) (now : Z) (l : InsertSystemLog) (w : World) :
  clients_inv w ->
  nth_error (tasks w) i = Some (createSystemLog l, log_created) ->
  (exists w',
     step (Settle i now Resolved) w = Some w'
     /\ systemLogs (db w') = (systemLogs (db w) ++ [logged now l (db w)])%list
     /\ sockets w' = map (send_if_open (system_log (logged now l (db w)))) (sockets w)
     /\ clients w' = clients w
     /\ tasks w' = remove_nth i (tasks w)
     /\ faults w' = faults w
     /\ aiRecommendations (db w') = aiRecommendations (db w))
  /\ (exists w',
        step (Settle i now Rejected) w = Some w'
        /\ db w' = db w /\ sockets w' = sockets w
        /\ tasks w' = remove_nth i (tasks w)
        /\ faults w' = (faults w ++ ["unhandled rejection: createSystemLog"])%list).
Proof.
  intros Hinv Hi. split.
  - cbn [step]. rewrite Hi. cbn [perform db set_tasks].
    unfold Storage.createSystemLog. cbn [resolve].
    rewrite broadcast_all by exact Hinv.
    eexists. split; [reflexivity|]. cbn. repeat split.
  - cbn [step]. rewrite Hi. eexists. split; [reflexivity|]. cbn. repeat split.
Qed.

(** The row [createAiRecommendation] stores at time [now]. *)
Definition recommended (now : Z) (r : InsertAiRecommendation) (d : Db)
    : AiRecommendation :=
  {| rec_id := aiRecommendations_seq d; rec_title := irec_title r;
     rec_description := irec_description r; rec_priority := irec_priority r;
     rec_confidence := irec_confidence r; rec_category := irec_category r;
     rec_timestamp := now |}.

(** X12: a tick of [performAiAnalysis] that draws below 0.25, in any state
    the server can reach and whatever else is pending.  When both writes
    succeed, the recommendation is stored and sent to every open socket,
    then the log "AI analysis completed: <title>" is stored and sent to
    every open socket.  When the first write fails nothing is stored or
    sent and no error escapes; when the write of the log fails the
    recommendation has been stored and sent, and the rejection is handled
    by nobody. *)
Theorem analysis_is_stored_sent_and_logged (ls : list Label) (now : Z) (w : World)
    (r1 r2 r3 : float) (t1 t2 : Z) :
  run ls (initial now) = Some w ->
  PrimFloat.ltb r1 0.25 = true ->
  JS.unit_interval r2 = true -> JS.unit_interval r3 = true ->
  let i := List.length (tasks w) in
  exists analysis r,
    Insight.performAiAnalysis r1 r2 r3 = Some (analysis, r)
    /\ let row := recommended t1 r (db w) in
       let l := log "info" ("AI analysis completed: " ++ Insight.title analysis)
                    "ai-system" in
       let line := logged t2 l (db w) in
       (exists w',
          run [PerformAiAnalysis r1 r2 r3; Settle i t1 Resolved; Settle i t2 Resolved] w
          = Some w'
          /\ aiRecommendations (db w') = (aiRecommendations (db w) ++ [row])%list
          /\ systemLogs (db w') = (systemLogs (db w) ++ [line])%list
          /\ sockets w'
             = map (send_if_open (system_log line))
                 (map (send_if_open (ai_recommendation row)) (sockets w))
          /\ tasks w' = tasks w /\ faults w' = faults w)
       /\ (exists w',
             run [PerformAiAnalysis r1 r2 r3; Settle i t1 Rejected] w = Some w'
             /\ db w' = db w /\ sockets w' = sockets w
             /\ tasks w' = tasks w /\ faults w' = faults w)
       /\ (exists w',
             run [PerformAiAnalysis r1 r2 r3; Settle i t1 Resolved; Settle i t2 Rejected] w
             = Some w'
             /\ aiRecommendations (db w') = (aiRecommendations (db w) ++ [row])%list
             /\ systemLogs (db w') = systemLogs (db w)
             /\ sockets w' = map (send_if_open (ai_recommendation row)) (sockets w)
             /\ tasks w' = tasks w
             /\ faults w'
                = (faults w ++ ["unhandled rejection: createSystemLog"])%list).
Proof.
  intros Hrun H1 H2 H3. cbv zeta.
  pose proof (clients_inv_run ls _ _ Hrun (clients_inv_initial now)) as Hinv.
  destruct (confidenceVariation_range r3 H3) as (v & Hv & _).
  destruct (pick_total r2 H2) as (a & Ha).
  assert (Hp : Insight.performAiAnalysis r1 r2 r3
               = Some (a, {| irec_title := Insight.title a;
                             irec_description := Insight.description a;
                             irec_priority := Insight.priority a;
                             irec_confidence := Insight.finalConfidence a v;
                             irec_category := Some (Insight.category a) |})).
  { unfold Insight.performAiAnalysis. now rewrite H1, Ha, Hv. }
  eexists _, _. split; [exact Hp|].
  set (r := {| irec_title := Insight.title a |}) in *.
  (* the tick, and the first write resolving *)
  assert (Hfirst : run [PerformAiAnalysis r1 r2 r3; Settle (List.length (tasks w)) t1 Resolved] w
    = Some (await (createSystemLog
                     (log "info" ("AI analysis completed: " ++ Insight.title a) "ai-system"))
                  log_created
                  (set_sockets
                     (map (send_if_open (ai_recommendation (recommended t1 r (db w))))
                        (sockets w))
                     (clients w)
                     (set_db (snd (Storage.createAiRecommendation t1 r (db w))) w)))).
  { cbn [run step]. rewrite Hp. unfold await. cbn [step tasks set_tasks].
    rewrite nth_error_snoc, remove_nth_snoc. cbn [perform db set_tasks].
    unfold Storage.createAiRecommendation at 1. cbn [resolve].
    rewrite broadcast_all by exact Hinv. destruct w; reflexivity. }
  set (w1 := await _ _ _) in Hfirst.
  assert (Hinv1 : clients_inv w1).
  { destruct Hinv as [Hnd Hin]. split; [exact Hnd|]. intros n. cbn [w1 await set_tasks
      sockets clients set_sockets]. rewrite Hin, map_map.
    erewrite map_ext; [reflexivity|]. intros s. unfold send_if_open.
    now destruct (ws_open s) eqn:E. }
  assert (Ht1 : nth_error (tasks w1) (List.length (tasks w))
                = Some (createSystemLog
                          (log "info" ("AI analysis completed: " ++ Insight.title a)
                               "ai-system"), log_created))
    by apply nth_error_snoc.
  destruct (log_created_settles _ t2 _ w1 Hinv1 Ht1) as [Hok Hfail].
  assert (Hrest : remove_nth (List.length (tasks w)) (tasks w1) = tasks w)
    by apply remove_nth_snoc.
  split; [|split].
  - destruct Hok as (w' & Hs & L1 & L2 & L3 & L4 & L5 & L6). exists w'.
    change [PerformAiAnalysis r1 r2 r3; Settle (List.length (tasks w)) t1 Resolved;
            Settle (List.length (tasks w)) t2 Resolved]
      with ([PerformAiAnalysis r1 r2 r3; Settle (List.length (tasks w)) t1 Resolved]
            ++ [Settle (List.length (tasks w)) t2 Resolved])%list.
    rewrite run_app, Hfirst. cbn [run]. rewrite Hs.
    split; [reflexivity|]. rewrite L1, L2, L4, L5, L6, Hrest. repeat split.
  - cbn [run step]. rewrite Hp. unfold await. cbn [step tasks set_tasks].
    rewrite nth_error_snoc, remove_nth_snoc. eexists. split; [reflexivity|].
    cbn. repeat split.
  - destruct Hfail as (w' & Hs & L1 & L2 & L3 & L4). exists w'.
    change [PerformAiAnalysis r1 r2 r3; Settle (List.length (tasks w)) t1 Resolved;
            Settle (List.length (tasks w)) t2 Rejected]
      with ([PerformAiAnalysis r1 r2 r3; Settle (List.length (tasks w)) t1 Resolved]
            ++ [Settle (List.length (tasks w)) t2 Rejected])%list.
    rewrite run_app, Hfirst. cbn [run]. rewrite Hs.
    split; [reflexivity|]. rewrite L1, L2, L3, L4, Hrest. repeat split.
Qed.

Lemma analysis_is_stored_sent_and_logged_witness :
  exists w analysis r,
    run [Connection; Connection; Close 0] (initial 0) = Some w
    /\ Insight.performAiAnalysis 0.1 0.55 0.99 = Some (analysis, r)
    /\ exists w',
         run [PerformAiAnalysis 0.1 0.55 0.99; Settle (List.length (tasks w)) 7 Resolved;
              Settle (List.length (tasks w)) 8 Resolved] w = Some w'
         /\ aiRecommendations (db w')
            = (aiRecommendations (db w) ++ [recommended 7 r (db w)])%list
         /\ tasks w' = tasks w /\ faults w' = faults w.
Proof.
  assert (H : {w | run [Connection; Connection; Close 0] (initial 0) = Some w})
    by (vm_compute; eexists; reflexivity).
  destruct H as [w H]. exists w.
  destruct (analysis_is_stored_sent_and_logged _ 0 w 0.1 0.55 0.99 7 8 H
              eq_refl eq_refl eq_refl)
    as (a & r & Hp & (w' & Hr & R1 & _ & _ & R4 & R5) & _).
  exists a, r. split; [exact H|]. split; [exact Hp|].
  exists w'. repeat (split; [assumption|]). exact R5.
Defined.

(** Every [Math.random()] picks a health message. *)
Lemma pickHealth_total (r : float) :
  JS.unit_interval r = true ->
  exists healthMsg, Routes.pickHealth r = Some healthMsg /\ In healthMsg Routes.healthMessages.
Proof.
  intros Hr. unfold Routes.pickHealth.
  change (JS.of_Z (Z.of_nat (List.length Routes.healthMessages))) with 5%float.
  destruct (floor_random_times 5 5 5629499534213120 (-50) 5629499534213119 (-50))
    with (r := r) as (z & -> & Hz);
    try reflexivity; try (apply Z.leb_le; vm_compute; reflexivity); try exact Hr.
  - exists 4. split; [vm_compute; reflexivity|lia].
  - destruct (Z.ltb_spec z 0) as [|_]; [lia|].
    destruct (nth_error Routes.healthMessages (Z.to_nat z)) as [a|] eqn:Hn.
    + exists a. split; [reflexivity|]. eapply nth_error_In; eassumption.
    + apply nth_error_None in Hn. cbn [List.length Routes.healthMessages] in Hn. lia.
Qed.

(** X13: the periodic health check never fails on its pick, whatever
    [Math.random()] returns.  A draw of 0.15 or more does nothing; a draw
    below queues the write of one of the five health messages, which, once
    written, is stored at level "info" under the next id and sent to every
    open socket; if the write fails, nobody handles the rejection. *)
Theorem health_check_logs_one_message (ls : list Label) (now : Z) (w : World)
    (r1 r2 : float) (t : Z) :
  run ls (initial now) = Some w ->
  JS.unit_interval r2 = true ->
  let i := List.length (tasks w) in
  exists w1,
    Routes.healthCheck r1 r2 w = Some w1
    /\ (PrimFloat.ltb r1 0.15 = false -> w1 = w)
    /\ (PrimFloat.ltb r1 0.15 = true ->
        exists healthMsg,
          In healthMsg Routes.healthMessages
          /\ ilog_level healthMsg = "info"
          /\ (exists w',
                step (Settle i t Resolved) w1 = Some w'
                /\ systemLogs (db w')
                   = (systemLogs (db w) ++ [logged t healthMsg (db w)])%list
                /\ sockets w'
                   = map (send_if_open (system_log (logged t healthMsg (db w))))
                       (sockets w)
                /\ tasks w' = tasks w /\ faults w' = faults w)
          /\ (exists w',
                step (Settle i t Rejected) w1 = Some w'
                /\ db w' = db w /\ sockets w' = sockets w /\ tasks w' = tasks w
                /\ faults w'
                   = (faults w ++ ["unhandled rejection: createSystemLog"])%list)).
Proof.
  intros Hrun H2. cbv zeta.
  pose proof (clients_inv_run ls _ _ Hrun (clients_inv_initial now)) as Hinv.
  destruct (pickHealth_total r2 H2) as (msg & Hpick & Hin).
  unfold Routes.healthCheck. rewrite Hpick.
  destruct (PrimFloat.ltb r1 0.15) eqn:E.
  - eexists. split; [reflexivity|]. split; [discriminate|]. intros _.
    exists msg. split; [exact Hin|]. split.
    { cbn in Hin. destruct Hin as [<-|[<-|[<-|[<-|[<-|[]]]]]]; reflexivity. }
    set (w1 := await _ _ w).
    assert (Ht : nth_error (tasks w1) (List.length (tasks w))
                 = Some (createSystemLog
                           (log (ilog_level msg) (ilog_message msg) (ilog_source msg)),
                         log_created))
      by apply nth_error_snoc.
    destruct (log_created_settles _ t _ w1 Hinv Ht) as [Hok Hfail].
    assert (Hrest : remove_nth (List.length (tasks w)) (tasks w1) = tasks w)
      by apply remove_nth_snoc.
    split.
    + destruct Hok as (w' & Hs & L1 & L2 & L3 & L4 & L5 & L6). exists w'.
      split; [exact Hs|]. rewrite L1, L2, L4, L5, Hrest. repeat split.
    + destruct Hfail as (w' & Hs & L1 & L2 & L3 & L4). exists w'.
      split; [exact Hs|]. rewrite L1, L2, L3, L4, Hrest. repeat split.
  - exists w. split; [reflexivity|]. split; [reflexivity|discriminate].
Qed.

Lemma health_check_logs_one_message_witness :
  exists w w1,
    run [Connection; Connection; Close 0] (initial 0) = Some w
    /\ JS.unit_interval 0.5 = true
    /\ Routes.healthCheck 0.1 0.5 w = Some w1
    /\ exists healthMsg w',
         In healthMsg Routes.healthMessages
         /\ step (Settle (List.length (tasks w)) 9 Resolved) w1 = Some w'
         /\ systemLogs (db w') = (systemLogs (db w) ++ [logged 9 healthMsg (db w)])%list.
Proof.
  assert (H : {w | run [Connection; Connection; Close 0] (initial 0) = Some w})
    by (vm_compute; eexists; reflexivity).
  destruct H as [w H]. exists w.
  destruct (health_check_logs_one_message _ 0 w 0.1 0.5 9 H eq_refl)
    as (w1 & Hc & _ & Hlow).
  destruct (Hlow eq_refl) as (msg & Hin & _ & (w' & Hs & L1 & _) & _).
  exists w1. repeat (split; [assumption || reflexivity|]).
  exists msg, w'. repeat (split; [assumption|]). exact L1.
Defined.

(** ** Grouping readings by sensor *)

(** The readings of [data] that sensor [k] made, in the order of [data]. *)
Definition readings_of (k : string) (data : list SensorData) : list SensorData :=
  filter (fun r => String.eqb (sd_nodeId r) k) data.

Lemma has_keys (g : Engine.Groups) (k : string) :
  Engine.has g k = true <-> In k (map fst g).
Proof.
  induction g as [|[k' v] g IH]; cbn; [split; [discriminate|contradiction]|].
  rewrite orb_true_iff, IH, String.eqb_eq. reflexivity.
Qed.

Lemma set_absent (g : Engine.Groups) (k : string) (v : list SensorData) :
  Engine.has g k = false -> Engine.set g k v = (g ++ [(k, v)])%list.
Proof.
  induction g as [|[k' v'] g IH]; cbn; [reflexivity|].
  intros [H1 H2]%orb_false_iff. rewrite H1. now rewrite IH.
Qed.

Lemma push_absent (g : Engine.Groups) (k : string) (v : list SensorData)
    (r : SensorData) :
  Engine.has g k = false ->
  Engine.push (g ++ [(k, v)])%list k r = Some (g ++ [(k, (v ++ [r])%list)])%list.
Proof.
  induction g as [|[k' v'] g IH]; cbn.
  - now rewrite String.eqb_refl.
  - intros [H1 H2]%orb_false_iff. rewrite H1, IH by assumption. reflexivity.
Qed.

Lemma push_present (g : Engine.Groups) (k : string) (r : SensorData) :
  Engine.has g k = true ->
  exists g1 v g2,
    g = (g1 ++ (k, v) :: g2)%list /\ Engine.has g1 k = false
    /\ Engine.push g k r = Some (g1 ++ (k, (v ++ [r])%list) :: g2)%list.
Proof.
  induction g as [|[k' v'] g IH]; cbn; [discriminate|].
  destruct (String.eqb_spec k' k) as [->|Hne]; cbn [orb].
  - intros _. exists [], v', g. repeat split.
  - intros H. destruct (IH H) as (g1 & v & g2 & -> & Hg1 & ->).
    exists ((k', v') :: g1), v, g2. cbn. repeat split.
    apply String.eqb_neq in Hne. now rewrite Hne.
Qed.

(** What the map holds after the readings [pre]: a group for each sensor
    that has readings, with all of them in order. *)
Record grouped_by (pre : list SensorData) (g : Engine.Groups) : Prop := {
  groups_NoDup : NoDup (map fst g);
  groups_In : forall k l, In (k, l) g <-> l = readings_of k pre /\ l <> [];
  groups_all : Permutation (List.concat (map snd g)) pre
}.

Lemma readings_of_snoc (k : string) (pre : list SensorData) (r : SensorData) :
  readings_of k (pre ++ [r])
  = (readings_of k pre ++ if String.eqb (sd_nodeId r) k then [r] else [])%list.
Proof. unfold readings_of. rewrite filter_app. cbn. now destruct (String.eqb _ _). Qed.

Lemma grouped_by_step (pre : list SensorData) (g : Engine.Groups) (r : SensorData) :
  grouped_by pre g ->
  exists g', Engine.group_step g r = Some g' /\ grouped_by (pre ++ [r]) g'.
Proof.
  intros [Hnd Hin Hall]. unfold Engine.group_step.
  destruct (Engine.has g (sd_nodeId r)) eqn:Hhas; cbn [negb].
  - destruct (push_present g (sd_nodeId r) r Hhas) as (g1 & v & g2 & -> & Hg1 & ->).
    eexists. split; [reflexivity|].
    assert (Hv : v = readings_of (sd_nodeId r) pre /\ v <> [])
      by (apply Hin, in_or_app; right; now left).
    rewrite map_app in Hnd. cbn [map fst] in Hnd.
    split.
    + rewrite map_app. exact Hnd.
    + intros k l. rewrite readings_of_snoc.
      specialize (Hin k l). rewrite in_app_iff in *. cbn [In] in *.
      destruct (String.eqb_spec (sd_nodeId r) k) as [<-|Hne].
      * split.
        -- intros [H|[H|H]].
           ++ exfalso. apply NoDup_remove_2 in Hnd. apply Hnd, in_or_app. left.
              apply (in_map fst) in H. exact H.
           ++ injection H as <-. destruct Hv as [-> _]. split; [reflexivity|].
              now destruct (readings_of _ _).
           ++ exfalso. apply NoDup_remove_2 in Hnd. apply Hnd, in_or_app. right.
              apply (in_map fst) in H. exact H.
        -- intros [-> _]. right. left. destruct Hv as [-> _]. reflexivity.
      * rewrite app_nil_r. rewrite <- Hin.
        split; (intros [H|[H|H]]; [now left| |now (right; right)]);
          injection H as E _; congruence.
    + rewrite map_app, concat_app in *. cbn [map snd List.concat] in *.
      rewrite <- Hall, <- !app_assoc.
      apply Permutation_app_head, Permutation_app_head, Permutation_cons_append.
  - rewrite set_absent, push_absent by assumption. cbn [app].
    eexists. split; [reflexivity|].
    assert (Hk : ~ In (sd_nodeId r) (map fst g)).
    { intros H%has_keys. congruence. }
    assert (Hnone : readings_of (sd_nodeId r) pre = []).
    { destruct (readings_of (sd_nodeId r) pre) as [|x l0] eqn:E; [reflexivity|].
      exfalso. apply Hk.
      apply (in_map fst _ (sd_nodeId r, x :: l0)), Hin. now rewrite E. }
    split.
    + rewrite map_app. cbn. apply NoDup_app; [assumption|repeat constructor; intros []|].
      intros k Hk1 [<-|[]]. contradiction.
    + intros k l. rewrite readings_of_snoc, in_app_iff. cbn [In].
      specialize (Hin k l).
      destruct (String.eqb_spec (sd_nodeId r) k) as [<-|Hne].
      * rewrite Hnone. cbn [app]. split.
        -- intros [H|[H|[]]].
           ++ exfalso. apply Hk. apply (in_map fst) in H. exact H.
           ++ injection H as <-. now split.
        -- intros [-> _]. right. now left.
      * rewrite app_nil_r, <- Hin. split; [|now left].
        intros [H|[H|[]]]; [assumption|]. injection H as E _. congruence.
    + rewrite map_app, concat_app. cbn [map snd List.concat app].
      now apply Permutation_app_tail.
Qed.

Lemma grouped_by_fold (data pre : list SensorData) (g : Engine.Groups) :
  grouped_by pre g ->
  exists g',
    fold_left (fun acc reading =>
                 match acc with
                 | Some grouped => Engine.group_step grouped reading
                 | None => None
                 end) data (Some g) = Some g'
    /\ grouped_by (pre ++ data) g'.
Proof.
  revert pre g. induction data as [|r data IH]; intros pre g H; cbn [fold_left].
  - exists g. now rewrite app_nil_r.
  - destruct (grouped_by_step pre g r H) as (g1 & -> & H1).
    destruct (IH _ _ H1) as (g' & Hf & H'). exists g'.
    split; [exact Hf|]. now rewrite <- app_assoc in H'.
Qed.

(** X14: [groupSensorData] never fails and loses nothing: the keys of the
    map are distinct, the group of a sensor holds exactly the readings of
    that sensor in the order they came in, no group is empty, and the
    groups together are the readings that went in. *)
Theorem readings_grouped_by_sensor (data : list SensorData) :
  exists grouped,
    Engine.groupSensorData data = Some grouped
    /\ NoDup (map fst grouped)
    /\ (forall k, Engine.get grouped k
                  = match readings_of k data with
                    | [] => None
                    | l => Some l
                    end)
    /\ (forall k l, In (k, l) grouped -> l <> [])
    /\ Permutation (List.concat (map snd grouped)) data.
Proof.
  destruct (grouped_by_fold data [] []) as (g & Hf & [Hnd Hin Hall]).
  { split; [constructor| |reflexivity]. intros k l. cbn. split; [contradiction|].
    now intros [-> H]. }
  exists g. split; [exact Hf|]. split; [exact Hnd|]. cbn [app] in *.
  split; [|split; [|exact Hall]].
  - intros k. destruct (Engine.get g k) as [l|] eqn:E.
    + assert (H : In (k, l) g).
      { clear -E. induction g as [|[k' v] g IH]; cbn in *; [discriminate|].
        destruct (String.eqb_spec k' k) as [->|]; [injection E as ->; now left|auto]. }
      apply Hin in H as [<- Hne]. now destruct l.
    + destruct (readings_of k data) as [|x l] eqn:El; [reflexivity|exfalso].
      assert (H : In (k, x :: l) g) by (apply Hin; now rewrite El).
      clear -E H. induction g as [|[k' v] g IH]; cbn in *; [contradiction|].
      destruct (String.eqb_spec k' k) as [->|Hne]; [discriminate|].
      destruct H as [H|H]; [injection H as -> _; contradiction|auto].
  - intros k l H. now apply Hin in H.
Qed.

(** ** The anomaly score *)

(** [0 <= x && x <= 100] on numbers. *)
Definition percentage (x : float) : bool :=
  PrimFloat.leb 0 x && PrimFloat.leb x 100.

(** Zero, or positive and possibly infinite. *)
Definition not_below_zero (x : spec_float) : Prop :=
  match x with
  | S754_zero _ => True
  | S754_infinity s | S754_finite s _ _ => s = false
  | S754_nan => False
  end.

Lemma ltb_leb (a b : float) : PrimFloat.ltb a b = true -> PrimFloat.leb a b = true.
Proof.
  rewrite ltb_spec, leb_spec. unfold SFltb, SFleb.
  now destruct (SFcompare _ _) as [[| |]|].
Qed.

Lemma is_nan_spec (x : float) :
  PrimFloat.is_nan x = match Prim2SF x with S754_nan => true | _ => false end.
Proof.
  unfold PrimFloat.is_nan. rewrite eqb_spec. unfold SFeqb.
  destruct (Prim2SF x) as [s|s| |s m e]; cbn [SFcompare]; try reflexivity.
  - now destruct s.
  - rewrite Z.compare_refl, Pos.compare_cont_refl. now destruct s.
Qed.

Lemma not_below_zero_leb (x : float) :
  not_below_zero (Prim2SF x) -> PrimFloat.leb 0 x = true.
Proof.
  rewrite leb_spec. change (Prim2SF 0) with (S754_zero false).
  destruct (Prim2SF x) as [s|s| |s m e]; cbn; try tauto; now intros ->.
Qed.

Lemma leb_not_below_zero (x : float) :
  PrimFloat.leb 0 x = true -> not_below_zero (Prim2SF x).
Proof.
  rewrite leb_spec. change (Prim2SF 0) with (S754_zero false).
  destruct (Prim2SF x) as [s|s| |s m e]; cbn; try tauto; try discriminate;
    now destruct s.
Qed.

Lemma not_below_zero_not_nan (x : float) :
  not_below_zero (Prim2SF x) -> PrimFloat.is_nan x = false.
Proof. rewrite is_nan_spec. now destruct (Prim2SF x). Qed.

(** A number of magnitude at most [c] is not above [c]. *)
Lemma within_leb (mc : positive) (ec : Z) (x : spec_float) :
  bounded prec emax mc ec = true ->
  within (V (Z.pos mc) ec) x -> SFleb x (S754_finite false mc ec) = true.
Proof.
  intros Hc [_ [[s ->]|(s & m & e & -> & Hb & Hle)]]; [reflexivity|].
  destruct s; [reflexivity|].
  unfold SFleb. rewrite SFcompare_canonical by assumption.
  destruct (Z.compare_spec (V (Z.pos m) e) (V (Z.pos mc) ec)); try reflexivity. lia.
Qed.

(** A percentage is zero or a positive number of at most 100. *)
Lemma percentage_spec (x : float) :
  percentage x = true ->
  nonneg_within (V 7036874417766400 (-46)) (Prim2SF x).
Proof.
  unfold percentage. intros [H0 H100]%andb_true_iff.
  apply leb_not_below_zero in H0. rewrite leb_spec in H100.
  change (Prim2SF 100) with (S754_finite false 7036874417766400 (-46)) in H100.
  pose proof (Prim2SF_valid x) as Hv.
  destruct (Prim2SF x) as [s|s| |s m e]; cbn in H0; try contradiction.
  - left. eauto.
  - subst s. discriminate.
  - subst s. right. exists m, e. split; [reflexivity|]. split; [exact Hv|].
    unfold SFleb in H100. rewrite SFcompare_canonical in H100 by (exact Hv || reflexivity).
    destruct (Z.compare_spec (V (Z.pos m) e) (V 7036874417766400 (-46)));
      [lia|lia|discriminate].
Qed.

(** The sign of a rounded non-negative value. *)
Lemma binary_round_aux_sign (M E : Z) (l : location) :
  0 <= M -> -3000 <= E -> E <= fexp64 (Zdigits2 M + E) ->
  not_below_zero (binary_round_aux prec emax false M E l).
Proof.
  intros HM HE Hpre.
  destruct (binary_round_aux_value false M E l HM HE Hpre)
    as (m2 & _ & [[-> _]|[->|(p & e & -> & _)]]); cbn; auto.
Qed.

Lemma binary_round_sign (mx : positive) (ex : Z) :
  -3000 <= ex -> not_below_zero (binary_round prec emax false mx ex).
Proof.
  intros Hex. unfold binary_round.
  change (SpecFloat.fexp prec emax) with fexp64.
  change (Z.pos (digits2_pos mx)) with (Zdigits2 (Z.pos mx)).
  set (e' := fexp64 (Zdigits2 (Z.pos mx) + ex)).
  assert (He' : -1074 <= e') by (unfold e'; rewrite fexp64_eq; lia).
  destruct (Z.le_gt_cases ex e') as [Hcase|Hcase].
  - rewrite shl_align_id by assumption. apply binary_round_aux_sign; auto; lia.
  - destruct (shl_align_spec mx ex e') as [Hm He]; [lia|].
    destruct (shl_align mx ex e') as [mz ez]. cbn [fst snd] in *. subst ez.
    apply binary_round_aux_sign; try lia.
    rewrite Hm, Zdigits2_shift by lia.
    replace (Zdigits2 (Z.pos mx) + (ex - e') + e') with (Zdigits2 (Z.pos mx) + ex) by lia.
    fold e'. lia.
Qed.

Lemma valid_bounded (s : bool) (m : positive) (e : Z) :
  valid_binary (S754_finite s m e) = true -> bounded prec emax m e = true.
Proof. trivial. Qed.

(** The sum of two numbers that are not below zero. *)
Lemma SFadd_sign (x y : spec_float) :
  valid_binary x = true -> valid_binary y = true ->
  not_below_zero x -> not_below_zero y -> not_below_zero (SFadd prec emax x y).
Proof.
  intros Hvx Hvy Hx Hy.
  destruct x as [sx|sx| |sx mx ex], y as [sy|sy| |sy my ey]; cbn in Hx, Hy;
    try contradiction; subst; cbn [SFadd Bool.eqb]; cbn; auto.
  - now destruct sx, sy.
  - pose proof (bounded_range mx ex Hvx) as (Hex & _).
    pose proof (bounded_range my ey Hvy) as (Hey & _).
    cbn [cond_Zopp Z.add binary_normalize]. apply binary_round_sign. lia.
Qed.

(** A positive number, possibly infinite, times a positive normal one. *)
Lemma SFmul_sign (x : spec_float) (my : positive) (ey : Z) :
  valid_binary x = true -> bounded prec emax my ey = true -> 2 ^ 52 <= Z.pos my ->
  not_below_zero x ->
  not_below_zero (SFmul prec emax x (S754_finite false my ey)).
Proof.
  intros Hvx Hy Hn Hx.
  destruct x as [sx|sx| |sx mx ex]; cbn in Hx; try contradiction; subst; cbn [SFmul xorb];
    cbn; auto.
  pose proof (bounded_range mx ex Hvx) as (Hex & _).
  pose proof (bounded_range my ey Hy) as (Hey & _).
  assert (HM : 2 ^ 52 <= Z.pos (mx * my)) by (rewrite Pos2Z.inj_mul; nia).
  apply binary_round_aux_sign; try lia.
  pose proof (Zdigits2_ge (Z.pos (mx * my)) 52 ltac:(lia) HM).
  rewrite fexp64_eq. lia.
Qed.

(** What is above 0.1 is not below zero. *)
Lemma above_tenth_sign (x : float) :
  JS.gt x 0.1 = true -> not_below_zero (Prim2SF x).
Proof.
  unfold JS.gt. rewrite ltb_spec.
  change (Prim2SF 0.1) with (S754_finite false 7205759403792794 (-56)).
  destruct (Prim2SF x) as [s|s| |s m e]; cbn; try discriminate; auto;
    now destruct s.
Qed.

Lemma sum_valid (a b : float) : valid_binary (SFadd prec emax (Prim2SF a) (Prim2SF b)) = true.
Proof. change (SFadd prec emax) with SF64add. rewrite <- add_spec. apply Prim2SF_valid. Qed.

Lemma product_valid (a b : float) :
  valid_binary (SFmul prec emax (Prim2SF a) (Prim2SF b)) = true.
Proof. change (SFmul prec emax) with SF64mul. rewrite <- mul_spec. apply Prim2SF_valid. Qed.

(** [Math.min(100, x)] of a number. *)
Lemma Math_min_100 (x : float) :
  PrimFloat.is_nan x = false ->
  Engine.Math_min 100 x = if PrimFloat.ltb x 100 then x else 100%float.
Proof.
  intros Hx. unfold Engine.Math_min. rewrite Hx.
  change (PrimFloat.is_nan 100) with false. change (PrimFloat.classify 100) with PNormal.
  reflexivity.
Qed.

(** [Math.max(0, x)] of a number. *)
Lemma Math_max_0 (x : float) :
  PrimFloat.is_nan x = false ->
  Engine.Math_max 0 x = if PrimFloat.ltb 0 x then x else 0%float.
Proof.
  intros Hx. unfold Engine.Math_max. rewrite Hx.
  change (PrimFloat.is_nan 0) with false. change (PrimFloat.classify 0) with PZero.
  reflexivity.
Qed.

Lemma Math_min_nan (a x : float) :
  PrimFloat.is_nan x = true -> Engine.Math_min a x = PrimFloat.nan.
Proof. intros Hx. unfold Engine.Math_min. now rewrite Hx, orb_true_r. Qed.

Lemma Math_max_nan (a x : float) :
  PrimFloat.is_nan x = true -> Engine.Math_max a x = PrimFloat.nan.
Proof. intros Hx. unfold Engine.Math_max. now rewrite Hx, orb_true_r. Qed.

(** X15: [updatePatterns] keeps the anomaly score a percentage: from a
    score between 0 and 100 the new score is between 0 and 100 again,
    whatever the baseline and the latest reading are (zero, infinite and
    NaN included). *)
Theorem anomaly_score_stays_a_percentage (baseline anomalyScore latestValue : float) :
  percentage anomalyScore = true ->
  percentage (Engine.updateAnomalyScore baseline anomalyScore latestValue) = true.
Proof.
  intros Hs. pose proof (percentage_spec _ Hs) as Hw.
  apply andb_true_iff in Hs as [H0 H100].
  unfold Engine.updateAnomalyScore. cbv zeta.
  set (deviation := (PrimFloat.abs (latestValue - baseline) / baseline)%float).
  destruct (JS.gt deviation 0.1) eqn:Hd.
  - assert (Hx : not_below_zero (Prim2SF (anomalyScore + deviation * 20))).
    { rewrite add_spec, mul_spec. unfold SF64add, SF64mul.
      apply SFadd_sign;
        [apply Prim2SF_valid|apply product_valid|now apply leb_not_below_zero|].
      change (Prim2SF 20) with (S754_finite false 5629499534213120 (-48)).
      apply SFmul_sign; [apply Prim2SF_valid|reflexivity|by_leb|].
      now apply above_tenth_sign. }
    rewrite Math_min_100 by now apply not_below_zero_not_nan.
    destruct (PrimFloat.ltb _ 100) eqn:Hlt; [|reflexivity].
    unfold percentage. now rewrite not_below_zero_leb, ltb_leb.
  - assert (Hy : within (V 7036874417766400 (-46)) (Prim2SF (anomalyScore - 1))).
    { rewrite sub_spec. unfold SF64sub.
      change (Prim2SF 1) with (S754_finite false 4503599627370496 (-52)).
      apply SFsub_le with (a := V 7036874417766400 (-46));
        [reflexivity|reflexivity|exact Hw|by_leb|by_leb]. }
    assert (Hn : PrimFloat.is_nan (anomalyScore - 1) = false).
    { rewrite is_nan_spec.
      destruct Hy as [_ [[s ->]|(s & m & e & -> & _)]]; reflexivity. }
    rewrite Math_max_0 by exact Hn.
    destruct (PrimFloat.ltb 0 _) eqn:Hlt; [|reflexivity].
    unfold percentage. rewrite ltb_leb by exact Hlt. rewrite leb_spec.
    change (Prim2SF 100) with (S754_finite false 7036874417766400 (-46)).
    now rewrite within_leb.
Qed.

Lemma anomaly_score_stays_a_percentage_witness :
  percentage 99.5 = true
  /\ percentage (Engine.updateAnomalyScore 580 99.5 0) = true
  /\ percentage (Engine.updateAnomalyScore 0 99.5 1) = true.
Proof.
  split; [reflexivity|]. split.
  - exact (anomaly_score_stays_a_percentage 580 99.5 0 eq_refl).
  - exact (anomaly_score_stays_a_percentage 0 99.5 1 eq_refl).
Defined.

(** X16: the score [getAIAnalysis] keeps is a percentage whenever the
    number it clamps is not NaN, and NaN when it is; a score that is NaN
    stays NaN through every update of [updatePatterns]. *)
Theorem anomaly_score_nan_is_kept (baseline latestValue x : float) :
  (if PrimFloat.is_nan x
   then PrimFloat.is_nan (Engine.clampScore x) = true
   else percentage (Engine.clampScore x) = true)
  /\ (PrimFloat.is_nan x = true ->
      PrimFloat.is_nan (Engine.updateAnomalyScore baseline x latestValue) = true).
Proof.
  split.
  - unfold Engine.clampScore. destruct (PrimFloat.is_nan x) eqn:Hx.
    + now rewrite (Math_min_nan _ _ Hx), Math_max_nan.
    + rewrite Math_min_100 by exact Hx.
      destruct (PrimFloat.ltb x 100) eqn:Hlt.
      * rewrite Math_max_0 by exact Hx.
        destruct (PrimFloat.ltb 0 x) eqn:H0; [|reflexivity].
        unfold percentage. now rewrite !ltb_leb.
      * reflexivity.
  - intros Hx. rewrite is_nan_spec in Hx.
    destruct (Prim2SF x) eqn:E; try discriminate.
    unfold Engine.updateAnomalyScore. cbv zeta.
    destruct (JS.gt _ 0.1).
    + rewrite Math_min_nan; [reflexivity|]. now rewrite is_nan_spec, add_spec, E.
    + rewrite Math_max_nan; [reflexivity|]. now rewrite is_nan_spec, sub_spec, E.
Qed.

Lemma anomaly_score_nan_is_kept_witness :
  PrimFloat.is_nan nan = true
  /\ PrimFloat.is_nan (Engine.updateAnomalyScore 580 nan 600) = true.
Proof.
  split; [reflexivity|].
  exact (proj2 (anomaly_score_nan_is_kept 580 600 nan) eq_refl).
Defined.

(** ** One tick of the sample generator *)

(** The messages [ms] sent one after the other to a socket. *)
Definition send_all (ms : list Message) (s : Socket) : Socket :=
  fold_left (fun s m => send_if_open m s) ms s.



(** The world after the messages [ms] went out, the storage became [d] and
    the pending calls [ts]. *)
Definition after (ms : list Message) (d : Db) (ts : list Task) (w : World) : World :=
  set_sockets (map (send_all ms) (sockets w)) (clients w) (set_db d (set_tasks ts w)).

Lemma after_after (ms ms' : list Message) (d d' : Db) (ts ts' : list Task) (w : World) :
  after ms' d' ts' (after ms d ts w) = after (ms ++ ms') d' ts' w.
Proof.
  unfold after, set_sockets, set_db, set_tasks. cbn. f_equal.
  rewrite map_map. apply map_ext.
  intros s. unfold send_all. now rewrite fold_left_app.
Qed.

Lemma after_nothing (w : World) : after [] (db w) (tasks w) w = w.
Proof.
  unfold after, set_sockets, set_db, set_tasks. destruct w. cbn. f_equal. apply map_id.
Qed.





























(** ** A hand-shake that fails *)

(** The snapshots socket [n] has received or may still receive. *)
Definition chances (n : nat) (w : World) : nat :=
  (initials n w + pending n (tasks w))%nat.

Lemma chances_same_view (n : nat) (w w' : World) :
  same_view w w' -> chances n w' = chances n w.
Proof. intros (_ & H1 & H2). unfold chances. now rewrite H1, H2. Qed.

Lemma initials_deliver (n ws : nat) (m : Message) (w : World) :
  (initials n (set_sockets (update_nth ws (send_if_open m) (sockets w)) (clients w) w)
   <= initials n w + if Nat.eqb ws n then 1 else 0)%nat.
Proof.
  unfold initials. cbn [sockets set_sockets]. rewrite nth_update_nth.
  destruct (Nat.eqb_spec n ws) as [->|Hne]; cbn [andb].
  - rewrite Nat.eqb_refl. destruct (Nat.ltb _ _); [|lia].
    unfold send_if_open. destruct (ws_open _); [|lia].
    cbn. rewrite filter_app, length_app. cbn. destruct (is_initial_data m); cbn; lia.
  - lia.
Qed.

(** A step of a hand-shake gives its socket at most the chance it took. *)
Lemma chances_resolve_send (n : nat) (k : Kont) (r : Reply) (w : World) :
  is_send k = true ->
  (chances n (resolve k r w) <= chances n w + if sends_to n k then 1 else 0)%nat.
Proof.
  intros Hk. unfold chances.
  destruct k; try discriminate Hk; destruct r; cbn [resolve sends_to]; try lia;
    try (unfold initials, await; cbn [tasks sockets set_tasks]; rewrite pending_snoc;
         cbn [snd sends_to]; lia).
  match goal with
  | |- context [send_if_open ?m] => pose proof (initials_deliver n ws m w) as H
  end.
  cbn [tasks set_sockets]. lia.
Qed.

(** No turn of the event loop gives an existing socket a new chance of a
    snapshot. *)
Lemma chances_step (l : Label) (n : nat) (w w' : World) :
  step l w = Some w' -> (n < List.length (sockets w))%nat ->
  (chances n w' <= chances n w)%nat.
Proof.
  intros Hs Hn. pose proof (same_view_refl w) as Hrefl.
  destruct l; cbn [step] in Hs.
  - apply some_eq in Hs as <-. unfold chances, connection, initials.
    cbn [await tasks sockets set_tasks set_sockets].
    rewrite pending_snoc, app_nth1 by assumption. cbn [snd sends_to].
    destruct (Nat.eqb_spec (List.length (sockets w)) n); lia.
  - unfold close in Hs. destruct (nth_error (sockets w) ws) as [s|]; [|discriminate].
    destruct (ws_open s); [|discriminate]. apply some_eq in Hs as <-.
    unfold chances, initials. cbn [tasks sockets set_sockets].
    rewrite nth_update_nth. destruct (_ && _); cbn; lia.
  - apply some_eq in Hs as <-.
    rewrite (chances_same_view n w); [lia|]. now apply same_view_spawn_generators.
  - destruct (Insight.performAiAnalysis r1 r2 r3) as [[a r]|]; apply some_eq in Hs as <-;
      [|lia].
    rewrite (chances_same_view n w); [lia|]. now apply same_view_await.
  - apply some_eq in Hs as <-.
    rewrite (chances_same_view n w); [lia|]. now apply same_view_await.
  - apply some_eq in Hs as <-.
    rewrite (chances_same_view n w); [lia|]. now apply same_view_startScenario.
  - apply some_eq in Hs as <-.
    rewrite (chances_same_view n w); [lia|]. now apply same_view_stopScenario.
  - destruct (existsb _ _); [|discriminate]. apply some_eq in Hs as <-.
    rewrite (chances_same_view n w); [lia|]. unfold phaseTimerFires.
    apply same_view_executeCurrentPhase. exact Hrefl.
  - destruct (nth_error (tasks w) task) as [[c k]|] eqn:Hi; [|discriminate].
    pose proof (pending_remove n task _ _ Hi) as Hp. cbn [snd] in Hp.
    set (w0 := set_tasks (remove_nth task (tasks w)) w) in *.
    assert (H0 : (chances n w0 + (if sends_to n k then 1 else 0) = chances n w)%nat).
    { unfold chances, initials, w0 in *. cbn [tasks sockets set_tasks]. lia. }
    destruct o.
    + destruct (perform now c _) as [r d]. apply some_eq in Hs as <-.
      destruct (is_send k) eqn:Hk.
      * pose proof (chances_resolve_send n k r (set_db d w0) Hk) as H.
        change (chances n (set_db d w0)) with (chances n w0) in H. lia.
      * rewrite (chances_same_view n (set_db d w0)) by now apply same_view_resolve.
        change (chances n (set_db d w0)) with (chances n w0). lia.
    + apply some_eq in Hs as <-.
      rewrite (chances_same_view n w0) by apply same_view_reject. lia.
Qed.

Lemma chances_run (ls : list Label) (n : nat) (w w' : World) :
  run ls w = Some w' -> (n < List.length (sockets w))%nat ->
  (chances n w' <= chances n w)%nat.
Proof.
  revert w. induction ls as [|l ls IH]; intros w; cbn [run].
  - intros <-%some_eq. lia.
  - destruct (step l w) as [w1|] eqn:Hs; [|discriminate]. intros Hr Hn.
    pose proof (chances_step l n w w1 Hs Hn) as H1.
    assert (Hlen : (List.length (sockets w) <= List.length (sockets w1))%nat).
    { destruct (Nat.le_gt_cases (List.length (sockets w)) (List.length (sockets w1)))
        as [|Hlt]; [assumption|exfalso].
      destruct (List.length (sockets w)) as [|m] eqn:E; [lia|].
      destruct (nth_error (sockets w) m) as [s|] eqn:Es.
      - destruct (step_later l w w1 Hs m s Es) as (s' & Hs' & _).
        assert (Hsome : nth_error (sockets w1) m <> None) by congruence.
        apply nth_error_Some in Hsome. lia.
      - apply nth_error_None in Es. lia. }
    specialize (IH w1 Hr ltac:(lia)). lia.
Qed.

(** An observer connects and one of the five reads of its hand-shake
    fails, after [k] of them succeeded. *)
Definition failed_handshake (k : nat) (t : Z) (w : World) : list Label :=
  let i := List.length (tasks w) in
  (Connection :: repeat (Settle i t Resolved) k ++ [Settle i t Rejected])%list.

Lemma failed_handshake_run (k : nat) (t : Z) (w : World) :
  (k < 5)%nat ->
  run (failed_handshake k t w) w
  = Some (set_sockets (sockets w ++ [{| ws_open := true; ws_received := [] |}])%list
            (clients w ++ [List.length (sockets w)])%list w).
Proof.
  intros Hk. destruct w as [d ss cs ts m tm tq rs fs].
  unfold failed_handshake.
  do 5 (destruct k as [|k];
        [ unfold run, step, connection, await;
          cbn [repeat app tasks sockets clients db set_tasks set_sockets set_db];
          repeat (rewrite nth_error_snoc, remove_nth_snoc;
                  cbn [perform resolve reject await tasks sockets clients db set_tasks
                       set_sockets set_db]);
          reflexivity
        | ]).
  lia.
Qed.

(** X18: when one of the five reads of [sendLatestData] fails, the error
    is swallowed: the observer stays subscribed with nothing received, no
    call stays pending and nothing is stored or reported.  The snapshot is
    not retried: whatever happens afterwards, this socket never receives an
    [initial_data]. *)
Theorem failed_snapshot_is_never_sent (ls : list Label) (now : Z) (w : World)
    (k : nat) (t : Z) :
  run ls (initial now) = Some w ->
  (k < 5)%nat ->
  let n := List.length (sockets w) in
  exists w1,
    run (failed_handshake k t w) w = Some w1
    /\ nth_error (sockets w1) n = Some {| ws_open := true; ws_received := [] |}
    /\ clients w1 = (clients w ++ [n])%list
    /\ tasks w1 = tasks w /\ db w1 = db w
    /\ faults w1 = faults w /\ responses w1 = responses w
    /\ forall ls' w2 s,
         run ls' w1 = Some w2 -> nth_error (sockets w2) n = Some s ->
         filter is_initial_data (ws_received s) = [].
Proof.
  intros Hrun Hk n. eexists. split; [now apply failed_handshake_run|].
  cbn [sockets clients tasks db faults responses set_sockets].
  split; [apply nth_error_snoc|]. repeat (split; [reflexivity|]).
  intros ls' w2 s Hrun' Hs.
  set (w1 := set_sockets _ _ w) in *.
  assert (Hn : (n < List.length (sockets w1))%nat).
  { unfold w1. cbn [sockets set_sockets]. rewrite length_app. cbn. lia. }
  pose proof (chances_run ls' n w1 w2 Hrun' Hn) as Hle.
  assert (H0 : chances n w1 = 0%nat).
  { unfold chances, initials, w1. cbn [sockets tasks set_sockets].
    unfold n. rewrite nth_middle. cbn [ws_received filter List.length].
    destruct (handshake_inv_run _ _ _ Hrun (handshake_inv_initial now)
                (List.length (sockets w))) as [_ Hp].
    now rewrite Hp. }
  rewrite H0 in Hle. unfold chances, initials in Hle.
  rewrite (nth_error_nth _ _ _ Hs) in Hle.
  destruct (filter is_initial_data (ws_received s)); [reflexivity|cbn in Hle; lia].
Qed.

Lemma failed_snapshot_is_never_sent_witness :
  exists w1,
    run (failed_handshake 2 7 (initial 0)) (initial 0) = Some w1
    /\ nth_error (sockets w1) 0 = Some {| ws_open := true; ws_received := [] |}
    /\ forall ls' w2 s,
         run ls' w1 = Some w2 -> nth_error (sockets w2) 0 = Some s ->
         filter is_initial_data (ws_received s) = [].
Proof.
  assert (Hk : (2 < 5)%nat) by lia.
  destruct (failed_snapshot_is_never_sent [] 0 (initial 0) 2 7 eq_refl Hk)
    as (w1 & H1 & H2 & _ & _ & _ & _ & _ & H8).
  exists w1. split; [exact H1|]. split; [exact H2|exact H8].
Defined.

(** ** A scenario from start to completion *)















